(** * Word Linkage Zone: a shallow embedding of [word_linkage_zone.py]

    The development follows the Python module top to bottom: the data the
    builder consumes (spaCy tokens, sentences, pipelines), the two tables it
    owns, a small state-and-exception monad for the methods, the methods
    themselves, and then the properties of the numbering scheme, of relation
    extraction and of serialization.

    Conventions.
    - A Python [int] is a [Z]; a [dict] with a fixed set of keys is a record;
      the per-sentence [word_index_map] is a [gmap Z Z].
    - A Python [str] is represented by the bytes of its UTF-8 encoding (a
      Rocq [string]), so that writing it through a text stream opened with
      [encoding='utf-8'] appends the representation unchanged; the encoding
      itself is defined in the section on reading the files back.
    - spaCy, the file system and the console are outside the module; they
      are modelled by the [World] record below. *)

From Stdlib Require Import ZArith Ascii String DecimalString.
From Stdlib Require DecimalPos DecimalZ.
From stdpp Require Import base gmap list strings sorting.

Local Open Scope Z_scope.

(** ** Python values *)

(** [str(n)] and [f"{n}"] for an [int]. *)
Definition str_int (n : Z) : string := NilZero.string_of_int (Z.to_int n).

(** [f"{x}"] for a value that is either a [str] or [None]. *)
Definition str_optional (x : option string) : string :=
  match x with
  | Some s => s
  | None => "None"
  end.

Definition TAB : string := String (ascii_of_nat 9) EmptyString.
Definition NL : string := String (ascii_of_nat 10) EmptyString.

(** [enumerate(l)], with the counter kept as a Python integer. *)
Fixpoint enumerate_from {A : Type} (start : Z) (l : list A) : list (Z * A) :=
  match l with
  | [] => []
  | x :: l' => (start, x) :: enumerate_from (start + 1) l'
  end.

Definition enumerate {A : Type} (l : list A) : list (Z * A) :=
  enumerate_from 0 l.

(** ** What the annotator hands over *)

(** The attributes of a spaCy token that the module reads: [token.text],
    [token.i], [token.dep_] and [token.head.i]. *)
Module Token.
Record t : Type := mk
  { text : string;
    i : Z;
    dep_ : string;
    head_i : Z }.
End Token.

(** A sentence ([Span]) iterates over its tokens; [doc.sents] iterates over
    the sentences; [self.nlp] maps a text to its document. *)
Abbreviation Span := (list Token.t).
Abbreviation Doc := (list (list Token.t)).
Definition Language : Type := string -> Doc.

(** ** The two tables *)

(** An entry of [self.word_data]. *)
Record Word : Type := mkWord
  { text_number : Z;
    sentence_number : Z;
    word_number : Z;
    word_form : string }.

(** An entry of [self.relation_data]. *)
Module Rel.
Record t : Type := mk
  { text_number : Z;
    sentence_number : Z;
    word_number1 : Z;
    word_number2 : Z;
    relation : string;
    dep_label : string }.
End Rel.

(** The instance attributes of a [WordLinkageZone]. *)
Record WordLinkageZone : Type := mkWLZ
  { language : string;
    nlp : Language;
    word_data : list Word;
    relation_data : list Rel.t }.

(** ** The outside world *)

(** Calls that leave the module, in the order they are made. *)
Inductive event : Type :=
  | spacy_load_called (name : string)
  | download_called (name : string)
  | printed (line : string).

Record World : Type := mkWorld
  { installed : gmap string Language;   (* packages [spacy.load] can find *)
    index : gmap string Language;       (* packages [download] can fetch *)
    GLOSSARY : gmap string string;      (* [spacy.glossary.GLOSSARY] *)
    dirs : gset string;                 (* existing directories *)
    files : gmap string string;         (* regular files and their contents *)
    refused : gset string;              (* paths the system refuses to touch *)
    trace : list event }.

(** A method runs on its instance and on the world around it. *)
Record Heap : Type := mkHeap
  { self : WordLinkageZone;
    world : World }.

(** ** Exceptions and state *)

Inductive exn : Type :=
  | ValueError (msg : string)
  | OSError (msg : string)
  | KeyError (key : string)
  | SystemExit (code : Z).

Inductive outcome (A : Type) : Type :=
  | Ok (a : A)
  | Raise (e : exn).
Arguments Ok {A} a.
Arguments Raise {A} e.

Definition M (S A : Type) : Type := S -> outcome A * S.

Definition ret {S A : Type} (a : A) : M S A := fun s => (Ok a, s).

Definition bind {S A B : Type} (m : M S A) (k : A -> M S B) : M S B :=
  fun s =>
    match m s with
    | (Ok a, s') => k a s'
    | (Raise e, s') => (Raise e, s')
    end.

Definition raise {S A : Type} (e : exn) : M S A := fun s => (Raise e, s).
Definition get {S : Type} : M S S := fun s => (Ok s, s).
Definition modify {S : Type} (f : S -> S) : M S unit := fun s => (Ok tt, f s).

Notation "x <- m ;; k" := (bind m (fun x => k))
  (at level 100, m at next level, right associativity,
   format "'[v' x  <-  m  ;;  '/' k ']'").
Notation "m ;;; k" := (bind m (fun _ => k))
  (at level 100, right associativity, format "'[v' m  ;;;  '/' k ']'").

(** [for x in l: body x]. *)
Fixpoint for_ {S A : Type} (l : list A) (body : A -> M S unit) : M S unit :=
  match l with
  | [] => ret tt
  | x :: l' => body x ;;; for_ l' body
  end.

(** [try: body except OSError: handler]. *)
Definition try_except_OSError {S A : Type} (body handler : M S A) : M S A :=
  fun s =>
    match body s with
    | (Raise (OSError _), s') => handler s'
    | r => r
    end.

(** [d[k]] on a dictionary; a missing key raises [KeyError(repr(k))]. *)
Class Repr (K : Type) : Type := repr : K -> string.
#[export] Instance repr_int : Repr Z := str_int.
#[export] Instance repr_str : Repr string := fun s => "'" +:+ s +:+ "'".

Definition getitem {S K V : Type} `{Countable K} `{Repr K}
    (d : gmap K V) (k : K) : M S V :=
  match d !! k with
  | Some v => ret v
  | None => raise (KeyError (repr k))
  end.

(** A computation on the world, run from inside a method. *)
Definition in_world {A : Type} (m : M World A) : M Heap A :=
  fun h =>
    let (r, w) := m (world h) in
    (r, mkHeap (self h) w).

(** ** spaCy, the console and the file system

    The set [refused] lists the paths the system does not let the program
    create or open for writing (no permission, a parent that is a regular
    file, the empty path): [makedirs] and [open] raise [OSError] on such a
    path and succeed on any other.  A stream is written through its path, so
    a write fails only on a refused path, that is, never once the file has
    been opened; errors that arise while writing (a full disk) and errors
    that are not [OSError] (a NUL character in a path) are outside the
    model. *)

Definition log (e : event) (w : World) : World :=
  mkWorld (installed w) (index w) (GLOSSARY w) (dirs w) (files w)
          (refused w) (trace w ++ [e]).

Definition install (name : string) (pipeline : Language) (w : World) : World :=
  mkWorld (<[name := pipeline]> (installed w)) (index w) (GLOSSARY w) (dirs w)
          (files w) (refused w) (trace w).

Definition with_dirs (d : gset string) (w : World) : World :=
  mkWorld (installed w) (index w) (GLOSSARY w) d (files w) (refused w)
          (trace w).

Definition with_files (f : gmap string string) (w : World) : World :=
  mkWorld (installed w) (index w) (GLOSSARY w) (dirs w) f (refused w)
          (trace w).

(** [spacy.load(name)]: the pipeline when the package is installed,
    [OSError] otherwise. *)
Definition spacy_load (name : string) : M World Language :=
  fun w =>
    let w' := log (spacy_load_called name) w in
    match installed w !! name with
    | Some pipeline => (Ok pipeline, w')
    | None => (Raise (OSError ("Can't find model " +:+ repr name)), w')
    end.

(** [spacy.cli.download(name)]: installs the package, or exits.  The exit
    of spaCy's own command line (unknown package, failed installation) is
    the one failure modelled; an exception of the HTTP layer is not. *)
Definition download (name : string) : M World unit :=
  fun w =>
    let w' := log (download_called name) w in
    match index w !! name with
    | Some pipeline => (Ok tt, install name pipeline w')
    | None => (Raise (SystemExit 1), w')
    end.

Definition print (line : string) : M World unit := modify (log (printed line)).

(** [spacy.glossary.explain(term)]: the gloss, or [None]. *)
Definition explain (term : string) : M World (option string) :=
  fun w => (Ok (GLOSSARY w !! term), w).

Definition os_path_exists (path : string) : M World bool :=
  fun w => (Ok (bool_decide (path ∈ dirs w ∨ path ∈ dom (files w))), w).

(** An operation on [path] that the system may refuse. *)
Definition guarded (path : string) (effect : World -> World) : M World unit :=
  fun w =>
    if bool_decide (path ∈ refused w)
    then (Raise (OSError ("Cannot access " +:+ repr path)), w)
    else (Ok tt, effect w).

(** [os.makedirs(path)]; only the leaf is recorded, the parents it may
    create are not tracked. *)
Definition os_makedirs (path : string) : M World unit :=
  guarded path (fun w => with_dirs ({[path]} ∪ dirs w) w).

Fixpoint endswith_slash (s : string) : bool :=
  match s with
  | EmptyString => false
  | String c EmptyString => bool_decide (c = "/"%char)
  | String _ s' => endswith_slash s'
  end.

Definition startswith_slash (s : string) : bool :=
  match s with
  | String c _ => bool_decide (c = "/"%char)
  | EmptyString => false
  end.

(** [os.path.join(a, b)] (POSIX). *)
Definition os_path_join (a b : string) : string :=
  if startswith_slash b then b
  else if bool_decide (a = "") || endswith_slash a then a +:+ b
  else a +:+ "/" +:+ b.

(** [open(path, 'w', encoding='utf-8')] creates or truncates the file; the
    stream is identified with its path. *)
Definition open_w (path : string) : M World unit :=
  guarded path (fun w => with_files (<[path := ""]> (files w)) w).

(** [f.write(s)] on the stream opened at [path]. *)
Definition f_write (path : string) (s : string) : M World unit :=
  guarded path
    (fun w => with_files (alter (fun c => c +:+ s) path (files w)) w).

(** ** The class *)

Definition model_name_map : gmap string string :=
  {[ "uk" := "uk_core_news_lg" ]}.

Definition load_language_model (language : string) : M World Language :=
  if bool_decide (language ∉ dom model_name_map) then
    raise (ValueError ("Unsupported language: " +:+ language))
  else
    model_name <- getitem model_name_map language ;;
    try_except_OSError
      (spacy_load model_name)
      (print ("Downloading spaCy model for " +:+ language +:+ ": "
                +:+ model_name) ;;;
       download model_name ;;;
       spacy_load model_name).

Definition __init__ (language : string) : M World WordLinkageZone :=
  nlp <- load_language_model language ;;
  ret (mkWLZ language nlp [] []).

(** Mutation of the two tables. *)
Definition word_data_extend (word_list : list Word) : M Heap unit :=
  modify (fun h =>
    let o := self h in
    mkHeap (mkWLZ (language o) (nlp o) (word_data o ++ word_list)
                  (relation_data o))
           (world h)).

Definition relation_data_append (rel : Rel.t) : M Heap unit :=
  modify (fun h =>
    let o := self h in
    mkHeap (mkWLZ (language o) (nlp o) (word_data o)
                  (relation_data o ++ [rel]))
           (world h)).

Definition call_nlp (text : string) : M Heap Doc :=
  fun h => (Ok (nlp (self h) text), h).

(** The first inner loop of [process_corpus]: it threads the two locals
    [word_list] and [word_index_map] through [enumerate(sent)]. *)
Definition number_words (text_index sent_index : Z) (sent : Span)
    : list Word * gmap Z Z :=
  foldl
    (fun '(word_list, word_index_map) '(word_index, token) =>
       let word_number := word_index + 1 in
       let word_form := Token.text token in
       (word_list ++ [mkWord (text_index + 1) (sent_index + 1)
                             word_number word_form],
        <[Token.i token := word_number]> word_index_map))
    ([], ∅) (enumerate sent).

(** The body of the second inner loop. *)
Definition extract_relation (text_index sent_index : Z)
    (word_index_map : gmap Z Z) (token : Token.t) : M Heap unit :=
  if bool_decide (Token.head_i token ∈ dom word_index_map)
     && bool_decide (Token.dep_ token ≠ "ROOT")
  then
    word_number1 <- getitem word_index_map (Token.i token) ;;
    word_number2 <- getitem word_index_map (Token.head_i token) ;;
    let relation := Token.dep_ token in
    relation_data_append
      (Rel.mk (text_index + 1) (sent_index + 1) word_number1 word_number2
              relation (Token.dep_ token))
  else ret tt.

(** The body of the loop over [enumerate(doc.sents)]. *)
Definition process_sentence (text_index : Z) (entry : Z * Span) : M Heap unit :=
  let '(sent_index, sent) := entry in
  let '(word_list, word_index_map) :=
    number_words text_index sent_index sent in
  word_data_extend word_list ;;;
  for_ sent (extract_relation text_index sent_index word_index_map).

(** The body of the loop over [enumerate(corpus)]. *)
Definition process_text (entry : Z * string) : M Heap unit :=
  let '(text_index, text) := entry in
  doc <- call_nlp text ;;
  for_ (enumerate doc) (process_sentence text_index).

Definition process_corpus (corpus : list string) : M Heap unit :=
  for_ (enumerate corpus) process_text.

Fixpoint find_word_form (words : list Word)
    (text_number0 sentence_number0 word_number0 : Z) : option string :=
  match words with
  | [] => None
  | word :: rest =>
      if bool_decide (text_number word = text_number0)
         && bool_decide (sentence_number word = sentence_number0)
         && bool_decide (word_number word = word_number0)
      then Some (word_form word)
      else find_word_form rest text_number0 sentence_number0 word_number0
  end.

Definition get_word_form (text_number0 sentence_number0 word_number0 : Z)
    : M Heap (option string) :=
  fun h =>
    (Ok (find_word_form (word_data (self h))
           text_number0 sentence_number0 word_number0), h).

Definition words_header : string :=
  "TextNumber" +:+ TAB +:+ "SentenceNumber" +:+ TAB +:+ "WordNumber" +:+ TAB
  +:+ "WordForm" +:+ NL.

Definition relations_header : string :=
  "TextNumber" +:+ TAB +:+ "SentenceNumber" +:+ TAB +:+ "WordNumber1" +:+ TAB
  +:+ "WordNumber2" +:+ TAB +:+ "Relation" +:+ NL.

Definition write_word (path : string) (word : Word) : M Heap unit :=
  in_world (f_write path
    (str_int (text_number word) +:+ TAB +:+ str_int (sentence_number word)
     +:+ TAB +:+ str_int (word_number word) +:+ TAB +:+ word_form word
     +:+ NL)).

Definition write_relation (path : string) (rel : Rel.t) : M Heap unit :=
  gloss <- in_world (explain (Rel.dep_label rel)) ;;
  let description := str_optional gloss in
  in_world (f_write path
    (str_int (Rel.text_number rel) +:+ TAB
     +:+ str_int (Rel.sentence_number rel) +:+ TAB
     +:+ str_int (Rel.word_number1 rel) +:+ TAB
     +:+ str_int (Rel.word_number2 rel) +:+ TAB +:+ description +:+ NL)).

Definition generate_files (output_dir : string) : M Heap unit :=
  present <- in_world (os_path_exists output_dir) ;;
  (if negb present then in_world (os_makedirs output_dir) else ret tt) ;;;
  let file1_path := os_path_join output_dir "words.txt" in
  in_world (open_w file1_path) ;;;
  in_world (f_write file1_path words_header) ;;;
  h <- get ;;
  for_ (word_data (self h)) (write_word file1_path) ;;;
  let file2_path := os_path_join output_dir "relations.txt" in
  in_world (open_w file2_path) ;;;
  in_world (f_write file2_path relations_header) ;;;
  h <- get ;;
  for_ (relation_data (self h)) (write_relation file2_path).

(** ** Closed forms of the loops

    What a run of [process_corpus] appends, as list comprehensions over the
    annotator's output. *)

(** The state after appending [ws] to [word_data] and [rs] to
    [relation_data]. *)
Definition appended (ws : list Word) (rs : list Rel.t) (h : Heap) : Heap :=
  mkHeap (mkWLZ (language (self h)) (nlp (self h))
                (word_data (self h) ++ ws) (relation_data (self h) ++ rs))
         (world h).

Definition word_of (text_index sent_index : Z) (entry : Z * Token.t) : Word :=
  mkWord (text_index + 1) (sent_index + 1) (entry.1 + 1) (Token.text entry.2).

Definition sentence_words (text_index sent_index : Z) (sent : Span)
    : list Word :=
  word_of text_index sent_index <$> enumerate sent.

(** The addressing map after the first inner loop, started from [m]. *)
Definition index_map_from (m : gmap Z Z) (entries : list (Z * Token.t))
    : gmap Z Z :=
  foldl (fun m entry => <[Token.i entry.2 := entry.1 + 1]> m) m entries.

Definition index_map (sent : Span) : gmap Z Z :=
  index_map_from ∅ (enumerate sent).

(** The relation record of one token, if it gets one. *)
Definition relation_of (text_index sent_index : Z) (m : gmap Z Z)
    (token : Token.t) : option Rel.t :=
  if bool_decide (Token.head_i token ∈ dom m)
     && bool_decide (Token.dep_ token ≠ "ROOT")
  then
    match m !! Token.i token, m !! Token.head_i token with
    | Some word_number1, Some word_number2 =>
        Some (Rel.mk (text_index + 1) (sent_index + 1)
                     word_number1 word_number2
                     (Token.dep_ token) (Token.dep_ token))
    | _, _ => None
    end
  else None.

Definition sentence_relations (text_index sent_index : Z) (sent : Span)
    : list Rel.t :=
  omap (relation_of text_index sent_index (index_map sent)) sent.

Definition doc_words (text_index : Z) (doc : Doc) : list Word :=
  concat ((fun entry => sentence_words text_index entry.1 entry.2)
            <$> enumerate doc).

Definition doc_relations (text_index : Z) (doc : Doc) : list Rel.t :=
  concat ((fun entry => sentence_relations text_index entry.1 entry.2)
            <$> enumerate doc).

Definition corpus_words (annotate : Language) (corpus : list string)
    : list Word :=
  concat ((fun entry => doc_words entry.1 (annotate entry.2))
            <$> enumerate corpus).

Definition corpus_relations (annotate : Language) (corpus : list string)
    : list Rel.t :=
  concat ((fun entry => doc_relations entry.1 (annotate entry.2))
            <$> enumerate corpus).

(** A freshly constructed instance, and the heap it lives in. *)
Definition fresh (language0 : string) (annotate : Language) (w : World)
    : Heap :=
  mkHeap (mkWLZ language0 annotate [] []) w.

(** Membership of a record in a sentence of the tables. *)
Definition in_sentence (d s : Z) (w : Word) : Prop :=
  text_number w = d ∧ sentence_number w = s.

#[export] Instance in_sentence_dec d s w : Decision (in_sentence d s w).
Proof. unfold in_sentence. apply _. Defined.

(** ** Sample annotator output

    A small annotator used to instantiate the statements below: two
    well-formed one-sentence texts, and a two-sentence document whose last
    token has its head in the previous sentence. *)

Definition the_cat_sleeps : Span :=
  [ Token.mk "The" 0 "det" 1;
    Token.mk "cat" 1 "nsubj" 2;
    Token.mk "sleeps" 2 "ROOT" 2;
    Token.mk "." 3 "punct" 2 ].

Definition go : Span :=
  [ Token.mk "Go" 0 "ROOT" 0;
    Token.mk "." 1 "punct" 0 ].

Definition rain_fell : Span :=
  [ Token.mk "Rain" 0 "nsubj" 1;
    Token.mk "fell" 1 "ROOT" 1;
    Token.mk "." 2 "punct" 1 ].

Definition birds_sang : Span :=
  [ Token.mk "Birds" 3 "nsubj" 4;
    Token.mk "sang" 4 "ROOT" 4;
    Token.mk "loudly" 5 "advmod" 1 ].

Definition sample_nlp : Language :=
  fun text =>
    if String.eqb text "The cat sleeps." then [the_cat_sleeps]
    else if String.eqb text "Go." then [go]
    else if String.eqb text "Rain fell. Birds sang loudly"
         then [rain_fell; birds_sang]
    else [].

Definition sample_world : World :=
  mkWorld ∅ ∅ {[ "det" := "determiner"; "nsubj" := "nominal subject" ]}
          ∅ ∅ {[ "" ]} [].

Definition sample_heap : Heap := fresh "uk" sample_nlp sample_world.

(** A token carrying the root label. *)
Definition is_root (token : Token.t) : Prop := Token.dep_ token = "ROOT".

#[export] Instance is_root_dec token : Decision (is_root token).
Proof. unfold is_root. apply _. Defined.

(** Processing order on word records: by document, then by sentence, then
    by position. *)
Definition word_before (w1 w2 : Word) : Prop :=
  text_number w1 < text_number w2 \/
  (text_number w1 = text_number w2 /\
   (sentence_number w1 < sentence_number w2 \/
    (sentence_number w1 = sentence_number w2 /\
     word_number w1 < word_number w2))).

(** Processing order on relation records: by document, then by sentence. *)
Definition relation_not_after (r1 r2 : Rel.t) : Prop :=
  Rel.text_number r1 < Rel.text_number r2 \/
  (Rel.text_number r1 = Rel.text_number r2 /\
   Rel.sentence_number r1 <= Rel.sentence_number r2).

(** The three keys of [get_word_form]. *)
Definition matches (d s n : Z) (w : Word) : Prop :=
  text_number w = d /\ sentence_number w = s /\ word_number w = n.

#[export] Instance matches_dec d s n w : Decision (matches d s n w).
Proof. unfold matches. apply _. Defined.

(** Global document numbering, as a property of one more call on a heap:
    every record the call appends to the Word Table carries a document
    number strictly greater than every document number already there. *)
Definition document_numbering_global (h : Heap) (corpus : list string) : Prop :=
  forall (ws : list Word) (w_old w_new : Word),
    word_data (self (process_corpus corpus h).2) = word_data (self h) ++ ws ->
    w_old ∈ word_data (self h) ->
    w_new ∈ ws ->
    text_number w_old < text_number w_new.

(** The sample instance after one call. *)
Definition after_first_call : Heap :=
  (process_corpus ["The cat sleeps."] sample_heap).2.

(** The sample instance after a second call. *)
Definition after_second_call : Heap :=
  (process_corpus ["Rain fell. Birds sang loudly"] after_first_call).2.

(** Numbering contiguity, as a property of an instance: for every pair
    (d, s) the word numbers the Word Table records for it are 1, ..., N for
    some N, each of them once. *)
Definition numbering_contiguous (h : Heap) : Prop :=
  forall d s : Z, exists N : nat,
    word_number <$> filter (in_sentence d s) (word_data (self h))
    ≡ₚ seqZ 1 (Z.of_nat N).

(** ** The contents of the two files *)

(** The lines of a file, one after the other. *)
Definition join_lines (lines : list string) : string :=
  foldr String.append "" lines.

(** A row: its fields separated by tabs, closed by a newline. *)
Definition row (fields : list string) : string :=
  String.concat TAB fields +:+ NL.

Definition word_line (w : Word) : string :=
  row [ str_int (text_number w); str_int (sentence_number w);
        str_int (word_number w); word_form w ].

Definition relation_line (glossary : gmap string string) (r : Rel.t)
    : string :=
  row [ str_int (Rel.text_number r); str_int (Rel.sentence_number r);
        str_int (Rel.word_number1 r); str_int (Rel.word_number2 r);
        str_optional (glossary !! Rel.dep_label r) ].

(** The system refuses none of the paths [generate_files] touches. *)
Definition writable (output_dir : string) (w : World) : Prop :=
  (output_dir ∉ refused w) /\
  (os_path_join output_dir "words.txt" ∉ refused w) /\
  (os_path_join output_dir "relations.txt" ∉ refused w).

#[export] Instance writable_dec output_dir w : Decision (writable output_dir w).
Proof. unfold writable. apply _. Defined.

(** The heap with the contents of its file system replaced. *)
Definition with_heap_files (f : gmap string string) (h : Heap) : Heap :=
  mkHeap (self h) (with_files f (world h)).

(** An instance whose relation table holds one record, with a label the
    sample glossary does not know; and the reading of "the Relation field is
    empty" for such a table: the row written to [relations.txt] ends in an
    empty fifth field. *)
Definition unglossed : Rel.t := Rel.mk 1 1 2 1 "punct" "punct".

Definition unglossed_heap : Heap := (process_corpus ["Go."] sample_heap).2.

Definition missing_gloss_field_empty (output_dir : string) (h : Heap)
    (r : Rel.t) : Prop :=
  writable output_dir (world h) ->
  relation_data (self h) = [r] ->
  GLOSSARY (world h) !! Rel.dep_label r = None ->
  files (world (generate_files output_dir h).2)
    !! os_path_join output_dir "relations.txt"
  = Some (relations_header
          +:+ row [ str_int (Rel.text_number r);
                    str_int (Rel.sentence_number r);
                    str_int (Rel.word_number1 r);
                    str_int (Rel.word_number2 r); "" ]).

(** ** Reading the files back

    The lines and the fields of a file are counted by its newline and tab
    characters; its bytes are checked against the grammar of UTF-8. *)

Definition HT : ascii := ascii_of_nat 9.
Definition LF : ascii := ascii_of_nat 10.

Fixpoint count_char (c : ascii) (s : string) : nat :=
  match s with
  | EmptyString => 0%nat
  | String a s' => ((if Ascii.eqb a c then 1 else 0) + count_char c s')%nat
  end.

Definition between (lo hi : N) (a : ascii) : Prop :=
  (lo <= N_of_ascii a /\ N_of_ascii a <= hi)%N.

(** The first two bytes of a three-byte and of a four-byte sequence: no
    overlong form, no surrogate, nothing above U+10FFFF. *)
Definition three_byte_lead (a b : ascii) : Prop :=
  (between 224 224 a /\ between 160 191 b) \/
  (between 225 236 a /\ between 128 191 b) \/
  (between 237 237 a /\ between 128 159 b) \/
  (between 238 239 a /\ between 128 191 b).

Definition four_byte_lead (a b : ascii) : Prop :=
  (between 240 240 a /\ between 144 191 b) \/
  (between 241 243 a /\ between 128 191 b) \/
  (between 244 244 a /\ between 128 143 b).

(** Well-formed UTF-8: a sequence of encoded code points. *)
Inductive utf8 : string -> Prop :=
  | utf8_end : utf8 EmptyString
  | utf8_one a s :
      between 0 127 a -> utf8 s -> utf8 (String a s)
  | utf8_two a b s :
      between 194 223 a -> between 128 191 b -> utf8 s ->
      utf8 (String a (String b s))
  | utf8_three a b c s :
      three_byte_lead a b -> between 128 191 c -> utf8 s ->
      utf8 (String a (String b (String c s)))
  | utf8_four a b c d s :
      four_byte_lead a b -> between 128 191 c -> between 128 191 d ->
      utf8 s ->
      utf8 (String a (String b (String c (String d s)))).

(** The reading of "the header line followed by one line per Word Table
    record": [words.txt] has one line more than the table has records. *)
Definition one_line_per_record (output_dir : string) (h : Heap) : Prop :=
  writable output_dir (world h) ->
  exists content : string,
    files (world (generate_files output_dir h).2)
      !! os_path_join output_dir "words.txt" = Some content /\
    count_char LF content = S (length (word_data (self h))).

(** A text of two paragraphs: the annotator hands the blank line between
    them over as a token of its own. *)
Definition title_and_body : Span :=
  [ Token.mk "Title" 0 "ROOT" 0;
    Token.mk (NL +:+ NL) 1 "dep" 0;
    Token.mk "Body" 2 "appos" 0 ].

Definition paragraphs_nlp : Language := fun _ => [title_and_body].

Definition paragraphs_heap : Heap :=
  (process_corpus ["Title" +:+ NL +:+ NL +:+ "Body"]
     (fresh "uk" paragraphs_nlp sample_world)).2.

(** A Ukrainian sentence, and the instance that has processed it. *)
Definition fox_jumps : Span :=
  [ Token.mk "Лисиця" 0 "nsubj" 1;
    Token.mk "стрибає" 1 "ROOT" 1;
    Token.mk "." 2 "punct" 1 ].

Definition fox_nlp : Language := fun _ => [fox_jumps].

Definition fox_heap : Heap :=
  (process_corpus ["Лисиця стрибає."] (fresh "uk" fox_nlp sample_world)).2.

(** The UTF-8 encoding of a code point and of a text (a sequence of code
    points), and the text of a string of ASCII characters. *)
Definition encode_code_point (c : N) : string :=
  if (c <? 128)%N then
    String (ascii_of_N c) EmptyString
  else if (c <? 2048)%N then
    String (ascii_of_N (192 + c / 64))
      (String (ascii_of_N (128 + c mod 64)) EmptyString)
  else if (c <? 65536)%N then
    String (ascii_of_N (224 + c / 4096))
      (String (ascii_of_N (128 + (c / 64) mod 64))
         (String (ascii_of_N (128 + c mod 64)) EmptyString))
  else
    String (ascii_of_N (240 + c / 262144))
      (String (ascii_of_N (128 + (c / 4096) mod 64))
         (String (ascii_of_N (128 + (c / 64) mod 64))
            (String (ascii_of_N (128 + c mod 64)) EmptyString))).

Definition utf8_encode (text : list N) : string :=
  foldr (fun c s => encode_code_point c +:+ s) EmptyString text.

(** Code points that can be encoded: everything up to U+10FFFF but the
    surrogates. *)
Definition scalar_value (c : N) : Prop :=
  (c < 55296 \/ (57344 <= c /\ c <= 1114111))%N.

Fixpoint ascii_text (s : string) : list N :=
  match s with
  | EmptyString => []
  | String a s' => N_of_ascii a :: ascii_text s'
  end.

(** The text of a row of [words.txt] and of [relations.txt], given the text
    of its last field. *)
Definition word_row_text (form : Word -> list N) (w : Word) : list N :=
  ascii_text (str_int (text_number w)) ++ [9%N]
  ++ ascii_text (str_int (sentence_number w)) ++ [9%N]
  ++ ascii_text (str_int (word_number w)) ++ [9%N]
  ++ form w ++ [10%N].

Definition relation_row_text (gloss : Rel.t -> list N) (r : Rel.t) : list N :=
  ascii_text (str_int (Rel.text_number r)) ++ [9%N]
  ++ ascii_text (str_int (Rel.sentence_number r)) ++ [9%N]
  ++ ascii_text (str_int (Rel.word_number1 r)) ++ [9%N]
  ++ ascii_text (str_int (Rel.word_number2 r)) ++ [9%N]
  ++ gloss r ++ [10%N].

Fixpoint is_ascii (s : string) : bool :=
  match s with
  | EmptyString => true
  | String a s' => (N_of_ascii a <? 128)%N && is_ascii s'
  end.

(** The texts of the word forms and of the glosses of [fox_heap]. *)
Definition fox_text (w : Word) : list N :=
  if word_number w =? 1 then [1051; 1080; 1089; 1080; 1094; 1103]%N
  else if word_number w =? 2 then [1089; 1090; 1088; 1080; 1073; 1072; 1108]%N
  else [46%N].

Definition fox_gloss_text (r : Rel.t) : list N :=
  if String.eqb (Rel.dep_label r) "nsubj" then ascii_text "nominal subject"
  else ascii_text "None".

(** ** Further vocabulary for the tables *)

(** The key under which [get_word_form] finds a word record, and the key of
    the dependent end of a relation record. *)
Definition word_key (w : Word) : Z * Z * Z :=
  (text_number w, sentence_number w, word_number w).

Definition dependent_key (r : Rel.t) : Z * Z * Z :=
  (Rel.text_number r, Rel.sentence_number r, Rel.word_number1 r).



(** Every token the annotator produces for a corpus, in processing order. *)
Definition all_tokens (annotate : Language) (corpus : list string)
    : list Token.t :=
  concat (concat (annotate <$> corpus)).

(** The annotator's contract on identifiers: within a sentence, no two
    tokens share one. *)
Definition distinct_identifiers (annotate : Language) (corpus : list string)
    : Prop :=
  forall text (sent : Span),
    text ∈ corpus -> sent ∈ annotate text -> NoDup (Token.i <$> sent).

(** Order of the dependent ends: by document, sentence, dependent position. *)
Definition dependent_before (r1 r2 : Rel.t) : Prop :=
  Rel.text_number r1 < Rel.text_number r2 \/
  (Rel.text_number r1 = Rel.text_number r2 /\
   (Rel.sentence_number r1 < Rel.sentence_number r2 \/
    (Rel.sentence_number r1 = Rel.sentence_number r2 /\
     Rel.word_number1 r1 < Rel.word_number1 r2))).

(** Sample worlds: one where the Ukrainian pipeline is installed, one where
    it is missing but can be downloaded. *)
Definition world_installed : World :=
  mkWorld {[ "uk_core_news_lg" := sample_nlp ]} ∅ ∅ ∅ ∅ {[ "" ]} [].

Definition world_online : World :=
  mkWorld ∅ {[ "uk_core_news_lg" := sample_nlp ]} ∅ ∅ ∅ {[ "" ]} [].

(** The line [load_language_model] prints before downloading. *)
Definition download_notice (language0 model_name : string) : string :=
  "Downloading spaCy model for " +:+ language0 +:+ ": " +:+ model_name.

(** [os.path.exists], as a predicate on the world. *)
Definition present (path : string) (w : World) : Prop :=
  path ∈ dirs w \/ path ∈ dom (files w).

#[export] Instance present_dec path w : Decision (present path w).
Proof. unfold present. apply _. Defined.

(** The world after the directory step of [generate_files]. *)
Definition with_output_dir (output_dir : string) (w : World) : World :=
  if bool_decide (present output_dir w) then w
  else with_dirs ({[output_dir]} ∪ dirs w) w.

(** The sample instance after one call, in a world where
    [out/relations.txt] cannot be opened for writing. *)
Definition heap_refusing_relations : Heap :=
  mkHeap (self after_first_call)
         (mkWorld ∅ ∅ ∅ ∅ ∅ {[ "out/relations.txt" ]} []).

(** ** The presentation layer and the tests

    [pretty_print] and the methods of [test_word_linkage_zone.py] can raise
    two exceptions the builder's own methods never raise: [TypeError] (from
    [str + None]) and [AssertionError] (from [assertTrue]).  They run in a
    second monad whose exceptions extend [exn]; the builder's methods are
    lifted into it unchanged. *)

Inductive exn_ext : Type :=
  | Builtin (e : exn)
  | TypeError (msg : string)
  | AssertionError (msg : string).

Inductive outcome_ext (A : Type) : Type :=
  | Returns (a : A)
  | Raises (e : exn_ext).
Arguments Returns {A} a.
Arguments Raises {A} e.

Definition MX (S A : Type) : Type := S -> outcome_ext A * S.

Definition retX {S A : Type} (a : A) : MX S A := fun s => (Returns a, s).

Definition bindX {S A B : Type} (m : MX S A) (k : A -> MX S B) : MX S B :=
  fun s =>
    match m s with
    | (Returns a, s') => k a s'
    | (Raises e, s') => (Raises e, s')
    end.

Definition raiseX {S A : Type} (e : exn_ext) : MX S A :=
  fun s => (Raises e, s).

(** A method of the builder, called from the presentation layer. *)
Definition liftX {S A : Type} (m : M S A) : MX S A :=
  fun s =>
    match m s with
    | (Ok a, s') => (Returns a, s')
    | (Raise e, s') => (Raises (Builtin e), s')
    end.

Notation "x <~ m ;; k" := (bindX m (fun x => k))
  (at level 100, m at next level, right associativity,
   format "'[v' x  <~  m  ;;  '/' k ']'").
Notation "m ;;~ k" := (bindX m (fun _ => k))
  (at level 100, right associativity, format "'[v' m  ;;~  '/' k ']'").

Definition ESC : string := String (ascii_of_nat 27) EmptyString.
Definition DQUOTE : string := String (ascii_of_nat 34) EmptyString.

(** [colorama.Fore]. *)
Definition Fore_YELLOW : string := ESC +:+ "[33m".
Definition Fore_MAGENTA : string := ESC +:+ "[35m".
Definition Fore_CYAN : string := ESC +:+ "[36m".

(** [s + x] where [s] is a [str] and [x] a [str] or [None]. *)
Definition str_add {S : Type} (s : string) (x : option string) : MX S string :=
  match x with
  | Some t => retX (s +:+ t)
  | None =>
      raiseX (TypeError ("can only concatenate str (not " +:+ DQUOTE
                         +:+ "NoneType" +:+ DQUOTE +:+ ") to str"))
  end.

Definition headers : list string :=
  [ Fore_YELLOW +:+ "Слово 1";
    Fore_YELLOW +:+ "- Зв'язок (питання) ->";
    Fore_YELLOW +:+ "Слово 2" ].

(** The loop of [pretty_print]; [table] is the local it appends to. *)
Fixpoint pretty_rows (rels : list Rel.t) (table : list (list string))
    : MX Heap (list (list string)) :=
  match rels with
  | [] => retX table
  | rel :: rest =>
      word1 <~ liftX (get_word_form (Rel.text_number rel)
                        (Rel.sentence_number rel) (Rel.word_number2 rel)) ;;
      word2 <~ liftX (get_word_form (Rel.text_number rel)
                        (Rel.sentence_number rel) (Rel.word_number1 rel)) ;;
      gloss <~ liftX (in_world (explain (Rel.dep_label rel))) ;;
      let relation_str := str_optional gloss in
      colored_word1 <~ str_add Fore_CYAN word1 ;;
      colored_word2 <~ str_add Fore_CYAN word2 ;;
      let colored_relation := Fore_MAGENTA +:+ relation_str in
      pretty_rows rest
        (table ++ [[ colored_word1;
                     "- " +:+ colored_relation +:+ " ->";
                     colored_word2 ]])
  end.

(** [pretty_print]; [tabulate table headers] stands for
    [tabulate(table, headers=headers, tablefmt="plain")], a function of the
    [tabulate] package.  The trace records the argument of [print]. *)
Definition pretty_print (tabulate : list (list string) -> list string -> string)
    : MX Heap unit :=
  h <~ liftX get ;;
  table <~ pretty_rows (relation_data (self h)) [] ;;
  liftX (in_world (print (tabulate table headers))).

(** [self.assertTrue(b)]. *)
Definition assertTrue {S : Type} (b : bool) : MX S unit :=
  if b then retX tt else raiseX (AssertionError "False is not true").

(** The fixture of [TestWordLinkageZone]. *)
Definition ukrainian_corpus : list string :=
  [ "Швидка бура лисиця стрибає через лінивого пса.";
    "Яблуко на день тримає лікаря далеко." ].

Definition output_dir : string := "test_output".

Definition test_ukrainian_processing : MX Heap unit :=
  liftX (process_corpus ukrainian_corpus) ;;~
  liftX (generate_files output_dir) ;;~
  words_exist <~ liftX (in_world
                   (os_path_exists (os_path_join output_dir "words.txt"))) ;;
  assertTrue words_exist ;;~
  relations_exist <~ liftX (in_world
                       (os_path_exists
                          (os_path_join output_dir "relations.txt"))) ;;
  assertTrue relations_exist.

Definition test_specific_ukrainian_sentence
    (tabulate : list (list string) -> list string -> string)
    : MX Heap unit :=
  liftX (process_corpus
    [ "Можна стверджувати, що проблема синтаксичного аналізу вирішується зараз індуктивним шляхом в рамках певних підмов." ]) ;;~
  pretty_print tabulate.

(** The row [pretty_print] shows for a relation whose head has the form
    [head_form] and whose dependent has the form [dependent_form]. *)
Definition pretty_row (glossary : gmap string string) (r : Rel.t)
    (head_form dependent_form : string) : list string :=
  [ Fore_CYAN +:+ head_form;
    "- " +:+ Fore_MAGENTA +:+ str_optional (glossary !! Rel.dep_label r)
         +:+ " ->";
    Fore_CYAN +:+ dependent_form ].

(** Both ends of a relation record can be looked up in a Word Table. *)
Definition resolvable (ws : list Word) (r : Rel.t) : Prop :=
  is_Some (find_word_form ws (Rel.text_number r) (Rel.sentence_number r)
             (Rel.word_number2 r)) /\
  is_Some (find_word_form ws (Rel.text_number r) (Rel.sentence_number r)
             (Rel.word_number1 r)).

#[export] Instance resolvable_dec ws r : Decision (resolvable ws r).
Proof. unfold resolvable. apply _. Defined.

(** A plain stand-in for [tabulate], for the sample runs. *)
Definition sample_tabulate (table : list (list string))
    (header_row : list string) : string :=
  join_lines ((fun row => String.concat " " row +:+ NL)
                <$> (header_row :: table)).

(** The row of a relation record, with the forms [get_word_form] finds in
    the Word Table [ws]. *)
Definition table_row (ws : list Word) (glossary : gmap string string)
    (r : Rel.t) : list string :=
  pretty_row glossary r
    (default "" (find_word_form ws (Rel.text_number r)
                   (Rel.sentence_number r) (Rel.word_number2 r)))
    (default "" (find_word_form ws (Rel.text_number r)
                   (Rel.sentence_number r) (Rel.word_number1 r))).

(** An instance with a relation record but no word record. *)
Definition dangling_heap : Heap :=
  mkHeap (mkWLZ "uk" sample_nlp [] [unglossed]) sample_world.

(** A fresh instance in a world that refuses the tests' output directory. *)
Definition heap_refusing_test_output : Heap :=
  fresh "uk" sample_nlp (mkWorld ∅ ∅ ∅ ∅ ∅ {[ "test_output" ]} []).

(** A sentence in which two tokens carry the identifier 7. *)
Definition twins : Span :=
  [ Token.mk "a" 7 "det" 8;
    Token.mk "b" 8 "ROOT" 8;
    Token.mk "c" 7 "obj" 8 ].

(** ** The monad and the loop combinator *)

Section monad_facts.
Context {S : Type}.

Lemma bind_Ok {A B} (m : M S A) (k : A -> M S B) s a s' :
  m s = (Ok a, s') -> bind m k s = k a s'.
Proof. intros E. unfold bind. now rewrite E. Qed.

End monad_facts.

(** ** [enumerate] *)

Section enumerate_facts.
Context {A : Type}.
Implicit Types (l : list A) (start : Z).

Lemma enumerate_from_lookup start l (n : nat) :
  enumerate_from start l !! n = (fun x => (start + Z.of_nat n, x)) <$> l !! n.
Proof.
  revert start n. induction l as [|x l IH]; intros start [|n]; simpl; try easy.
  - now rewrite Z.add_0_r.
  - rewrite IH. destruct (l !! n); simpl; [|easy].
    do 2 f_equal. lia.
Qed.

Lemma elem_of_enumerate_from start l k x :
  (k, x) ∈ enumerate_from start l <->
  exists n : nat, k = start + Z.of_nat n /\ l !! n = Some x.
Proof.
  rewrite list_elem_of_lookup. split.
  - intros [n Hn]. rewrite enumerate_from_lookup in Hn.
    destruct (l !! n) eqn:E; simpl in Hn; [|easy].
    inversion Hn; subst. eauto.
  - intros (n & -> & Hn). exists n.
    rewrite enumerate_from_lookup, Hn. easy.
Qed.

Lemma snd_enumerate_from start l : (enumerate_from start l).*2 = l.
Proof. revert start. induction l; intros; simpl; f_equal; auto. Qed.
End enumerate_facts.

(** ** The first inner loop *)

Lemma number_words_fold text_index sent_index entries word_list m :
  foldl
    (fun '(word_list, word_index_map) '(word_index, token) =>
       let word_number := word_index + 1 in
       let word_form := Token.text token in
       (word_list ++ [mkWord (text_index + 1) (sent_index + 1)
                             word_number word_form],
        <[Token.i token := word_number]> word_index_map))
    (word_list, m) entries
  = (word_list ++ (word_of text_index sent_index <$> entries),
     index_map_from m entries).
Proof.
  revert word_list m.
  induction entries as [|[k tok] entries IH]; intros word_list m; simpl.
  - now rewrite app_nil_r.
  - rewrite IH. unfold index_map_from, word_of. simpl.
    now rewrite <- app_assoc.
Qed.

Lemma number_words_eq text_index sent_index sent :
  number_words text_index sent_index sent
  = (sentence_words text_index sent_index sent, index_map sent).
Proof. unfold number_words. now rewrite number_words_fold. Qed.

Section index_map_facts.
Implicit Types (m : gmap Z Z) (entries : list (Z * Token.t)).

Lemma index_map_from_cons m entry entries :
  index_map_from m (entry :: entries)
  = index_map_from (<[Token.i entry.2 := entry.1 + 1]> m) entries.
Proof. reflexivity. Qed.

Lemma index_map_from_dom m entries k :
  k ∈ dom (index_map_from m entries) <->
  k ∈ dom m \/ exists entry, entry ∈ entries /\ Token.i entry.2 = k.
Proof.
  revert m. induction entries as [|e entries IH]; intros m.
  - simpl. split; [auto|]. intros [?|(e & He & _)]; [easy|]. inversion He.
  - rewrite index_map_from_cons, IH, dom_insert, elem_of_union,
      elem_of_singleton.
    split.
    + intros [[->|?]|(e' & He' & <-)]; eauto.
      * right. exists e. split; [left|easy].
      * right. exists e'. split; [now right|easy].
    + intros [?|(e' & He' & <-)]; [auto|].
      apply elem_of_cons in He' as [->|He']; [auto|].
      right. eauto.
Qed.

(** Every value of the map is the word number of a token carrying the key. *)
Lemma index_map_from_lookup_inv m entries k v :
  index_map_from m entries !! k = Some v ->
  m !! k = Some v \/
  exists entry, entry ∈ entries /\ Token.i entry.2 = k /\ v = entry.1 + 1.
Proof.
  revert m. induction entries as [|e entries IH]; intros m; [now left|].
  rewrite index_map_from_cons. intros [H|(e' & He' & <- & ->)]%IH.
  - apply lookup_insert_Some in H as [[<- <-]|[_ H]]; [|now left].
    right. exists e. split; [left|easy].
  - right. exists e'. split; [now right|easy].
Qed.

(** When the keys are pairwise distinct, a token's key leads to its own
    word number. *)
Lemma index_map_from_lookup_NoDup m entries entry :
  NoDup ((fun e => Token.i e.2) <$> entries) ->
  entry ∈ entries ->
  index_map_from m entries !! Token.i entry.2 = Some (entry.1 + 1).
Proof.
  revert m. induction entries as [|e entries IH]; intros m Hnd Hin.
  - inversion Hin.
  - rewrite fmap_cons in Hnd. apply NoDup_cons in Hnd as [Hfresh Hnd].
    rewrite index_map_from_cons.
    apply elem_of_cons in Hin as [->|Hin]; [|now apply IH].
    destruct (index_map_from (<[Token.i e.2 := e.1 + 1]> m) entries
                !! Token.i e.2) as [v|] eqn:E.
    + apply index_map_from_lookup_inv in E as [E|(e' & He' & Hk & _)].
      * now rewrite lookup_insert_eq in E.
      * exfalso. apply Hfresh. rewrite <- Hk.
        apply (list_elem_of_fmap_2 (fun e => Token.i e.2)). exact He'.
    + exfalso. apply not_elem_of_dom in E. apply E.
      apply index_map_from_dom. left. rewrite dom_insert. set_solver.
Qed.
End index_map_facts.

Lemma index_map_dom sent k :
  k ∈ dom (index_map sent) <-> k ∈ Token.i <$> sent.
Proof.
  unfold index_map. rewrite index_map_from_dom, dom_empty, list_elem_of_fmap.
  split.
  - intros [H|([j tok] & Hin & <-)]; [set_solver|].
    apply elem_of_enumerate_from in Hin as (n & _ & Hn).
    exists tok. split; [easy|]. eapply list_elem_of_lookup_2; eauto.
  - intros (tok & -> & Hin). right.
    apply list_elem_of_lookup in Hin as [n Hn].
    exists (Z.of_nat n, tok). split; [|easy].
    apply elem_of_enumerate_from. exists n. split; [lia|easy].
Qed.

Lemma index_map_lookup_inv sent k v :
  index_map sent !! k = Some v ->
  exists (n : nat) tok,
    sent !! n = Some tok /\ Token.i tok = k /\ v = Z.of_nat n + 1.
Proof.
  unfold index_map. intros [H|([j tok] & Hin & Hk & ->)]%index_map_from_lookup_inv.
  - now rewrite lookup_empty in H.
  - apply elem_of_enumerate_from in Hin as (n & -> & Hn).
    exists n, tok. simpl in *. split; [easy|]. split; [easy|lia].
Qed.

Lemma index_map_lookup_NoDup sent (n : nat) tok :
  NoDup (Token.i <$> sent) ->
  sent !! n = Some tok ->
  index_map sent !! Token.i tok = Some (Z.of_nat n + 1).
Proof.
  intros Hnd Hn. unfold index_map.
  apply (index_map_from_lookup_NoDup ∅ (enumerate sent) (Z.of_nat n, tok)).
  - replace ((fun e : Z * Token.t => Token.i e.2) <$> enumerate sent)
      with (Token.i <$> (enumerate sent).*2).
    + unfold enumerate. now rewrite snd_enumerate_from.
    + now rewrite <- list_fmap_compose.
  - apply elem_of_enumerate_from. exists n. split; [lia|easy].
Qed.

(** ** Running the loops *)

Lemma appended_nil h : appended [] [] h = h.
Proof.
  destruct h as [[l a ws rs] w]. unfold appended. simpl.
  now rewrite !app_nil_r.
Qed.

Lemma appended_appended ws1 rs1 ws2 rs2 h :
  appended ws2 rs2 (appended ws1 rs1 h) = appended (ws1 ++ ws2) (rs1 ++ rs2) h.
Proof. unfold appended. simpl. now rewrite !app_assoc. Qed.

Lemma word_data_extend_run word_list h :
  word_data_extend word_list h = (Ok tt, appended word_list [] h).
Proof.
  unfold word_data_extend, modify, appended. now rewrite app_nil_r.
Qed.

Lemma relation_data_append_run rel h :
  relation_data_append rel h = (Ok tt, appended [] [rel] h).
Proof.
  unfold relation_data_append, modify, appended. now rewrite app_nil_r.
Qed.

(** A token whose own identifier is in the map never hits [KeyError]. *)
Lemma extract_relation_run text_index sent_index m token h :
  is_Some (m !! Token.i token) ->
  extract_relation text_index sent_index m token h
  = (Ok tt,
     appended [] (option_list (relation_of text_index sent_index m token)) h).
Proof.
  intros [v1 H1]. unfold extract_relation, relation_of.
  destruct (bool_decide (Token.head_i token ∈ dom m)) eqn:Hhead; simpl;
    [|now rewrite appended_nil].
  destruct (bool_decide (Token.dep_ token ≠ "ROOT")); simpl;
    [|now rewrite appended_nil].
  apply bool_decide_eq_true in Hhead. apply elem_of_dom in Hhead as [v2 H2].
  rewrite H1, H2. unfold getitem. rewrite H1.
  erewrite bind_Ok by reflexivity. rewrite H2.
  erewrite bind_Ok by reflexivity. apply relation_data_append_run.
Qed.

Lemma relations_loop_run text_index sent_index m (tokens : list Token.t) h :
  (forall token, token ∈ tokens -> is_Some (m !! Token.i token)) ->
  for_ tokens (extract_relation text_index sent_index m) h
  = (Ok tt,
     appended [] (omap (relation_of text_index sent_index m) tokens) h).
Proof.
  revert h. induction tokens as [|token tokens IH]; intros h Hall; simpl.
  - now rewrite appended_nil.
  - erewrite bind_Ok
      by (apply extract_relation_run, Hall; left).
    rewrite IH by (intros; apply Hall; now right).
    rewrite appended_appended. simpl.
    now destruct (relation_of text_index sent_index m token).
Qed.

Lemma process_sentence_run text_index sent_index sent h :
  process_sentence text_index (sent_index, sent) h
  = (Ok tt,
     appended (sentence_words text_index sent_index sent)
              (sentence_relations text_index sent_index sent) h).
Proof.
  unfold process_sentence. rewrite number_words_eq.
  erewrite bind_Ok by apply word_data_extend_run.
  rewrite relations_loop_run.
  - rewrite appended_appended. now rewrite app_nil_r.
  - intros token Hin. apply elem_of_dom, index_map_dom.
    now apply list_elem_of_fmap_2.
Qed.

(** A loop whose body only appends to the tables appends the concatenation
    of what its iterations append. *)
Lemma for_appended {A : Type} (l : list A) (body : A -> M Heap unit)
    (W : A -> list Word) (R : A -> list Rel.t) (annotate : Language) :
  (forall x h, nlp (self h) = annotate ->
               body x h = (Ok tt, appended (W x) (R x) h)) ->
  forall h, nlp (self h) = annotate ->
    for_ l body h
    = (Ok tt, appended (concat (W <$> l)) (concat (R <$> l)) h).
Proof.
  intros Hbody. induction l as [|x l IH]; intros h Hh; simpl.
  - now rewrite appended_nil.
  - erewrite bind_Ok by (now apply Hbody).
    rewrite IH by easy. now rewrite appended_appended.
Qed.

Lemma process_text_run text_index text h :
  process_text (text_index, text) h
  = (Ok tt,
     appended (doc_words text_index (nlp (self h) text))
              (doc_relations text_index (nlp (self h) text)) h).
Proof.
  unfold process_text, call_nlp.
  erewrite bind_Ok by reflexivity.
  apply (for_appended _ _
           (fun entry => sentence_words text_index entry.1 entry.2)
           (fun entry => sentence_relations text_index entry.1 entry.2)
           (nlp (self h))); [|easy].
  intros [sent_index sent] h' _. apply process_sentence_run.
Qed.

(** [process_corpus] always returns, and appends exactly the two
    comprehensions. *)
Lemma process_corpus_run corpus h :
  process_corpus corpus h
  = (Ok tt,
     appended (corpus_words (nlp (self h)) corpus)
              (corpus_relations (nlp (self h)) corpus) h).
Proof.
  unfold process_corpus.
  apply (for_appended _ _
           (fun entry => doc_words entry.1 (nlp (self h) entry.2))
           (fun entry => doc_relations entry.1 (nlp (self h) entry.2))
           (nlp (self h))); [|easy].
  intros [text_index text] h' <-. apply process_text_run.
Qed.

(** ** Selecting one iteration out of a comprehension *)

Lemma elem_of_concat {B : Type} (y : B) (ls : list (list B)) :
  y ∈ concat ls <-> exists l, y ∈ l /\ l ∈ ls.
Proof.
  induction ls as [|l0 ls IH]; simpl.
  - split; [intros H; inversion H|intros (l & _ & H); inversion H].
  - rewrite elem_of_app, IH. split.
    + intros [H|(l & Hy & Hl)]; [exists l0|exists l]; split; auto;
        [left|now right].
    + intros (l & Hy & [->|Hl]%elem_of_cons); [now left|right; eauto].
Qed.

Section select.
Context {A B : Type} (key : B -> Z) (f : Z * A -> list B).
Hypothesis key_f : forall entry y, y ∈ f entry -> key y = entry.1.

Lemma filter_keep_all (k : Z) (l : list B) :
  (forall y, y ∈ l -> key y = k) -> filter (fun y => key y = k) l = l.
Proof.
  induction l as [|y l IH]; intros Hall; [easy|].
  rewrite filter_cons_True by (apply Hall; left).
  f_equal. apply IH. intros; apply Hall; now right.
Qed.

Lemma filter_drop_all (k : Z) (l : list B) :
  (forall y, y ∈ l -> key y <> k) -> filter (fun y => key y = k) l = [].
Proof.
  induction l as [|y l IH]; intros Hall; [easy|].
  rewrite filter_cons_False by (apply Hall; left).
  apply IH. intros; apply Hall; now right.
Qed.

Lemma filter_later_iterations (k start : Z) (l : list A) :
  k < start ->
  filter (fun y => key y = k) (concat (f <$> enumerate_from start l)) = [].
Proof.
  revert start. induction l as [|x l IH]; intros start Hlt; simpl; [easy|].
  rewrite filter_app, IH by lia. rewrite app_nil_r.
  apply filter_drop_all. intros y Hy. apply key_f in Hy. simpl in Hy. lia.
Qed.

(** Filtering on the key of iteration [n] returns what iteration [n]
    produced. *)
Lemma filter_iteration (start : Z) (l : list A) (n : nat) (x : A) :
  l !! n = Some x ->
  filter (fun y => key y = start + Z.of_nat n)
         (concat (f <$> enumerate_from start l))
  = f (start + Z.of_nat n, x).
Proof.
  revert start n. induction l as [|x0 l IH]; intros start n Hn; [easy|].
  simpl. rewrite filter_app. destruct n as [|n]; simpl in Hn.
  - inversion Hn; subst. rewrite Z.add_0_r.
    rewrite filter_later_iterations by lia. rewrite app_nil_r.
    apply filter_keep_all. intros y Hy. now apply key_f in Hy.
  - rewrite filter_drop_all.
    + simpl. replace (start + Z.of_nat (S n)) with (start + 1 + Z.of_nat n) by lia.
      now apply IH.
    + intros y Hy. apply key_f in Hy. simpl in Hy. lia.
Qed.

Lemma elem_of_iterations (start : Z) (l : list A) (y : B) :
  y ∈ concat (f <$> enumerate_from start l) <->
  exists (n : nat) x, l !! n = Some x /\ y ∈ f (start + Z.of_nat n, x).
Proof.
  rewrite elem_of_concat. split.
  - intros (ys & Hy & Hys). apply list_elem_of_fmap in Hys as ([k x] & -> & Hin).
    apply elem_of_enumerate_from in Hin as (n & -> & Hn). eauto.
  - intros (n & x & Hn & Hy). exists (f (start + Z.of_nat n, x)).
    split; [easy|]. apply list_elem_of_fmap_2.
    apply elem_of_enumerate_from. eauto.
Qed.
End select.

(** ** Which records the comprehensions contain *)

Lemma elem_of_sentence_words text_index sent_index sent w :
  w ∈ sentence_words text_index sent_index sent <->
  exists (n : nat) tok,
    sent !! n = Some tok /\
    w = mkWord (text_index + 1) (sent_index + 1) (Z.of_nat n + 1)
               (Token.text tok).
Proof.
  unfold sentence_words. rewrite list_elem_of_fmap. split.
  - intros ([k tok] & -> & Hin).
    apply elem_of_enumerate_from in Hin as (n & -> & Hn).
    exists n, tok. split; [easy|]. unfold word_of. simpl. f_equal.
  - intros (n & tok & Hn & ->). exists (Z.of_nat n, tok). split.
    + reflexivity.
    + apply elem_of_enumerate_from. exists n. split; [lia|easy].
Qed.

Lemma sentence_words_text_number text_index sent_index sent w :
  w ∈ sentence_words text_index sent_index sent ->
  text_number w = text_index + 1 /\ sentence_number w = sent_index + 1.
Proof. intros (n & tok & _ & ->)%elem_of_sentence_words. easy. Qed.

Lemma elem_of_doc_words text_index doc w :
  w ∈ doc_words text_index doc <->
  exists (s : nat) sent,
    doc !! s = Some sent /\ w ∈ sentence_words text_index (Z.of_nat s) sent.
Proof.
  unfold doc_words, enumerate.
  rewrite (elem_of_iterations
             (fun entry => sentence_words text_index entry.1 entry.2)).
  simpl. easy.
Qed.

Lemma elem_of_corpus_words annotate corpus w :
  w ∈ corpus_words annotate corpus <->
  exists (d : nat) text,
    corpus !! d = Some text /\ w ∈ doc_words (Z.of_nat d) (annotate text).
Proof.
  unfold corpus_words, enumerate.
  rewrite (elem_of_iterations
             (fun entry => doc_words entry.1 (annotate entry.2))).
  simpl. easy.
Qed.

Lemma doc_words_text_number text_index doc w :
  w ∈ doc_words text_index doc -> text_number w = text_index + 1.
Proof.
  intros (s & sent & _ & Hw)%elem_of_doc_words.
  now apply sentence_words_text_number in Hw.
Qed.

(** The records of sentence [s] of document [d], out of a whole run. *)
Lemma filter_corpus_words annotate corpus (d s : nat) text sent :
  corpus !! d = Some text ->
  annotate text !! s = Some sent ->
  filter (in_sentence (Z.of_nat d + 1) (Z.of_nat s + 1))
         (corpus_words annotate corpus)
  = sentence_words (Z.of_nat d) (Z.of_nat s) sent.
Proof.
  intros Hd Hs.
  rewrite (list_filter_iff _
             (fun w => (sentence_number w - 1 = 0 + Z.of_nat s) /\
                       (text_number w - 1 = 0 + Z.of_nat d)))
    by (unfold in_sentence; intros; lia).
  rewrite <- list_filter_filter.
  unfold corpus_words, enumerate.
  rewrite (filter_iteration (fun w => text_number w - 1)
             (fun entry => doc_words entry.1 (annotate entry.2))) with (x := text);
    [|intros e y Hy; apply doc_words_text_number in Hy; lia|easy].
  simpl. unfold doc_words, enumerate.
  rewrite (filter_iteration (fun w => sentence_number w - 1)
             (fun entry => sentence_words (Z.of_nat d) entry.1 entry.2))
    with (x := sent);
    [easy| |easy].
  intros e y Hy. apply sentence_words_text_number in Hy. lia.
Qed.

Lemma sentence_words_numbers text_index sent_index sent :
  word_number <$> sentence_words text_index sent_index sent
  = seqZ 1 (Z.of_nat (length sent)).
Proof.
  unfold sentence_words, enumerate. rewrite <- list_fmap_compose.
  assert (G : forall start (l : list Token.t),
             (word_number ∘ word_of text_index sent_index)
               <$> enumerate_from start l
             = seqZ (start + 1) (Z.of_nat (length l))).
  { intros start l. revert start. induction l as [|x l IH]; intros start; [easy|].
    simpl. rewrite IH, (seqZ_cons (start + 1)) by lia.
    do 2 f_equal; lia. }
  apply G.
Qed.

Lemma sentence_words_forms text_index sent_index sent :
  word_form <$> sentence_words text_index sent_index sent
  = Token.text <$> sent.
Proof.
  unfold sentence_words, enumerate. rewrite <- list_fmap_compose.
  generalize 0. induction sent as [|x l IH]; intros start; [easy|].
  simpl. now rewrite IH.
Qed.

(** ** Numbering *)

(** C1, as stated, fails for an instance that has processed two corpora:
    document numbers start again at 1 in every call, so the pair (1, 1)
    collects the words of the first sentence of both calls, and its word
    numbers are 1, 2, 3, 4, 1, 2, 3. *)
Lemma C1_numbering_counterexample : ~ numbering_contiguous after_second_call.
Proof.
  intros Hcontiguous. destruct (Hcontiguous 1 1) as [N HN].
  assert (Hnumbers :
    word_number <$> filter (in_sentence 1 1) (word_data (self after_second_call))
    = [1; 2; 3; 4; 1; 2; 3]) by (vm_compute; reflexivity).
  rewrite Hnumbers in HN.
  assert (Hdup : ~ NoDup [1; 2; 3; 4; 1; 2; 3]) by compute_done.
  apply Hdup. rewrite HN. apply NoDup_seqZ.
Qed.

(** C1, amended (numbering contiguity).  After one [process_corpus] call on
    a fresh instance,
    every record of the Word Table belongs to some sentence [s] of some
    document [d] of the corpus, and the records the table holds for that
    (document, sentence) pair carry the word numbers 1, 2, ..., N in this
    order, N being the number of tokens of the sentence; the k-th of them
    has the form of the k-th token, whatever the tokens' own identifiers
    are. *)
Theorem C1_numbering_contiguity
    (language0 : string) (annotate : Language) (world0 : World)
    (corpus : list string) (w : Word) :
  let run := process_corpus corpus (fresh language0 annotate world0) in
  w ∈ word_data (self run.2) ->
  run.1 = Ok tt /\
  exists (d s : nat) (text : string) (sent : Span),
    corpus !! d = Some text /\
    annotate text !! s = Some sent /\
    text_number w = Z.of_nat d + 1 /\
    sentence_number w = Z.of_nat s + 1 /\
    word_number
      <$> filter (in_sentence (text_number w) (sentence_number w))
                 (word_data (self run.2))
    = seqZ 1 (Z.of_nat (length sent)) /\
    word_form
      <$> filter (in_sentence (text_number w) (sentence_number w))
                 (word_data (self run.2))
    = Token.text <$> sent.
Proof.
  intros run. subst run. rewrite process_corpus_run. simpl.
  intros Hw. split; [easy|].
  apply elem_of_corpus_words in Hw as (d & text & Hd & Hw).
  apply elem_of_doc_words in Hw as (s & sent & Hs & Hw).
  exists d, s, text, sent.
  destruct (sentence_words_text_number _ _ _ _ Hw) as [-> ->].
  rewrite (filter_corpus_words annotate corpus d s text sent Hd Hs).
  rewrite sentence_words_numbers, sentence_words_forms. easy.
Qed.

Lemma C1_numbering_contiguity_witness :
  let run := process_corpus ["The cat sleeps."; "Rain fell. Birds sang loudly"]
               (fresh "uk" sample_nlp sample_world) in
  let w := mkWord 2 2 3 "loudly" in
  w ∈ word_data (self run.2) /\
  run.1 = Ok tt /\
  exists (d s : nat) (text : string) (sent : Span),
    ["The cat sleeps."; "Rain fell. Birds sang loudly"] !! d = Some text /\
    sample_nlp text !! s = Some sent /\
    text_number w = Z.of_nat d + 1 /\
    sentence_number w = Z.of_nat s + 1 /\
    word_number
      <$> filter (in_sentence (text_number w) (sentence_number w))
                 (word_data (self run.2))
    = seqZ 1 (Z.of_nat (length sent)) /\
    word_form
      <$> filter (in_sentence (text_number w) (sentence_number w))
                 (word_data (self run.2))
    = Token.text <$> sent.
Proof.
  assert (Hin : mkWord 2 2 3 "loudly"
                ∈ word_data (self (process_corpus
                     ["The cat sleeps."; "Rain fell. Birds sang loudly"]
                     (fresh "uk" sample_nlp sample_world)).2)).
  { apply list_elem_of_lookup. exists 9%nat. vm_compute. reflexivity. }
  split; [exact Hin|].
  exact (C1_numbering_contiguity "uk" sample_nlp sample_world
           ["The cat sleeps."; "Rain fell. Birds sang loudly"]
           (mkWord 2 2 3 "loudly") Hin).
Defined.

(** ** Relation extraction *)

Lemma relation_of_root text_index sent_index m token :
  is_root token -> relation_of text_index sent_index m token = None.
Proof.
  intros Hroot. unfold relation_of.
  rewrite (bool_decide_eq_false_2 (Token.dep_ token ≠ "ROOT")) by auto.
  now rewrite andb_false_r.
Qed.

Lemma relation_of_stray text_index sent_index sent token :
  Token.head_i token ∉ Token.i <$> sent ->
  relation_of text_index sent_index (index_map sent) token = None.
Proof.
  intros Hstray. unfold relation_of.
  rewrite bool_decide_eq_false_2; [easy|].
  now rewrite index_map_dom.
Qed.

(** Whatever the identifiers are, a relation record addresses two positions
    of the sentence it was extracted from. *)
Lemma relation_of_Some text_index sent_index sent token r :
  relation_of text_index sent_index (index_map sent) token = Some r ->
  ~ is_root token /\
  exists (n q : nat) dependent hd,
    sent !! n = Some dependent /\ Token.i dependent = Token.i token /\
    sent !! q = Some hd /\ Token.i hd = Token.head_i token /\
    r = Rel.mk (text_index + 1) (sent_index + 1)
               (Z.of_nat n + 1) (Z.of_nat q + 1)
               (Token.dep_ token) (Token.dep_ token).
Proof.
  unfold relation_of.
  destruct (bool_decide (Token.head_i token ∈ dom (index_map sent))); [|easy].
  destruct (bool_decide (Token.dep_ token ≠ "ROOT")) eqn:Hdep; [|easy].
  apply bool_decide_eq_true in Hdep. simpl.
  destruct (index_map sent !! Token.i token) as [v1|] eqn:E1; [|easy].
  destruct (index_map sent !! Token.head_i token) as [v2|] eqn:E2; [|easy].
  intros [= <-]. split; [easy|].
  apply index_map_lookup_inv in E1 as (n & dependent & Hn & Hi & ->).
  apply index_map_lookup_inv in E2 as (q & hd & Hq & Hh & ->).
  exists n, q, dependent, hd. easy.
Qed.

(** With pairwise distinct identifiers, the dependent position is the
    token's own. *)
Lemma relation_of_nonroot text_index sent_index sent (n q : nat) token hd :
  NoDup (Token.i <$> sent) ->
  sent !! n = Some token ->
  sent !! q = Some hd ->
  Token.i hd = Token.head_i token ->
  ~ is_root token ->
  relation_of text_index sent_index (index_map sent) token
  = Some (Rel.mk (text_index + 1) (sent_index + 1)
                 (Z.of_nat n + 1) (Z.of_nat q + 1)
                 (Token.dep_ token) (Token.dep_ token)).
Proof.
  intros Hnd Hn Hq Hh Hroot. unfold relation_of.
  rewrite (index_map_lookup_NoDup sent n token Hnd Hn).
  rewrite <- Hh, (index_map_lookup_NoDup sent q hd Hnd Hq).
  rewrite (bool_decide_eq_true_2 (Token.i hd ∈ dom (index_map sent))).
  - now rewrite (bool_decide_eq_true_2 (Token.dep_ token ≠ "ROOT")).
  - apply index_map_dom. apply (list_elem_of_fmap_2 Token.i).
    eapply list_elem_of_lookup_2; eauto.
Qed.

Lemma elem_of_sentence_relations text_index sent_index sent r :
  NoDup (Token.i <$> sent) ->
  r ∈ sentence_relations text_index sent_index sent <->
  exists (n q : nat) token hd,
    sent !! n = Some token /\ sent !! q = Some hd /\
    Token.i hd = Token.head_i token /\ ~ is_root token /\
    r = Rel.mk (text_index + 1) (sent_index + 1)
               (Z.of_nat n + 1) (Z.of_nat q + 1)
               (Token.dep_ token) (Token.dep_ token).
Proof.
  intros Hnd. unfold sentence_relations. rewrite list_elem_of_omap. split.
  - intros (token & Hin & Hr).
    apply list_elem_of_lookup in Hin as [n Hn].
    destruct (relation_of_Some _ _ _ _ _ Hr)
      as (Hroot & _ & q & _ & hd & _ & _ & Hq & Hh & _).
    rewrite (relation_of_nonroot _ _ sent n q token hd) in Hr by easy.
    inversion Hr; subst. exists n, q, token, hd. easy.
  - intros (n & q & token & hd & Hn & Hq & Hh & Hroot & ->).
    exists token. split; [eapply list_elem_of_lookup_2; eauto|].
    now apply (relation_of_nonroot _ _ sent n q token hd).
Qed.

Lemma length_omap_filter {A B : Type} (f : A -> option B) (P : A -> Prop)
    `{!forall x, Decision (P x)} (l : list A) :
  (forall x, x ∈ l -> is_Some (f x) <-> P x) ->
  length (omap f l) = length (filter P l).
Proof.
  induction l as [|x l IH]; intros Hf; [easy|].
  assert (Hx := Hf x ltac:(left)).
  assert (Hl : length (omap f l) = length (filter P l))
    by (apply IH; intros; apply Hf; now right).
  simpl. destruct (f x) as [y|] eqn:E.
  - rewrite filter_cons_True by (apply Hx; eauto). simpl. now f_equal.
  - rewrite filter_cons_False; [easy|].
    intros HP. apply Hx in HP as [? ?]. easy.
Qed.

Lemma length_filter_complement {A : Type} (P : A -> Prop)
    `{!forall x, Decision (P x)} (l : list A) :
  (length (filter P l) + length (filter (fun x => ~ P x) l))%nat = length l.
Proof.
  induction l as [|x l IH]; [easy|].
  destruct (decide (P x)).
  - rewrite filter_cons_True, (filter_cons_False (fun x => ~ P x)) by auto.
    simpl. lia.
  - rewrite filter_cons_False, (filter_cons_True (fun x => ~ P x)) by auto.
    simpl. lia.
Qed.

(** C2 (relation coverage).  For a sentence of N tokens with pairwise
    distinct identifiers, exactly one token labelled ROOT, and every other
    token's head inside the sentence, processing the sentence returns
    normally and appends exactly N-1 relation records: for each non-root
    token at position n the record (dependent = n, head = the position of
    its head, label = its relation label), and none whose dependent is the
    root token. *)
Theorem C2_relation_coverage
    (text_index sent_index : Z) (sent : Span) (h : Heap) :
  NoDup (Token.i <$> sent) ->
  length (filter is_root sent) = 1%nat ->
  (forall token, token ∈ sent -> ~ is_root token ->
                 Token.head_i token ∈ Token.i <$> sent) ->
  exists recs : list Rel.t,
    (process_sentence text_index (sent_index, sent) h).1 = Ok tt /\
    relation_data (self (process_sentence text_index (sent_index, sent) h).2)
    = relation_data (self h) ++ recs /\
    length recs = (length sent - 1)%nat /\
    (forall (n : nat) token,
        sent !! n = Some token -> ~ is_root token ->
        exists (q : nat) hd,
          sent !! q = Some hd /\ Token.i hd = Token.head_i token /\
          Rel.mk (text_index + 1) (sent_index + 1)
                 (Z.of_nat n + 1) (Z.of_nat q + 1)
                 (Token.dep_ token) (Token.dep_ token) ∈ recs) /\
    (forall (n : nat) token,
        sent !! n = Some token -> is_root token ->
        forall r, r ∈ recs -> Rel.word_number1 r <> Z.of_nat n + 1).
Proof.
  intros Hnd Hone Hheads.
  exists (sentence_relations text_index sent_index sent).
  rewrite process_sentence_run. simpl. split; [easy|]. split; [easy|].
  split; [|split].
  - unfold sentence_relations.
    rewrite (length_omap_filter _ (fun token => ~ is_root token)).
    + pose proof (length_filter_complement is_root sent). lia.
    + intros token Hin. split.
      * intros [r Hr]. now apply relation_of_Some in Hr.
      * intros Hroot.
        pose proof (Hheads token Hin Hroot) as Hhead.
        apply list_elem_of_fmap in Hhead as (hd & Hh & Hhd).
        apply list_elem_of_lookup in Hin as [n Hn].
        apply list_elem_of_lookup in Hhd as [q Hq].
        erewrite relation_of_nonroot; eauto.
  - intros n token Hn Hroot.
    assert (Hin : token ∈ sent) by (eapply list_elem_of_lookup_2; eauto).
    pose proof (Hheads token Hin Hroot) as Hhead.
    apply list_elem_of_fmap in Hhead as (hd & Hh & Hhd).
    apply list_elem_of_lookup in Hhd as [q Hq].
    exists q, hd. split; [easy|]. split; [easy|].
    apply elem_of_sentence_relations; [easy|].
    exists n, q, token, hd. easy.
  - intros n token Hn Hroot r Hr Heq.
    apply elem_of_sentence_relations in Hr
      as (n' & q & token' & hd & Hn' & _ & _ & Hroot' & ->); [|easy].
    simpl in Heq. assert (E : n' = n) by lia.
    rewrite E, Hn in Hn'. inversion Hn'; subst. easy.
Qed.

Lemma C2_relation_coverage_witness :
  NoDup (Token.i <$> the_cat_sleeps) /\
  length (filter is_root the_cat_sleeps) = 1%nat /\
  (forall token, token ∈ the_cat_sleeps -> ~ is_root token ->
                 Token.head_i token ∈ Token.i <$> the_cat_sleeps) /\
  exists recs : list Rel.t,
    (process_sentence 0 (0, the_cat_sleeps) sample_heap).1 = Ok tt /\
    relation_data (self (process_sentence 0 (0, the_cat_sleeps) sample_heap).2)
    = relation_data (self sample_heap) ++ recs /\
    length recs = (length the_cat_sleeps - 1)%nat /\
    (forall (n : nat) token,
        the_cat_sleeps !! n = Some token -> ~ is_root token ->
        exists (q : nat) hd,
          the_cat_sleeps !! q = Some hd /\
          Token.i hd = Token.head_i token /\
          Rel.mk (0 + 1) (0 + 1) (Z.of_nat n + 1) (Z.of_nat q + 1)
                 (Token.dep_ token) (Token.dep_ token) ∈ recs) /\
    (forall (n : nat) token,
        the_cat_sleeps !! n = Some token -> is_root token ->
        forall r, r ∈ recs -> Rel.word_number1 r <> Z.of_nat n + 1).
Proof.
  assert (H1 : NoDup (Token.i <$> the_cat_sleeps))
    by compute_done.
  assert (H2 : length (filter is_root the_cat_sleeps) = 1%nat)
    by (vm_compute; reflexivity).
  assert (H3 : forall token, token ∈ the_cat_sleeps -> ~ is_root token ->
                 Token.head_i token ∈ Token.i <$> the_cat_sleeps)
    by (apply (proj1 (Forall_forall
                        (fun token => ~ is_root token ->
                           Token.head_i token ∈ Token.i <$> the_cat_sleeps)
                        the_cat_sleeps));
        compute_done).
  split; [exact H1|]. split; [exact H2|]. split; [exact H3|].
  exact (C2_relation_coverage 0 0 the_cat_sleeps sample_heap H1 H2 H3).
Defined.

(** C4 (head outside the sentence).  Let a sentence with pairwise distinct
    identifiers contain, at position n, a token whose head reference is the
    identifier of no token of the sentence.  Processing the sentence returns
    normally; it appends one word record per token, the stray token's
    included; it appends no relation record whose dependent is the stray
    token; and it still appends the record of every non-root token whose
    head is in the sentence. *)
Theorem C4_stray_head_dropped
    (text_index sent_index : Z) (sent : Span) (h : Heap)
    (n : nat) (stray : Token.t) :
  NoDup (Token.i <$> sent) ->
  sent !! n = Some stray ->
  Token.head_i stray ∉ Token.i <$> sent ->
  let run := process_sentence text_index (sent_index, sent) h in
  run.1 = Ok tt /\
  exists (ws : list Word) (rs : list Rel.t),
    word_data (self run.2) = word_data (self h) ++ ws /\
    relation_data (self run.2) = relation_data (self h) ++ rs /\
    word_number <$> ws = seqZ 1 (Z.of_nat (length sent)) /\
    word_form <$> ws = Token.text <$> sent /\
    mkWord (text_index + 1) (sent_index + 1) (Z.of_nat n + 1)
           (Token.text stray) ∈ ws /\
    (forall r, r ∈ rs -> Rel.word_number1 r <> Z.of_nat n + 1) /\
    (forall (k q : nat) token hd,
        sent !! k = Some token -> sent !! q = Some hd ->
        Token.i hd = Token.head_i token -> ~ is_root token ->
        Rel.mk (text_index + 1) (sent_index + 1)
               (Z.of_nat k + 1) (Z.of_nat q + 1)
               (Token.dep_ token) (Token.dep_ token) ∈ rs).
Proof.
  intros Hnd Hn Hstray run. subst run. rewrite process_sentence_run. simpl.
  split; [easy|].
  exists (sentence_words text_index sent_index sent),
         (sentence_relations text_index sent_index sent).
  split; [easy|]. split; [easy|].
  split; [apply sentence_words_numbers|].
  split; [apply sentence_words_forms|].
  split; [|split].
  - apply elem_of_sentence_words. eauto.
  - intros r Hr Heq.
    apply elem_of_sentence_relations in Hr
      as (k & q & token & hd & Hk & Hq & Hh & _ & ->); [|easy].
    simpl in Heq. assert (E : k = n) by lia.
    rewrite E, Hn in Hk. inversion Hk; subst token.
    apply Hstray. rewrite <- Hh. apply (list_elem_of_fmap_2 Token.i).
    eapply list_elem_of_lookup_2; eauto.
  - intros k q token hd Hk Hq Hh Hroot.
    apply elem_of_sentence_relations; [easy|].
    exists k, q, token, hd. easy.
Qed.

Lemma C4_stray_head_dropped_witness :
  let stray := Token.mk "loudly" 5 "advmod" 1 in
  NoDup (Token.i <$> birds_sang) /\
  birds_sang !! 2%nat = Some stray /\
  (Token.head_i stray ∉ Token.i <$> birds_sang) /\
  (let run := process_sentence 1 (1, birds_sang) sample_heap in
  run.1 = Ok tt /\
  exists (ws : list Word) (rs : list Rel.t),
    word_data (self run.2) = word_data (self sample_heap) ++ ws /\
    relation_data (self run.2) = relation_data (self sample_heap) ++ rs /\
    word_number <$> ws = seqZ 1 (Z.of_nat (length birds_sang)) /\
    word_form <$> ws = Token.text <$> birds_sang /\
    mkWord (1 + 1) (1 + 1) (Z.of_nat 2 + 1) (Token.text stray) ∈ ws /\
    (forall r, r ∈ rs -> Rel.word_number1 r <> Z.of_nat 2 + 1) /\
    (forall (k q : nat) token hd,
        birds_sang !! k = Some token -> birds_sang !! q = Some hd ->
        Token.i hd = Token.head_i token -> ~ is_root token ->
        Rel.mk (1 + 1) (1 + 1) (Z.of_nat k + 1) (Z.of_nat q + 1)
               (Token.dep_ token) (Token.dep_ token) ∈ rs)).
Proof.
  intros stray.
  assert (H1 : NoDup (Token.i <$> birds_sang)) by compute_done.
  assert (H2 : birds_sang !! 2%nat = Some stray) by reflexivity.
  assert (H3 : Token.head_i stray ∉ Token.i <$> birds_sang) by compute_done.
  split; [exact H1|]. split; [exact H2|]. split; [exact H3|].
  exact (C4_stray_head_dropped 1 1 birds_sang sample_heap 2 stray H1 H2 H3).
Defined.

(** ** Processing order *)

Section order.
Context {A B : Type} (R : B -> B -> Prop) (f : Z * A -> list B).

Lemma sorted_iterations (start : Z) (l : list A) :
  (forall e, StronglySorted R (f e)) ->
  (forall e1 e2 y1 y2,
      y1 ∈ f e1 -> y2 ∈ f e2 -> e1.1 < e2.1 -> R y1 y2) ->
  StronglySorted R (concat (f <$> enumerate_from start l)).
Proof.
  intros Hin Hacross. revert start.
  induction l as [|x l IH]; intros start; simpl; [constructor|].
  apply StronglySorted_app_2; [|apply Hin|apply IH].
  intros y1 y2 H1 H2.
  apply elem_of_iterations in H2 as (n & x2 & _ & H2).
  apply (Hacross _ _ _ _ H1 H2). simpl. lia.
Qed.
End order.

Lemma sentence_relations_address text_index sent_index sent r :
  r ∈ sentence_relations text_index sent_index sent ->
  Rel.text_number r = text_index + 1 /\
  Rel.sentence_number r = sent_index + 1 /\
  exists (n q : nat) dependent hd,
    sent !! n = Some dependent /\ sent !! q = Some hd /\
    Rel.word_number1 r = Z.of_nat n + 1 /\
    Rel.word_number2 r = Z.of_nat q + 1.
Proof.
  unfold sentence_relations. intros (token & _ & Hr)%list_elem_of_omap.
  apply relation_of_Some in Hr
    as (_ & n & q & dependent & hd & Hn & _ & Hq & _ & ->).
  simpl. split; [easy|]. split; [easy|]. exists n, q, dependent, hd. easy.
Qed.

Lemma elem_of_doc_relations text_index doc r :
  r ∈ doc_relations text_index doc <->
  exists (s : nat) sent,
    doc !! s = Some sent /\
    r ∈ sentence_relations text_index (Z.of_nat s) sent.
Proof.
  unfold doc_relations, enumerate.
  rewrite (elem_of_iterations
             (fun entry => sentence_relations text_index entry.1 entry.2)).
  simpl. easy.
Qed.

Lemma elem_of_corpus_relations annotate corpus r :
  r ∈ corpus_relations annotate corpus <->
  exists (d : nat) text,
    corpus !! d = Some text /\
    r ∈ doc_relations (Z.of_nat d) (annotate text).
Proof.
  unfold corpus_relations, enumerate.
  rewrite (elem_of_iterations
             (fun entry => doc_relations entry.1 (annotate entry.2))).
  simpl. easy.
Qed.

Lemma sentence_words_sorted text_index sent_index sent :
  StronglySorted word_before (sentence_words text_index sent_index sent).
Proof.
  unfold sentence_words, enumerate. generalize 0.
  induction sent as [|tok sent IH]; intros start; simpl; constructor.
  - apply IH.
  - apply Forall_forall. intros w ([k tok'] & -> & Hin)%list_elem_of_fmap.
    apply elem_of_enumerate_from in Hin as (n & -> & _).
    unfold word_before, word_of. simpl. right. split; [easy|]. right.
    split; [easy|]. lia.
Qed.

Lemma doc_words_sorted text_index doc :
  StronglySorted word_before (doc_words text_index doc).
Proof.
  apply sorted_iterations.
  - intros e. apply sentence_words_sorted.
  - intros e1 e2 y1 y2 H1 H2 Hlt.
    apply sentence_words_text_number in H1 as [T1 S1].
    apply sentence_words_text_number in H2 as [T2 S2].
    unfold word_before. right. split; [lia|]. left. lia.
Qed.

Lemma corpus_words_sorted annotate corpus :
  StronglySorted word_before (corpus_words annotate corpus).
Proof.
  apply sorted_iterations.
  - intros e. apply doc_words_sorted.
  - intros e1 e2 y1 y2 H1 H2 Hlt.
    apply doc_words_text_number in H1. apply doc_words_text_number in H2.
    unfold word_before. left. lia.
Qed.

Lemma doc_relations_text_number text_index doc r :
  r ∈ doc_relations text_index doc -> Rel.text_number r = text_index + 1.
Proof.
  intros (s & sent & _ & Hr)%elem_of_doc_relations.
  now apply sentence_relations_address in Hr.
Qed.

Lemma sentence_relations_sorted text_index sent_index sent :
  StronglySorted relation_not_after
    (sentence_relations text_index sent_index sent).
Proof.
  assert (G : forall l : list Rel.t,
             (forall r, r ∈ l ->
                Rel.text_number r = text_index + 1 /\
                Rel.sentence_number r = sent_index + 1) ->
             StronglySorted relation_not_after l).
  { induction l as [|r l IH]; intros Hall; constructor.
    - apply IH. intros; apply Hall; now right.
    - apply Forall_forall. intros r' Hr'.
      destruct (Hall r ltac:(left)) as [T S].
      destruct (Hall r' ltac:(now right)) as [T' S'].
      unfold relation_not_after. right. lia. }
  apply G. intros r Hr. apply sentence_relations_address in Hr. easy.
Qed.

Lemma doc_relations_sorted text_index doc :
  StronglySorted relation_not_after (doc_relations text_index doc).
Proof.
  apply sorted_iterations.
  - intros e. apply sentence_relations_sorted.
  - intros e1 e2 y1 y2 H1 H2 Hlt.
    apply sentence_relations_address in H1 as (T1 & S1 & _).
    apply sentence_relations_address in H2 as (T2 & S2 & _).
    unfold relation_not_after. right. lia.
Qed.

Lemma corpus_relations_sorted annotate corpus :
  StronglySorted relation_not_after (corpus_relations annotate corpus).
Proof.
  apply sorted_iterations.
  - intros e. apply doc_relations_sorted.
  - intros e1 e2 y1 y2 H1 H2 Hlt.
    apply doc_relations_text_number in H1.
    apply doc_relations_text_number in H2.
    unfold relation_not_after. left. lia.
Qed.

(** C9 (frame of [process_corpus]).  A call returns normally; the previous
    contents of both tables are a prefix of the new contents; what is
    appended is the comprehension over documents, then sentences, then
    tokens, so the new word records are strictly increasing in (document,
    sentence, position) and the new relation records are non-decreasing in
    (document, sentence); [language], [nlp] and the world outside the
    instance (file system included) are unchanged. *)
Theorem C9_process_corpus_appends (corpus : list string) (h : Heap) :
  let run := process_corpus corpus h in
  let ws := corpus_words (nlp (self h)) corpus in
  let rs := corpus_relations (nlp (self h)) corpus in
  run.1 = Ok tt /\
  word_data (self run.2) = word_data (self h) ++ ws /\
  relation_data (self run.2) = relation_data (self h) ++ rs /\
  ws = concat ((fun doc_entry =>
          concat ((fun sent_entry =>
             (fun tok_entry =>
                mkWord (doc_entry.1 + 1) (sent_entry.1 + 1) (tok_entry.1 + 1)
                       (Token.text tok_entry.2))
             <$> enumerate sent_entry.2)
          <$> enumerate (nlp (self h) doc_entry.2)))
        <$> enumerate corpus) /\
  rs = concat ((fun doc_entry =>
          concat ((fun sent_entry =>
             omap (relation_of doc_entry.1 sent_entry.1
                               (number_words doc_entry.1 sent_entry.1
                                             sent_entry.2).2)
                  sent_entry.2)
          <$> enumerate (nlp (self h) doc_entry.2)))
        <$> enumerate corpus) /\
  StronglySorted word_before ws /\
  StronglySorted relation_not_after rs /\
  language (self run.2) = language (self h) /\
  nlp (self run.2) = nlp (self h) /\
  world run.2 = world h.
Proof.
  intros run ws rs. subst run ws rs. rewrite process_corpus_run. simpl.
  split; [easy|]. split; [easy|]. split; [easy|].
  split; [reflexivity|]. split.
  - unfold corpus_relations, doc_relations, sentence_relations.
    f_equal. apply list_fmap_ext. intros _ [d text] _. simpl.
    f_equal. apply list_fmap_ext. intros _ [s sent] _. simpl.
    now rewrite number_words_eq.
  - split; [apply corpus_words_sorted|].
    split; [apply corpus_relations_sorted|]. easy.
Qed.

(** ** Several calls on one instance *)

Lemma calls_run (calls : list (list string)) h :
  for_ calls process_corpus h
  = (Ok tt,
     appended (concat (corpus_words (nlp (self h)) <$> calls))
              (concat (corpus_relations (nlp (self h)) <$> calls)) h).
Proof.
  apply (for_appended _ _ (corpus_words (nlp (self h)))
           (corpus_relations (nlp (self h))) (nlp (self h))); [|easy].
  intros corpus h' <-. apply process_corpus_run.
Qed.

(** Both ends of a relation record have a word record in the same call. *)
Lemma corpus_relations_address annotate corpus r :
  r ∈ corpus_relations annotate corpus ->
  exists (d s n q : nat) text sent dependent hd,
    corpus !! d = Some text /\ annotate text !! s = Some sent /\
    sent !! n = Some dependent /\ sent !! q = Some hd /\
    Rel.text_number r = Z.of_nat d + 1 /\
    Rel.sentence_number r = Z.of_nat s + 1 /\
    Rel.word_number1 r = Z.of_nat n + 1 /\
    Rel.word_number2 r = Z.of_nat q + 1 /\
    mkWord (Z.of_nat d + 1) (Z.of_nat s + 1) (Z.of_nat n + 1)
           (Token.text dependent) ∈ corpus_words annotate corpus /\
    mkWord (Z.of_nat d + 1) (Z.of_nat s + 1) (Z.of_nat q + 1)
           (Token.text hd) ∈ corpus_words annotate corpus.
Proof.
  intros (d & text & Hd & Hr)%elem_of_corpus_relations.
  apply elem_of_doc_relations in Hr as (s & sent & Hs & Hr).
  apply sentence_relations_address in Hr
    as (T & S & n & q & dependent & hd & Hn & Hq & W1 & W2).
  exists d, s, n, q, text, sent, dependent, hd.
  repeat (split; [easy|]).
  split; apply elem_of_corpus_words; exists d, text; (split; [easy|]);
    apply elem_of_doc_words; exists s, sent; (split; [easy|]);
    apply elem_of_sentence_words; eauto.
Qed.

(** The invariant shared by the address-validity and the lookup results. *)
Lemma relation_ends_in_word_data
    (language0 : string) (annotate : Language) (world0 : World)
    (calls : list (list string)) (r : Rel.t) :
  let h := (for_ calls process_corpus (fresh language0 annotate world0)).2 in
  r ∈ relation_data (self h) ->
  (exists w, w ∈ word_data (self h) /\
             text_number w = Rel.text_number r /\
             sentence_number w = Rel.sentence_number r /\
             word_number w = Rel.word_number1 r) /\
  (exists w, w ∈ word_data (self h) /\
             text_number w = Rel.text_number r /\
             sentence_number w = Rel.sentence_number r /\
             word_number w = Rel.word_number2 r).
Proof.
  intros h. subst h. rewrite calls_run. simpl.
  intros (rs & Hr & Hrs)%elem_of_concat.
  apply list_elem_of_fmap in Hrs as (corpus & -> & Hcorpus).
  apply corpus_relations_address in Hr
    as (d & s & n & q & text & sent & dependent & hd
        & Hd & Hs & Hn & Hq & T & S & W1 & W2 & In1 & In2).
  assert (Hsub : forall w, w ∈ corpus_words annotate corpus ->
                           w ∈ concat (corpus_words annotate <$> calls)).
  { intros w Hw. apply elem_of_concat. eexists. split; [exact Hw|].
    now apply list_elem_of_fmap_2. }
  split.
  - eexists. split; [apply Hsub, In1|]. simpl. lia.
  - eexists. split; [apply Hsub, In2|]. simpl. lia.
Qed.

(** C3 (address validity).  After any number of [process_corpus] calls on
    a fresh instance, every relation record comes from one sentence of one
    processed text: its document and sentence numbers are that sentence's,
    both its word numbers are positions 1..N of that sentence, and the Word
    Table holds, under the same document and sentence numbers, a record
    with its dependent word number and one with its head word number. *)
Theorem C3_address_validity
    (language0 : string) (annotate : Language) (world0 : World)
    (calls : list (list string)) (r : Rel.t) :
  let h := (for_ calls process_corpus (fresh language0 annotate world0)).2 in
  r ∈ relation_data (self h) ->
  (exists w, w ∈ word_data (self h) /\
             text_number w = Rel.text_number r /\
             sentence_number w = Rel.sentence_number r /\
             word_number w = Rel.word_number1 r) /\
  (exists w, w ∈ word_data (self h) /\
             text_number w = Rel.text_number r /\
             sentence_number w = Rel.sentence_number r /\
             word_number w = Rel.word_number2 r) /\
  (exists corpus (d s : nat) text sent,
      corpus ∈ calls /\ corpus !! d = Some text /\
      annotate text !! s = Some sent /\
      Rel.text_number r = Z.of_nat d + 1 /\
      Rel.sentence_number r = Z.of_nat s + 1 /\
      1 <= Rel.word_number1 r <= Z.of_nat (length sent) /\
      1 <= Rel.word_number2 r <= Z.of_nat (length sent)).
Proof.
  intros h Hr.
  destruct (relation_ends_in_word_data language0 annotate world0 calls r Hr)
    as [Hdependent Hhead].
  split; [exact Hdependent|]. split; [exact Hhead|].
  subst h. rewrite calls_run in Hr. simpl in Hr.
  apply elem_of_concat in Hr as (rs & Hr & Hrs).
  apply list_elem_of_fmap in Hrs as (corpus & -> & Hcorpus).
  apply corpus_relations_address in Hr
    as (d & s & n & q & text & sent & dependent & hd
        & Hd & Hs & Hn & Hq & T & S & W1 & W2 & _).
  exists corpus, d, s, text, sent.
  apply lookup_lt_Some in Hn. apply lookup_lt_Some in Hq.
  repeat (split; [easy|]). lia.
Qed.

Lemma C3_address_validity_witness :
  let calls := [["The cat sleeps."]; ["Rain fell. Birds sang loudly"]] in
  let r := Rel.mk 1 2 1 2 "nsubj" "nsubj" in
  let h := (for_ calls process_corpus (fresh "uk" sample_nlp sample_world)).2 in
  r ∈ relation_data (self h) /\
  (exists w, w ∈ word_data (self h) /\
             text_number w = Rel.text_number r /\
             sentence_number w = Rel.sentence_number r /\
             word_number w = Rel.word_number1 r) /\
  (exists w, w ∈ word_data (self h) /\
             text_number w = Rel.text_number r /\
             sentence_number w = Rel.sentence_number r /\
             word_number w = Rel.word_number2 r) /\
  (exists corpus (d s : nat) text sent,
      corpus ∈ calls /\ corpus !! d = Some text /\
      sample_nlp text !! s = Some sent /\
      Rel.text_number r = Z.of_nat d + 1 /\
      Rel.sentence_number r = Z.of_nat s + 1 /\
      1 <= Rel.word_number1 r <= Z.of_nat (length sent) /\
      1 <= Rel.word_number2 r <= Z.of_nat (length sent)).
Proof.
  intros calls r h.
  assert (Hin : r ∈ relation_data (self h)).
  { apply list_elem_of_lookup. exists 5%nat. vm_compute. reflexivity. }
  split; [exact Hin|].
  exact (C3_address_validity "uk" sample_nlp sample_world calls r Hin).
Defined.

(** ** Looking a word up *)

Lemma find_word_form_head ws d s n :
  find_word_form ws d s n = word_form <$> head (filter (matches d s n) ws).
Proof.
  induction ws as [|w ws IH]; [easy|]. simpl.
  destruct (decide (matches d s n w)) as [Hm|Hm].
  - rewrite filter_cons_True by easy. destruct Hm as (-> & -> & ->).
    now rewrite !bool_decide_eq_true_2.
  - rewrite filter_cons_False by easy. rewrite <- IH.
    destruct (bool_decide (text_number w = d)) eqn:E1; [|easy].
    destruct (bool_decide (sentence_number w = s)) eqn:E2; [|easy].
    destruct (bool_decide (word_number w = n)) eqn:E3; [|easy].
    exfalso. apply Hm.
    apply bool_decide_eq_true in E1, E2, E3. easy.
Qed.

Lemma find_word_form_None ws d s n :
  find_word_form ws d s n = None <->
  forall w, w ∈ ws -> ~ matches d s n w.
Proof.
  rewrite find_word_form_head. split.
  - intros H w Hin Hm.
    destruct (head (filter (matches d s n) ws)) eqn:E; [easy|].
    apply head_None in E.
    pose proof (filter_nil_not_elem_of _ _ w E Hm) as Hnot. now apply Hnot.
  - intros Hall.
    destruct (head (filter (matches d s n) ws)) as [w|] eqn:E; [|easy].
    apply head_Some_elem_of, list_elem_of_filter in E as [Hm Hin].
    now apply Hall in Hin.
Qed.

Lemma find_word_form_Some ws d s n w :
  w ∈ ws -> matches d s n w -> is_Some (find_word_form ws d s n).
Proof.
  intros Hin Hm.
  destruct (find_word_form ws d s n) eqn:E; [eauto|].
  rewrite find_word_form_None in E. now apply E in Hin.
Qed.

(** C10 ([get_word_form]).  The call never raises and leaves the state
    alone; it returns the form of the first Word Table record matching the
    three keys, and [None] when no record matches.  On an instance built by
    [process_corpus] calls, both word numbers of every relation record
    resolve to a word form. *)
Theorem C10_get_word_form
    (language0 : string) (annotate : Language) (world0 : World)
    (calls : list (list string)) (h0 : Heap) (d s n : Z) (r : Rel.t) :
  let h := (for_ calls process_corpus (fresh language0 annotate world0)).2 in
  get_word_form d s n h0
  = (Ok (word_form <$> head (filter (matches d s n) (word_data (self h0)))),
     h0) /\
  ((forall w, w ∈ word_data (self h0) -> ~ matches d s n w) ->
   get_word_form d s n h0 = (Ok None, h0)) /\
  (r ∈ relation_data (self h) ->
   exists form1 form2,
     get_word_form (Rel.text_number r) (Rel.sentence_number r)
                   (Rel.word_number1 r) h = (Ok (Some form1), h) /\
     get_word_form (Rel.text_number r) (Rel.sentence_number r)
                   (Rel.word_number2 r) h = (Ok (Some form2), h)).
Proof.
  intros h. unfold get_word_form. split; [|split].
  - now rewrite find_word_form_head.
  - intros Hnone. apply find_word_form_None in Hnone. now rewrite Hnone.
  - intros Hr.
    destruct (relation_ends_in_word_data language0 annotate world0 calls r Hr)
      as [(w1 & In1 & T1 & S1 & N1) (w2 & In2 & T2 & S2 & N2)].
    destruct (find_word_form_Some (word_data (self h)) (Rel.text_number r)
                (Rel.sentence_number r) (Rel.word_number1 r) w1 In1)
      as [form1 E1]; [easy|].
    destruct (find_word_form_Some (word_data (self h)) (Rel.text_number r)
                (Rel.sentence_number r) (Rel.word_number2 r) w2 In2)
      as [form2 E2]; [easy|].
    exists form1, form2. now rewrite E1, E2.
Qed.

Lemma C10_get_word_form_witness :
  let calls := [["The cat sleeps."]; ["Rain fell. Birds sang loudly"]] in
  let h := (for_ calls process_corpus (fresh "uk" sample_nlp sample_world)).2 in
  let r := Rel.mk 1 2 1 2 "nsubj" "nsubj" in
  (forall w, w ∈ word_data (self h) -> ~ matches 3 1 1 w) /\
  r ∈ relation_data (self h) /\
  get_word_form 3 1 1 h = (Ok None, h) /\
  exists form1 form2,
    get_word_form (Rel.text_number r) (Rel.sentence_number r)
                  (Rel.word_number1 r) h = (Ok (Some form1), h) /\
    get_word_form (Rel.text_number r) (Rel.sentence_number r)
                  (Rel.word_number2 r) h = (Ok (Some form2), h).
Proof.
  intros calls h r.
  assert (Hnone : forall w, w ∈ word_data (self h) -> ~ matches 3 1 1 w).
  { apply (proj1 (Forall_forall (fun w => ~ matches 3 1 1 w)
                                (word_data (self h)))).
    compute_done. }
  assert (Hin : r ∈ relation_data (self h)).
  { apply list_elem_of_lookup. exists 5%nat. vm_compute. reflexivity. }
  destruct (C10_get_word_form "uk" sample_nlp sample_world calls h 3 1 1 r)
    as (_ & H2 & H3).
  split; [exact Hnone|]. split; [exact Hin|].
  split; [exact (H2 Hnone)|exact (H3 Hin)].
Defined.

(** ** Document numbers across calls *)

(** C5, as stated, fails: a second [process_corpus] call on the same
    instance numbers its first text 1 again, which is not greater than the
    document number 1 already in the Word Table. *)
Lemma C5_document_numbering_counterexample :
  ~ document_numbering_global after_first_call
      ["Rain fell. Birds sang loudly"].
Proof.
  intros Hglobal.
  specialize (Hglobal
    (sentence_words 0 0 rain_fell ++ sentence_words 0 1 birds_sang)
    (mkWord 1 1 1 "The") (mkWord 1 1 1 "Rain")).
  assert (Hlt : text_number (mkWord 1 1 1 "The")
                < text_number (mkWord 1 1 1 "Rain")).
  { apply Hglobal.
    - vm_compute. reflexivity.
    - apply list_elem_of_lookup. exists 0%nat. vm_compute. reflexivity.
    - apply list_elem_of_lookup. exists 0%nat. vm_compute. reflexivity. }
  simpl in Hlt. lia.
Qed.

Lemma text_number_monotone (ws : list Word) :
  StronglySorted word_before ws ->
  StronglySorted Z.le (text_number <$> ws).
Proof.
  apply StronglySorted_fmap. intros w1 w2 Hb. unfold word_before in Hb. lia.
Qed.

(** C5, amended.  Within one [process_corpus] call the text at position k
    of the corpus (counting from 1) gets document number k, whatever the
    tables already hold; the sentence at position j of its document gets
    sentence number j, and the token at position i of its sentence gets
    word number i.  The call appends exactly these records, and their
    document numbers never decrease along the table. *)
Theorem C5_numbering_per_call (corpus : list string) (h : Heap) :
  exists ws : list Word,
    word_data (self (process_corpus corpus h).2) = word_data (self h) ++ ws /\
    (forall w,
        w ∈ ws <->
        exists (d s n : nat) text sent tok,
          corpus !! d = Some text /\
          nlp (self h) text !! s = Some sent /\
          sent !! n = Some tok /\
          w = mkWord (Z.of_nat d + 1) (Z.of_nat s + 1) (Z.of_nat n + 1)
                     (Token.text tok)) /\
    StronglySorted Z.le (text_number <$> ws).
Proof.
  exists (corpus_words (nlp (self h)) corpus).
  rewrite process_corpus_run. simpl. split; [easy|]. split.
  - intros w. rewrite elem_of_corpus_words. split.
    + intros (d & text & Hd & Hw).
      apply elem_of_doc_words in Hw as (s & sent & Hs & Hw).
      apply elem_of_sentence_words in Hw as (n & tok & Hn & ->).
      exists d, s, n, text, sent, tok. easy.
    + intros (d & s & n & text & sent & tok & Hd & Hs & Hn & ->).
      exists d, text. split; [easy|].
      apply elem_of_doc_words. exists s, sent. split; [easy|].
      apply elem_of_sentence_words. eauto.
  - apply text_number_monotone, corpus_words_sorted.
Qed.

(** ** Serialization *)

Lemma append_nil_r (s : string) : s +:+ "" = s.
Proof.
  induction s as [|c s IH]; [easy|].
  change (String c (s +:+ "") = String c s). now rewrite IH.
Qed.

Lemma append_assoc (s1 s2 s3 : string) :
  (s1 +:+ s2) +:+ s3 = s1 +:+ s2 +:+ s3.
Proof.
  induction s1 as [|c s1 IH]; [easy|].
  change (String c ((s1 +:+ s2) +:+ s3) = String c (s1 +:+ s2 +:+ s3)).
  now rewrite IH.
Qed.

Lemma join_lines_app (l1 l2 : list string) :
  join_lines (l1 ++ l2) = join_lines l1 +:+ join_lines l2.
Proof.
  induction l1 as [|x l1 IH]; simpl; [easy|].
  now rewrite IH, append_assoc.
Qed.

Lemma with_heap_files_id h : with_heap_files (files (world h)) h = h.
Proof. now destruct h as [o [? ? ? ? ? ? ?]]. Qed.

Lemma in_world_guarded path effect h :
  path ∉ refused (world h) ->
  in_world (guarded path effect) h = (Ok tt, mkHeap (self h) (effect (world h))).
Proof.
  intros Hfree. unfold in_world, guarded.
  now rewrite bool_decide_eq_false_2.
Qed.

Lemma write_word_run path w h :
  path ∉ refused (world h) ->
  write_word path w h
  = (Ok tt,
     with_heap_files
       (alter (fun c => c +:+ word_line w) path (files (world h))) h).
Proof.
  intros Hfree. unfold write_word, f_write.
  rewrite in_world_guarded by easy.
  unfold with_heap_files, word_line, row. simpl.
  now rewrite !append_assoc.
Qed.

Lemma write_relation_run path r h :
  path ∉ refused (world h) ->
  write_relation path r h
  = (Ok tt,
     with_heap_files
       (alter (fun c => c +:+ relation_line (GLOSSARY (world h)) r) path
              (files (world h))) h).
Proof.
  intros Hfree. unfold write_relation, f_write.
  erewrite bind_Ok
    by (unfold in_world, explain; simpl; reflexivity).
  rewrite in_world_guarded by easy.
  unfold with_heap_files, relation_line, row. simpl.
  now rewrite !append_assoc.
Qed.

Lemma alter_present (f : string -> string) (path : string)
    (m : gmap string string) (c : string) :
  m !! path = Some c -> alter f path m = <[path := f c]> m.
Proof.
  intros Hc. apply map_eq. intros p.
  destruct (decide (p = path)) as [->|Hne].
  - now rewrite lookup_alter_eq, lookup_insert_eq, Hc.
  - now rewrite lookup_alter_ne, lookup_insert_ne by easy.
Qed.

(** A loop of [f.write] calls on an open file that the system does not
    refuse appends the lines in order and touches nothing else. *)
Lemma write_loop_run {A : Type} (body : A -> M Heap unit)
    (line : World -> A -> string) (path : string) :
  (forall x h,
      path ∉ refused (world h) ->
      body x h
      = (Ok tt,
         with_heap_files
           (alter (fun c => c +:+ line (world h) x) path (files (world h)))
           h)) ->
  (forall f w x, line (with_files f w) x = line w x) ->
  forall (l : list A) h c,
    path ∉ refused (world h) ->
    files (world h) !! path = Some c ->
    for_ l body h
    = (Ok tt,
       with_heap_files
         (<[path := c +:+ join_lines (line (world h) <$> l)]>
            (files (world h)))
         h).
Proof.
  intros Hbody Hline l. induction l as [|x l IH]; intros h c Hfree Hc.
  - simpl. rewrite append_nil_r, insert_id by easy.
    now rewrite with_heap_files_id.
  - simpl for_. erewrite bind_Ok by (now apply Hbody).
    rewrite (alter_present _ _ _ _ Hc).
    erewrite IH by (simpl; first [exact Hfree|apply lookup_insert_eq]).
    unfold with_heap_files. simpl.
    rewrite insert_insert_eq, append_assoc.
    rewrite (list_fmap_ext (line (with_files _ (world h))) (line (world h)) l)
      by (intros; apply Hline).
    reflexivity.
Qed.

Lemma output_paths_differ (output_dir : string) :
  os_path_join output_dir "words.txt"
  <> os_path_join output_dir "relations.txt".
Proof.
  unfold os_path_join. simpl.
  destruct (bool_decide (output_dir = "") || endswith_slash output_dir);
    intros H; apply (inj (String.append _)) in H; discriminate.
Qed.

Lemma write_words_run path (ws : list Word) h c :
  path ∉ refused (world h) ->
  files (world h) !! path = Some c ->
  for_ ws (write_word path) h
  = (Ok tt,
     with_heap_files
       (<[path := c +:+ join_lines (word_line <$> ws)]> (files (world h))) h).
Proof.
  apply (write_loop_run (write_word path) (fun _ => word_line) path).
  - intros; now apply write_word_run.
  - easy.
Qed.

Lemma write_relations_run path (rs : list Rel.t) h c :
  path ∉ refused (world h) ->
  files (world h) !! path = Some c ->
  for_ rs (write_relation path) h
  = (Ok tt,
     with_heap_files
       (<[path := c +:+ join_lines (relation_line (GLOSSARY (world h)) <$> rs)]>
          (files (world h))) h).
Proof.
  apply (write_loop_run (write_relation path)
           (fun w => relation_line (GLOSSARY w)) path).
  - intros; now apply write_relation_run.
  - easy.
Qed.

(** When the system refuses none of the three paths, [generate_files]
    returns; it creates the output directory if the path does not exist
    yet, and (re)writes the two files. *)
Lemma generate_files_run output_dir h :
  output_dir ∉ refused (world h) ->
  os_path_join output_dir "words.txt" ∉ refused (world h) ->
  os_path_join output_dir "relations.txt" ∉ refused (world h) ->
  generate_files output_dir h
  = (Ok tt,
     mkHeap (self h)
       (mkWorld (installed (world h)) (index (world h)) (GLOSSARY (world h))
          (if bool_decide (output_dir ∈ dirs (world h)
                           \/ output_dir ∈ dom (files (world h)))
           then dirs (world h)
           else {[output_dir]} ∪ dirs (world h))
          (<[os_path_join output_dir "relations.txt" :=
               relations_header
               +:+ join_lines (relation_line (GLOSSARY (world h))
                                 <$> relation_data (self h))]>
             (<[os_path_join output_dir "words.txt" :=
                  words_header
                  +:+ join_lines (word_line <$> word_data (self h))]>
                (files (world h))))
          (refused (world h))
          (trace (world h)))).
Proof.
  destruct h as [o [inst idx G d f bad t]]. simpl. intros Hdir Hwords Hrels.
  unfold generate_files, os_makedirs, open_w, f_write.
  erewrite bind_Ok by reflexivity. simpl.
  destruct (bool_decide (output_dir ∈ d \/ output_dir ∈ dom f)); simpl.
  1: erewrite bind_Ok by reflexivity.
  2: erewrite bind_Ok by (now apply in_world_guarded).
  all: erewrite bind_Ok by (now apply in_world_guarded).
  all: erewrite bind_Ok by (now apply in_world_guarded).
  all: erewrite bind_Ok by reflexivity.
  all: erewrite bind_Ok
         by (apply write_words_run with (c := words_header); simpl;
             first [now rewrite lookup_alter_eq, lookup_insert_eq|easy]).
  all: erewrite bind_Ok by (now apply in_world_guarded).
  all: erewrite bind_Ok by (now apply in_world_guarded).
  all: erewrite bind_Ok by reflexivity.
  all: erewrite write_relations_run with (c := relations_header)
         by (simpl; first [now rewrite lookup_alter_eq, lookup_insert_eq|easy]).
  all: unfold with_heap_files, with_files, with_dirs; simpl.
  all: rewrite !(alter_present _ _ _ "") by apply lookup_insert_eq.
  all: now rewrite !insert_insert_eq.
Qed.

(** *** Decimal numerals, lines, fields and bytes *)

Ltac byte_range :=
  unfold three_byte_lead, four_byte_lead, between; simpl; lia.

Ltac utf8_literal :=
  repeat first
    [ apply utf8_end
    | apply utf8_one; [byte_range|]
    | apply utf8_two; [byte_range|byte_range|]
    | apply utf8_three; [byte_range|byte_range|]
    | apply utf8_four; [byte_range|byte_range|byte_range|] ].

Lemma str_int_decimal (n : Z) :
  Z.of_int <$> NilZero.int_of_string (str_int n) = Some n.
Proof.
  unfold str_int.
  destruct n as [|p|p]; [reflexivity| |].
  all: rewrite NilZero.isi.
  all: try (cbn [fmap option_fmap option_map]; now rewrite DecimalZ.of_to).
  all: simpl; intros [= E]; try now apply DecimalPos.Unsigned.to_uint_nonnil in E.
Qed.

Lemma count_char_app c (s1 s2 : string) :
  count_char c (s1 +:+ s2) = (count_char c s1 + count_char c s2)%nat.
Proof.
  induction s1 as [|a s1 IH]; [easy|].
  change (((if Ascii.eqb a c then 1 else 0) + count_char c (s1 +:+ s2))%nat
          = ((if Ascii.eqb a c then 1 else 0) + count_char c s1
             + count_char c s2)%nat).
  rewrite IH. lia.
Qed.

Lemma count_char_uint c d :
  (N_of_ascii c < 45)%N -> count_char c (NilEmpty.string_of_uint d) = 0%nat.
Proof.
  intros Hc. induction d as [|d IH|d IH|d IH|d IH|d IH|d IH|d IH|d IH|d IH|d IH];
    [easy|..].
  all: cbn [NilEmpty.string_of_uint count_char]; rewrite IH.
  all: match goal with
       | |- context [Ascii.eqb ?a ?b] =>
           destruct (Ascii.eqb_spec a b) as [<-|_]; [simpl in Hc; lia|easy]
       end.
Qed.

Lemma count_char_str_int c n :
  (N_of_ascii c < 45)%N -> count_char c (str_int n) = 0%nat.
Proof.
  intros Hc. unfold str_int, NilZero.string_of_int, NilZero.string_of_uint.
  assert (Hzero : count_char c "0" = 0%nat).
  { cbn [count_char].
    destruct (Ascii.eqb_spec "0"%char c) as [<-|_]; [simpl in Hc; lia|easy]. }
  assert (Hdigits : forall d,
    count_char c match d with
                 | Decimal.Nil => "0"
                 | _ => NilEmpty.string_of_uint d
                 end = 0%nat).
  { intros d. pose proof (count_char_uint c d Hc). now destruct d. }
  destruct (Z.to_int n) as [d|d]; [apply Hdigits|].
  cbn [count_char]. rewrite Hdigits.
  destruct (Ascii.eqb_spec "-"%char c) as [<-|_]; [simpl in Hc; lia|easy].
Qed.

Lemma count_char_join_lines {A : Type} c (line : A -> string) (l : list A) :
  count_char c (join_lines (line <$> l))
  = sum_list_with (fun x => count_char c (line x)) l.
Proof.
  induction l as [|x l IH]; [easy|].
  cbn [fmap list_fmap join_lines foldr sum_list_with].
  rewrite count_char_app. fold (join_lines (line <$> l)).
  now rewrite IH.
Qed.

Lemma sum_list_with_plus {A : Type} (k : nat) (f g : A -> nat) (l : list A) :
  (forall x, g x = (k + f x)%nat) ->
  sum_list_with g l = (k * length l + sum_list_with f l)%nat.
Proof.
  intros Hg. induction l as [|x l IH]; [simpl; lia|].
  cbn [sum_list_with length]. rewrite IH, Hg. lia.
Qed.

Lemma count_char_word_line c w :
  (N_of_ascii c < 45)%N ->
  count_char c (word_line w)
  = (3 * count_char c TAB + count_char c (word_form w) + count_char c NL)%nat.
Proof.
  intros Hc. unfold word_line, row. cbn [String.concat].
  rewrite !count_char_app, !count_char_str_int by easy. lia.
Qed.

Lemma count_char_relation_line c glossary r :
  (N_of_ascii c < 45)%N ->
  count_char c (relation_line glossary r)
  = (4 * count_char c TAB
     + count_char c (str_optional (glossary !! Rel.dep_label r))
     + count_char c NL)%nat.
Proof.
  intros Hc. unfold relation_line, row. cbn [String.concat].
  rewrite !count_char_app, !count_char_str_int by easy. lia.
Qed.

Lemma utf8_app (s1 s2 : string) : utf8 s1 -> utf8 s2 -> utf8 (s1 +:+ s2).
Proof.
  intros H1 H2. induction H1.
  - exact H2.
  - now apply utf8_one.
  - now apply utf8_two.
  - now apply utf8_three.
  - now apply utf8_four.
Qed.

Lemma utf8_uint d : utf8 (NilEmpty.string_of_uint d).
Proof.
  induction d; cbn [NilEmpty.string_of_uint];
    [apply utf8_end|apply utf8_one; [byte_range|easy]..].
Qed.

Lemma utf8_str_int n : utf8 (str_int n).
Proof.
  unfold str_int, NilZero.string_of_int, NilZero.string_of_uint.
  assert (Hdigits : forall d,
    utf8 match d with
         | Decimal.Nil => "0"
         | _ => NilEmpty.string_of_uint d
         end).
  { intros d. pose proof (utf8_uint d). destruct d; [utf8_literal|easy..]. }
  destruct (Z.to_int n) as [d|d]; [apply Hdigits|].
  apply utf8_one; [byte_range|apply Hdigits].
Qed.

Lemma utf8_join_lines {A : Type} (line : A -> string) (l : list A) :
  (forall x, x ∈ l -> utf8 (line x)) -> utf8 (join_lines (line <$> l)).
Proof.
  induction l as [|x l IH]; intros Hl; [apply utf8_end|].
  cbn [fmap list_fmap join_lines foldr]. apply utf8_app.
  - apply Hl, list_elem_of_here.
  - apply IH. intros y Hy. apply Hl. now apply list_elem_of_further.
Qed.

Lemma utf8_word_line w : utf8 (word_form w) -> utf8 (word_line w).
Proof.
  intros Hform. unfold word_line, row. cbn [String.concat].
  repeat first [apply utf8_app | apply utf8_str_int | exact Hform
               | utf8_literal ].
Qed.

Lemma utf8_relation_line glossary r :
  utf8 (str_optional (glossary !! Rel.dep_label r)) ->
  utf8 (relation_line glossary r).
Proof.
  intros Hgloss. unfold relation_line, row. cbn [String.concat].
  repeat first [apply utf8_app | apply utf8_str_int | exact Hgloss
               | utf8_literal ].
Qed.

Lemma count_char_file {A : Type} c (header : string) (line : A -> string)
    (field : A -> nat) (k : nat) (l : list A) :
  (forall x, count_char c (line x) = (k + field x)%nat) ->
  count_char c (header +:+ join_lines (line <$> l))
  = (count_char c header + k * length l + sum_list_with field l)%nat.
Proof.
  intros Hline. rewrite count_char_app, count_char_join_lines.
  rewrite (sum_list_with_plus k field) by exact Hline. lia.
Qed.

Lemma words_file_newlines (ws : list Word) :
  count_char LF (words_header +:+ join_lines (word_line <$> ws))
  = (S (length ws) + sum_list_with (fun w => count_char LF (word_form w)) ws)%nat.
Proof.
  rewrite (count_char_file LF words_header word_line
             (fun w => count_char LF (word_form w)) 1).
  - change (count_char LF words_header) with 1%nat. lia.
  - intros w. rewrite count_char_word_line by (simpl; lia).
    change (count_char LF TAB) with 0%nat.
    change (count_char LF NL) with 1%nat. lia.
Qed.

Lemma words_file_tabs (ws : list Word) :
  count_char HT (words_header +:+ join_lines (word_line <$> ws))
  = (3 * S (length ws)
     + sum_list_with (fun w => count_char HT (word_form w)) ws)%nat.
Proof.
  rewrite (count_char_file HT words_header word_line
             (fun w => count_char HT (word_form w)) 3).
  - change (count_char HT words_header) with 3%nat. lia.
  - intros w. rewrite count_char_word_line by (simpl; lia).
    change (count_char HT TAB) with 1%nat.
    change (count_char HT NL) with 0%nat. lia.
Qed.

Lemma relations_file_newlines glossary (rs : list Rel.t) :
  count_char LF (relations_header +:+ join_lines (relation_line glossary <$> rs))
  = (S (length rs)
     + sum_list_with
         (fun r => count_char LF (str_optional (glossary !! Rel.dep_label r)))
         rs)%nat.
Proof.
  rewrite (count_char_file LF relations_header (relation_line glossary)
             (fun r => count_char LF
                         (str_optional (glossary !! Rel.dep_label r))) 1).
  - change (count_char LF relations_header) with 1%nat. lia.
  - intros r. rewrite count_char_relation_line by (simpl; lia).
    change (count_char LF TAB) with 0%nat.
    change (count_char LF NL) with 1%nat. lia.
Qed.

Lemma relations_file_tabs glossary (rs : list Rel.t) :
  count_char HT (relations_header +:+ join_lines (relation_line glossary <$> rs))
  = (4 * S (length rs)
     + sum_list_with
         (fun r => count_char HT (str_optional (glossary !! Rel.dep_label r)))
         rs)%nat.
Proof.
  rewrite (count_char_file HT relations_header (relation_line glossary)
             (fun r => count_char HT
                         (str_optional (glossary !! Rel.dep_label r))) 4).
  - change (count_char HT relations_header) with 4%nat. lia.
  - intros r. rewrite count_char_relation_line by (simpl; lia).
    change (count_char HT TAB) with 1%nat.
    change (count_char HT NL) with 0%nat. lia.
Qed.

Lemma utf8_words_file (ws : list Word) :
  (forall w, w ∈ ws -> utf8 (word_form w)) ->
  utf8 (words_header +:+ join_lines (word_line <$> ws)).
Proof.
  intros Hforms. apply utf8_app.
  - unfold words_header, TAB, NL. utf8_literal.
  - apply utf8_join_lines. intros w Hw. now apply utf8_word_line, Hforms.
Qed.

Lemma utf8_relations_file glossary (rs : list Rel.t) :
  (forall r, r ∈ rs -> utf8 (str_optional (glossary !! Rel.dep_label r))) ->
  utf8 (relations_header +:+ join_lines (relation_line glossary <$> rs)).
Proof.
  intros Hglosses. apply utf8_app.
  - unfold relations_header, TAB, NL. utf8_literal.
  - apply utf8_join_lines. intros r Hr.
    now apply utf8_relation_line, Hglosses.
Qed.

Lemma utf8_encode_app (t1 t2 : list N) :
  utf8_encode (t1 ++ t2) = utf8_encode t1 +:+ utf8_encode t2.
Proof.
  induction t1 as [|c t1 IH]; [easy|].
  cbn [app utf8_encode foldr]. fold (utf8_encode (t1 ++ t2)).
  fold (utf8_encode t1). now rewrite IH, append_assoc.
Qed.

Lemma utf8_encode_concat {A : Type} (row_text : A -> list N) (l : list A) :
  utf8_encode (concat (row_text <$> l))
  = join_lines ((fun x => utf8_encode (row_text x)) <$> l).
Proof.
  induction l as [|x l IH]; [easy|].
  cbn [concat fmap list_fmap join_lines foldr].
  fold (join_lines ((fun x => utf8_encode (row_text x)) <$> l)).
  now rewrite utf8_encode_app, <- IH.
Qed.

(** A string of ASCII characters is the encoding of its own text. *)
Lemma utf8_encode_ascii_text (s : string) :
  is_ascii s = true -> utf8_encode (ascii_text s) = s.
Proof.
  induction s as [|a s IH]; [easy|].
  cbn [is_ascii ascii_text utf8_encode foldr]. fold (utf8_encode (ascii_text s)).
  intros [Ha Hs]%andb_true_iff. rewrite (IH Hs).
  unfold encode_code_point. rewrite Ha, ascii_N_embedding. reflexivity.
Qed.

Lemma is_ascii_uint d : is_ascii (NilEmpty.string_of_uint d) = true.
Proof. induction d; cbn [NilEmpty.string_of_uint is_ascii]; now rewrite ?IHd. Qed.

Lemma is_ascii_str_int n : is_ascii (str_int n) = true.
Proof.
  unfold str_int, NilZero.string_of_int, NilZero.string_of_uint.
  assert (Hdigits : forall d,
    is_ascii match d with
             | Decimal.Nil => "0"
             | _ => NilEmpty.string_of_uint d
             end = true).
  { intros d. pose proof (is_ascii_uint d). now destruct d. }
  destruct (Z.to_int n) as [d|d]; [apply Hdigits|].
  cbn [is_ascii]. now rewrite Hdigits.
Qed.

Lemma utf8_encode_str_int n : utf8_encode (ascii_text (str_int n)) = str_int n.
Proof. apply utf8_encode_ascii_text, is_ascii_str_int. Qed.

Lemma utf8_encode_word_row (form : Word -> list N) (w : Word) :
  word_form w = utf8_encode (form w) ->
  utf8_encode (word_row_text form w) = word_line w.
Proof.
  intros Hform. unfold word_row_text, word_line, row. cbn [String.concat].
  rewrite !utf8_encode_app, !utf8_encode_str_int, <- Hform.
  change (utf8_encode [9%N]) with TAB. change (utf8_encode [10%N]) with NL.
  now rewrite !append_assoc.
Qed.

Lemma utf8_encode_relation_row glossary (gloss : Rel.t -> list N) (r : Rel.t) :
  str_optional (glossary !! Rel.dep_label r) = utf8_encode (gloss r) ->
  utf8_encode (relation_row_text gloss r) = relation_line glossary r.
Proof.
  intros Hgloss. unfold relation_row_text, relation_line, row.
  cbn [String.concat].
  rewrite !utf8_encode_app, !utf8_encode_str_int, <- Hgloss.
  change (utf8_encode [9%N]) with TAB. change (utf8_encode [10%N]) with NL.
  now rewrite !append_assoc.
Qed.

Lemma utf8_encode_file {A : Type} (header : string) (line : A -> string)
    (row_text : A -> list N) (l : list A) :
  is_ascii header = true ->
  (forall x, x ∈ l -> utf8_encode (row_text x) = line x) ->
  header +:+ join_lines (line <$> l)
  = utf8_encode (ascii_text header ++ concat (row_text <$> l)).
Proof.
  intros Hheader Hrows.
  rewrite utf8_encode_app, utf8_encode_ascii_text, utf8_encode_concat by easy.
  f_equal. f_equal. apply list_fmap_ext. intros i x Hx. symmetry.
  apply Hrows. eapply list_elem_of_lookup_2. exact Hx.
Qed.

Ltac euclid := zify; Z.to_euclidean_division_equations; lia.

Lemma between_ascii_of_N (lo hi n : N) :
  (lo <= n)%N -> (n <= hi)%N -> (hi < 256)%N -> between lo hi (ascii_of_N n).
Proof.
  intros Hlo Hhi Hbyte. unfold between.
  rewrite N_ascii_embedding by lia. lia.
Qed.

(** The encoder produces well-formed UTF-8. *)
Lemma utf8_encode_code_point (c : N) (s : string) :
  scalar_value c -> utf8 s -> utf8 (encode_code_point c +:+ s).
Proof.
  unfold scalar_value, encode_code_point. intros Hc Hs.
  destruct (N.ltb_spec c 128); [|destruct (N.ltb_spec c 2048);
    [|destruct (N.ltb_spec c 65536)]].
  - apply utf8_one; [apply between_ascii_of_N; euclid|exact Hs].
  - apply utf8_two; [apply between_ascii_of_N; euclid..|exact Hs].
  - apply utf8_three; [|apply between_ascii_of_N; euclid|exact Hs].
    assert (Hcases :
      (c / 4096 = 0 \/ (1 <= c / 4096 /\ c / 4096 <= 12)
       \/ c / 4096 = 13 \/ (14 <= c / 4096 /\ c / 4096 <= 15))%N) by euclid.
    destruct Hcases as [E|[E|[E|E]]];
      [left|right; left|right; right; left|right; right; right];
      (split; apply between_ascii_of_N; euclid).
  - apply utf8_four;
      [|apply between_ascii_of_N; euclid|apply between_ascii_of_N; euclid
       |exact Hs].
    assert (Hcases :
      (c / 262144 = 0 \/ (1 <= c / 262144 /\ c / 262144 <= 3)
       \/ c / 262144 = 4)%N) by euclid.
    destruct Hcases as [E|[E|E]]; [left|right; left|right; right];
      (split; apply between_ascii_of_N; euclid).
Qed.

Lemma utf8_encode_well_formed (text : list N) :
  Forall scalar_value text -> utf8 (utf8_encode text).
Proof.
  induction 1 as [|c text Hc _ IH]; [apply utf8_end|].
  cbn [utf8_encode foldr]. now apply utf8_encode_code_point.
Qed.

Lemma scalar_ascii_text (s : string) : Forall scalar_value (ascii_text s).
Proof.
  induction s as [|a s IH]; [apply Forall_nil_2|].
  apply List.Forall_cons; [|exact IH].
  pose proof (N_ascii_bounded a). unfold scalar_value. lia.
Qed.

Lemma scalar_word_row (form : Word -> list N) (w : Word) :
  Forall scalar_value (form w) -> Forall scalar_value (word_row_text form w).
Proof.
  intros Hform. unfold word_row_text.
  repeat first
    [ apply Forall_app_2 | apply scalar_ascii_text | exact Hform
    | apply List.Forall_cons; [unfold scalar_value; lia|]
    | apply Forall_nil_2 ].
Qed.

Lemma scalar_relation_row (gloss : Rel.t -> list N) (r : Rel.t) :
  Forall scalar_value (gloss r) -> Forall scalar_value (relation_row_text gloss r).
Proof.
  intros Hgloss. unfold relation_row_text.
  repeat first
    [ apply Forall_app_2 | apply scalar_ascii_text | exact Hgloss
    | apply List.Forall_cons; [unfold scalar_value; lia|]
    | apply Forall_nil_2 ].
Qed.

Lemma scalar_file {A : Type} (header : string) (row_text : A -> list N)
    (l : list A) :
  (forall x, x ∈ l -> Forall scalar_value (row_text x)) ->
  Forall scalar_value (ascii_text header ++ concat (row_text <$> l)).
Proof.
  intros Hrows. apply Forall_app_2; [apply scalar_ascii_text|].
  apply Forall_concat, Forall_fmap, Forall_forall. exact Hrows.
Qed.

Lemma words_file_text (form : Word -> list N) (ws : list Word) :
  (forall w, w ∈ ws ->
     Forall scalar_value (form w) /\ word_form w = utf8_encode (form w)) ->
  let text := ascii_text words_header ++ concat (word_row_text form <$> ws) in
  Forall scalar_value text /\
  words_header +:+ join_lines (word_line <$> ws) = utf8_encode text.
Proof.
  intros Hforms text. subst text. split.
  - apply scalar_file. intros w Hw. now apply scalar_word_row, Hforms.
  - apply utf8_encode_file; [reflexivity|].
    intros w Hw. now apply utf8_encode_word_row, Hforms.
Qed.

Lemma relations_file_text glossary (gloss : Rel.t -> list N) (rs : list Rel.t) :
  (forall r, r ∈ rs ->
     Forall scalar_value (gloss r) /\
     str_optional (glossary !! Rel.dep_label r) = utf8_encode (gloss r)) ->
  let text := ascii_text relations_header
              ++ concat (relation_row_text gloss <$> rs) in
  Forall scalar_value text /\
  relations_header +:+ join_lines (relation_line glossary <$> rs)
  = utf8_encode text.
Proof.
  intros Hglosses text. subst text. split.
  - apply scalar_file. intros r Hr. now apply scalar_relation_row, Hglosses.
  - apply utf8_encode_file; [reflexivity|].
    intros r Hr. now apply utf8_encode_relation_row, Hglosses.
Qed.

(** C6, as stated, fails on "one line per record": fields are written as
    they are, so the blank line the annotator hands over as a token puts two
    newlines into its row, and [words.txt] has six lines for a header and
    three records. *)
Lemma C6_one_line_per_record_counterexample :
  ~ one_line_per_record "out" paragraphs_heap.
Proof.
  intros Hclaim.
  destruct Hclaim as (content & Hcontent & Hlines); [compute_done|].
  vm_compute in Hcontent. injection Hcontent as <-.
  vm_compute in Hlines. discriminate Hlines.
Qed.

(** C6, amended (serialization).  When the system refuses none of the paths
    involved, [generate_files] returns normally and leaves the instance
    alone.  Afterwards [words.txt] in the output directory holds the header
    row TextNumber, SentenceNumber, WordNumber, WordForm and then one row
    per Word Table record, in table order; [relations.txt] holds the header
    row TextNumber, SentenceNumber, WordNumber1, WordNumber2, Relation and
    then one row per Relation Table record, in table order, with the
    dependent in the third column, the head in the fourth and the gloss of
    the label in the fifth.  No other file changes.  Numbers are written as
    decimal numerals: read back, a numeral gives the number.  Fields are
    written as they are, separated by tabs, and every row ends with a
    newline: a file has one line per row and three (four) tabs per row,
    plus the newlines and tabs that word forms (glosses) contain
    themselves.  The bytes of a file are well-formed UTF-8 whenever those of
    the word forms (glosses) are; and when every word form (gloss) is the
    UTF-8 encoding of a text, the file is the UTF-8 encoding of the text made
    of the header and the rows.  With both tables empty, each file holds its
    header row only. *)
Theorem C6_generate_files (output_dir : string) (h : Heap) :
  writable output_dir (world h) ->
  let run := generate_files output_dir h in
  let words := word_data (self h) in
  let relations := relation_data (self h) in
  let gloss := fun r => str_optional (GLOSSARY (world h) !! Rel.dep_label r) in
  let words_content :=
    row ["TextNumber"; "SentenceNumber"; "WordNumber"; "WordForm"]
    +:+ join_lines
          ((fun w => row [ str_int (text_number w);
                           str_int (sentence_number w);
                           str_int (word_number w);
                           word_form w ])
             <$> words) in
  let relations_content :=
    row ["TextNumber"; "SentenceNumber"; "WordNumber1"; "WordNumber2";
         "Relation"]
    +:+ join_lines
          ((fun r => row [ str_int (Rel.text_number r);
                           str_int (Rel.sentence_number r);
                           str_int (Rel.word_number1 r);
                           str_int (Rel.word_number2 r);
                           gloss r ])
             <$> relations) in
  run.1 = Ok tt /\
  self run.2 = self h /\
  files (world run.2) !! os_path_join output_dir "words.txt"
  = Some words_content /\
  files (world run.2) !! os_path_join output_dir "relations.txt"
  = Some relations_content /\
  delete (os_path_join output_dir "words.txt")
    (delete (os_path_join output_dir "relations.txt") (files (world run.2)))
  = delete (os_path_join output_dir "words.txt")
      (delete (os_path_join output_dir "relations.txt") (files (world h))) /\
  (forall n : Z, Z.of_int <$> NilZero.int_of_string (str_int n) = Some n) /\
  (forall r g, GLOSSARY (world h) !! Rel.dep_label r = Some g -> gloss r = g) /\
  count_char LF words_content
  = (S (length words)
     + sum_list_with (fun w => count_char LF (word_form w)) words)%nat /\
  count_char HT words_content
  = (3 * S (length words)
     + sum_list_with (fun w => count_char HT (word_form w)) words)%nat /\
  count_char LF relations_content
  = (S (length relations)
     + sum_list_with (fun r => count_char LF (gloss r)) relations)%nat /\
  count_char HT relations_content
  = (4 * S (length relations)
     + sum_list_with (fun r => count_char HT (gloss r)) relations)%nat /\
  ((forall w, w ∈ words -> utf8 (word_form w)) -> utf8 words_content) /\
  ((forall r, r ∈ relations -> utf8 (gloss r)) -> utf8 relations_content) /\
  (forall form : Word -> list N,
      (forall w, w ∈ words ->
         Forall scalar_value (form w) /\ word_form w = utf8_encode (form w)) ->
      let text :=
        ascii_text
          (row ["TextNumber"; "SentenceNumber"; "WordNumber"; "WordForm"])
        ++ concat (word_row_text form <$> words) in
      Forall scalar_value text /\ words_content = utf8_encode text) /\
  (forall gloss_text : Rel.t -> list N,
      (forall r, r ∈ relations ->
         Forall scalar_value (gloss_text r) /\
         gloss r = utf8_encode (gloss_text r)) ->
      let text :=
        ascii_text
          (row ["TextNumber"; "SentenceNumber"; "WordNumber1"; "WordNumber2";
                "Relation"])
        ++ concat (relation_row_text gloss_text <$> relations) in
      Forall scalar_value text /\ relations_content = utf8_encode text) /\
  (words = [] -> relations = [] ->
   words_content
   = row ["TextNumber"; "SentenceNumber"; "WordNumber"; "WordForm"] /\
   relations_content
   = row ["TextNumber"; "SentenceNumber"; "WordNumber1"; "WordNumber2";
          "Relation"]).
Proof.
  intros (Hdir & Hwords_txt & Hrelations_txt)
         run words relations gloss words_content relations_content.
  assert (Ewords : words_content
                   = words_header +:+ join_lines (word_line <$> words))
    by reflexivity.
  assert (Erelations : relations_content
                       = relations_header
                         +:+ join_lines (relation_line (GLOSSARY (world h))
                                           <$> relations))
    by reflexivity.
  clearbody words_content relations_content. subst.
  subst run. rewrite generate_files_run by easy.
  cbn [fst snd self world files].
  pose proof (output_paths_differ output_dir) as Hdiff.
  split; [easy|]. split; [easy|].
  split; [rewrite lookup_insert_ne by easy; apply lookup_insert_eq|].
  split; [apply lookup_insert_eq|].
  split.
  { rewrite delete_insert_eq.
    rewrite (delete_delete _ (os_path_join output_dir "words.txt")).
    rewrite delete_insert_eq. apply delete_delete. }
  split; [apply str_int_decimal|].
  split; [intros r g Hg; subst gloss; cbn beta; now rewrite Hg|].
  split; [apply words_file_newlines|].
  split; [apply words_file_tabs|].
  split; [apply relations_file_newlines|].
  split; [apply relations_file_tabs|].
  split; [apply utf8_words_file|].
  split; [apply utf8_relations_file|].
  split; [intros form Hform; exact (words_file_text form words Hform)|].
  split; [intros gloss_text Hgloss;
          exact (relations_file_text (GLOSSARY (world h)) gloss_text relations
                   Hgloss)|].
  intros Hw Hr. subst words relations. rewrite Hw, Hr. cbn [fmap list_fmap join_lines foldr].
  now rewrite !append_nil_r.
Qed.

Ltac scalar_values :=
  repeat (apply List.Forall_cons; [unfold scalar_value; lia|]);
  apply List.Forall_nil.

Lemma C6_generate_files_witness :
  let run := generate_files "out" fox_heap in
  let empty_run := generate_files "out" sample_heap in
  let words_content :=
    join_lines [ row ["TextNumber"; "SentenceNumber"; "WordNumber"; "WordForm"];
                 row ["1"; "1"; "1"; "Лисиця"];
                 row ["1"; "1"; "2"; "стрибає"];
                 row ["1"; "1"; "3"; "."] ] in
  let relations_content :=
    join_lines [ row ["TextNumber"; "SentenceNumber"; "WordNumber1";
                      "WordNumber2"; "Relation"];
                 row ["1"; "1"; "1"; "2"; "nominal subject"];
                 row ["1"; "1"; "3"; "2"; "None"] ] in
  let words_text :=
    (ascii_text (row ["TextNumber"; "SentenceNumber"; "WordNumber"; "WordForm"])
     ++ [49; 9; 49; 9; 49; 9; 1051; 1080; 1089; 1080; 1094; 1103; 10]
     ++ [49; 9; 49; 9; 50; 9; 1089; 1090; 1088; 1080; 1073; 1072; 1108; 10]
     ++ [49; 9; 49; 9; 51; 9; 46; 10])%N in
  let relations_text :=
    ascii_text relations_content in
  (writable "out" (world fox_heap) /\
   (forall w, w ∈ word_data (self fox_heap) -> utf8 (word_form w)) /\
   (forall r, r ∈ relation_data (self fox_heap) ->
              utf8 (str_optional
                      (GLOSSARY (world fox_heap) !! Rel.dep_label r))) /\
   GLOSSARY (world fox_heap) !! Rel.dep_label (Rel.mk 1 1 1 2 "nsubj" "nsubj")
   = Some "nominal subject" /\
   (forall w, w ∈ word_data (self fox_heap) ->
              Forall scalar_value (fox_text w) /\
              word_form w = utf8_encode (fox_text w)) /\
   (forall r, r ∈ relation_data (self fox_heap) ->
              Forall scalar_value (fox_gloss_text r) /\
              str_optional (GLOSSARY (world fox_heap) !! Rel.dep_label r)
              = utf8_encode (fox_gloss_text r)) /\
   writable "out" (world sample_heap) /\
   word_data (self sample_heap) = [] /\
   relation_data (self sample_heap) = []) /\
  run.1 = Ok tt /\
  files (world run.2) !! os_path_join "out" "words.txt" = Some words_content /\
  files (world run.2) !! os_path_join "out" "relations.txt"
  = Some relations_content /\
  count_char LF words_content = 4%nat /\
  count_char HT words_content = 12%nat /\
  count_char LF relations_content = 3%nat /\
  count_char HT relations_content = 12%nat /\
  utf8 words_content /\
  utf8 relations_content /\
  words_content = utf8_encode words_text /\
  relations_content = utf8_encode relations_text /\
  Z.of_int <$> NilZero.int_of_string (str_int 2024) = Some 2024 /\
  str_optional (GLOSSARY (world fox_heap)
                  !! Rel.dep_label (Rel.mk 1 1 1 2 "nsubj" "nsubj"))
  = "nominal subject" /\
  files (world empty_run.2) !! os_path_join "out" "words.txt"
  = Some (row ["TextNumber"; "SentenceNumber"; "WordNumber"; "WordForm"]) /\
  files (world empty_run.2) !! os_path_join "out" "relations.txt"
  = Some (row ["TextNumber"; "SentenceNumber"; "WordNumber1"; "WordNumber2";
               "Relation"]).
Proof.
  intros run empty_run words_content relations_content words_text
         relations_text.
  assert (H0 : writable "out" (world fox_heap)) by compute_done.
  assert (H1 : forall w, w ∈ word_data (self fox_heap) -> utf8 (word_form w)).
  { apply (proj1 (Forall_forall (fun w => utf8 (word_form w))
                    (word_data (self fox_heap)))).
    repeat (apply List.Forall_cons; [vm_compute; utf8_literal|]).
    apply List.Forall_nil. }
  assert (H2 : forall r, r ∈ relation_data (self fox_heap) ->
                 utf8 (str_optional
                         (GLOSSARY (world fox_heap) !! Rel.dep_label r))).
  { apply (proj1 (Forall_forall
                    (fun r => utf8 (str_optional
                                      (GLOSSARY (world fox_heap)
                                         !! Rel.dep_label r)))
                    (relation_data (self fox_heap)))).
    repeat (apply List.Forall_cons; [vm_compute; utf8_literal|]).
    apply List.Forall_nil. }
  assert (H3 : GLOSSARY (world fox_heap)
                 !! Rel.dep_label (Rel.mk 1 1 1 2 "nsubj" "nsubj")
               = Some "nominal subject") by (vm_compute; reflexivity).
  assert (H7 : forall w, w ∈ word_data (self fox_heap) ->
                 Forall scalar_value (fox_text w) /\
                 word_form w = utf8_encode (fox_text w)).
  { apply (proj1 (Forall_forall
                    (fun w => Forall scalar_value (fox_text w) /\
                              word_form w = utf8_encode (fox_text w))
                    (word_data (self fox_heap)))).
    repeat (apply List.Forall_cons;
            [split; [cbn; scalar_values|vm_compute; reflexivity]|]).
    apply List.Forall_nil. }
  assert (H8 : forall r, r ∈ relation_data (self fox_heap) ->
                 Forall scalar_value (fox_gloss_text r) /\
                 str_optional (GLOSSARY (world fox_heap) !! Rel.dep_label r)
                 = utf8_encode (fox_gloss_text r)).
  { apply (proj1 (Forall_forall
                    (fun r => Forall scalar_value (fox_gloss_text r) /\
                              str_optional
                                (GLOSSARY (world fox_heap) !! Rel.dep_label r)
                              = utf8_encode (fox_gloss_text r))
                    (relation_data (self fox_heap)))).
    repeat (apply List.Forall_cons;
            [split; [cbn; scalar_values|vm_compute; reflexivity]|]).
    apply List.Forall_nil. }
  assert (H4 : writable "out" (world sample_heap)) by compute_done.
  assert (H5 : word_data (self sample_heap) = []) by reflexivity.
  assert (H6 : relation_data (self sample_heap) = []) by reflexivity.
  destruct (C6_generate_files "out" fox_heap H0)
    as (Hok & _ & Hwords & Hrelations & _ & Hdecimal & Hgloss
        & Hwl & Hwt & Hrl & Hrt & Hwu & Hru & Hwe & Hre & _).
  destruct (C6_generate_files "out" sample_heap H4)
    as (_ & _ & Hwords0 & Hrelations0 & _ & _ & _ & _ & _ & _ & _ & _ & _
        & _ & _ & Hempty).
  destruct (Hempty H5 H6) as [Ew0 Er0].
  rewrite Ew0 in Hwords0. rewrite Er0 in Hrelations0.
  specialize (Hwu H1). specialize (Hru H2).
  split; [exact (conj H0 (conj H1 (conj H2 (conj H3 (conj H7 (conj H8
                  (conj H4 (conj H5 H6))))))))|].
  split; [exact Hok|].
  split; [refine (eq_trans Hwords _); vm_compute; reflexivity|].
  split; [refine (eq_trans Hrelations _); vm_compute; reflexivity|].
  split; [refine (eq_trans _ (eq_trans Hwl _)); vm_compute; reflexivity|].
  split; [refine (eq_trans _ (eq_trans Hwt _)); vm_compute; reflexivity|].
  split; [refine (eq_trans _ (eq_trans Hrl _)); vm_compute; reflexivity|].
  split; [refine (eq_trans _ (eq_trans Hrt _)); vm_compute; reflexivity|].
  split; [refine (eq_ind _ utf8 Hwu _ _); vm_compute; reflexivity|].
  split; [refine (eq_ind _ utf8 Hru _ _); vm_compute; reflexivity|].
  split; [refine (eq_trans _ (eq_trans (proj2 (Hwe fox_text H7)) _));
          vm_compute; reflexivity|].
  split; [refine (eq_trans _ (eq_trans (proj2 (Hre fox_gloss_text H8)) _));
          vm_compute; reflexivity|].
  split; [exact (Hdecimal 2024)|].
  split; [exact (Hgloss (Rel.mk 1 1 1 2 "nsubj" "nsubj") "nominal subject" H3)|].
  split; [exact Hwords0|exact Hrelations0].
Defined.

(** C7, as stated, fails: for a record whose label has no gloss the fifth
    field written to [relations.txt] is the text None, not the empty
    string. *)
Lemma C7_missing_gloss_counterexample :
  ~ missing_gloss_field_empty "out" unglossed_heap unglossed.
Proof.
  intros Hempty.
  assert (H : files (world (generate_files "out" unglossed_heap).2)
                !! os_path_join "out" "relations.txt"
              = Some (relations_header
                      +:+ row [ str_int 1; str_int 1; str_int 2; str_int 1;
                                "" ]))
    by (apply Hempty; [compute_done|vm_compute; reflexivity..]).
  vm_compute in H. discriminate H.
Qed.

(** C7, amended.  When the label of a relation record has no gloss (and
    the system refuses none of the paths involved), [generate_files] still
    returns normally, and the row written for that
    record, at the record's place in [relations.txt], carries the four
    characters None in its fifth field. *)
Theorem C7_missing_gloss_written_as_None
    (output_dir : string) (h : Heap) (before after : list Rel.t) (r : Rel.t) :
  writable output_dir (world h) ->
  relation_data (self h) = before ++ r :: after ->
  GLOSSARY (world h) !! Rel.dep_label r = None ->
  let run := generate_files output_dir h in
  run.1 = Ok tt /\
  files (world run.2) !! os_path_join output_dir "relations.txt"
  = Some (relations_header
          +:+ join_lines (relation_line (GLOSSARY (world h)) <$> before)
          +:+ row [ str_int (Rel.text_number r);
                    str_int (Rel.sentence_number r);
                    str_int (Rel.word_number1 r);
                    str_int (Rel.word_number2 r);
                    "None" ]
          +:+ join_lines (relation_line (GLOSSARY (world h)) <$> after)).
Proof.
  intros (Hdir & Hwords_txt & Hrelations_txt) Hdata Hgloss run. subst run.
  rewrite generate_files_run by easy. simpl.
  split; [easy|].
  rewrite lookup_insert_eq, Hdata, fmap_app, join_lines_app, fmap_cons.
  simpl. unfold relation_line at 2. now rewrite Hgloss.
Qed.

Lemma C7_missing_gloss_written_as_None_witness :
  writable "out" (world unglossed_heap) /\
  relation_data (self unglossed_heap) = [] ++ unglossed :: [] /\
  GLOSSARY (world unglossed_heap) !! Rel.dep_label unglossed = None /\
  (generate_files "out" unglossed_heap).1 = Ok tt /\
  files (world (generate_files "out" unglossed_heap).2)
    !! os_path_join "out" "relations.txt"
  = Some (relations_header
          +:+ join_lines (relation_line (GLOSSARY (world unglossed_heap)) <$> [])
          +:+ row [ str_int 1; str_int 1; str_int 2; str_int 1; "None" ]
          +:+ join_lines (relation_line (GLOSSARY (world unglossed_heap)) <$> [])).
Proof.
  assert (H1 : relation_data (self unglossed_heap) = [] ++ unglossed :: [])
    by (vm_compute; reflexivity).
  assert (H2 : GLOSSARY (world unglossed_heap) !! Rel.dep_label unglossed = None)
    by (vm_compute; reflexivity).
  assert (H0 : writable "out" (world unglossed_heap)) by compute_done.
  split; [exact H0|]. split; [exact H1|]. split; [exact H2|].
  exact (C7_missing_gloss_written_as_None "out" unglossed_heap [] []
           unglossed H0 H1 H2).
Defined.

(** ** Construction *)

Lemma supported_languages : dom model_name_map = {["uk"]}.
Proof. unfold model_name_map. now rewrite dom_singleton_L. Qed.

Lemma spacy_load_cases name w :
  (exists pipeline w', spacy_load name w = (Ok pipeline, w')) \/
  (exists msg w', spacy_load name w = (Raise (OSError msg), w')).
Proof.
  unfold spacy_load. destruct (installed w !! name); [left|right]; eauto.
Qed.

(** C8 (unsupported language).  Constructing the builder with a language
    code outside [model_name_map] raises [ValueError] with the message
    "Unsupported language: " followed by the code, and leaves the world
    untouched: no [spacy.load], no download, nothing printed, and no
    instance to process a corpus with.  For a code inside the map,
    construction never raises [ValueError]. *)
Theorem C8_unsupported_language (language0 : string) (w : World) :
  (language0 ∉ dom model_name_map ->
   __init__ language0 w
   = (Raise (ValueError ("Unsupported language: " +:+ language0)), w)) /\
  (language0 ∈ dom model_name_map ->
   forall msg, (__init__ language0 w).1 <> Raise (ValueError msg)).
Proof.
  split.
  - intros Hout. unfold __init__, load_language_model.
    rewrite bool_decide_eq_true_2 by easy. reflexivity.
  - intros Hin msg. unfold __init__, load_language_model.
    rewrite bool_decide_eq_false_2 by (intros Hn; now apply Hn).
    rewrite supported_languages in Hin. apply elem_of_singleton in Hin as ->.
    unfold bind, getitem, try_except_OSError, print, download, modify, ret.
    replace (model_name_map !! "uk") with (Some "uk_core_news_lg")
      by (unfold model_name_map; now rewrite lookup_singleton_eq).
    destruct (spacy_load_cases "uk_core_news_lg" w)
      as [(pipeline & w1 & E1)|(m & w1 & E1)]; rewrite E1; [easy|].
    destruct (index (log _ w1) !! "uk_core_news_lg"); [|easy].
    match goal with
    | |- context [spacy_load ?n ?w2] =>
        destruct (spacy_load_cases n w2)
          as [(pipeline & w3 & E3)|(m3 & w3 & E3)]; rewrite E3
    end; easy.
Qed.

Lemma C8_unsupported_language_witness :
  ("en" ∉ dom model_name_map) /\
  "uk" ∈ dom model_name_map /\
  __init__ "en" sample_world
  = (Raise (ValueError "Unsupported language: en"), sample_world) /\
  (__init__ "uk" sample_world).1
  <> Raise (ValueError "Unsupported language: uk").
Proof.
  assert (H1 : "en" ∉ dom model_name_map)
    by (rewrite supported_languages, elem_of_singleton; discriminate).
  assert (H2 : "uk" ∈ dom model_name_map)
    by (rewrite supported_languages; now apply elem_of_singleton).
  split; [exact H1|]. split; [exact H2|].
  split.
  - exact (proj1 (C8_unsupported_language "en" sample_world) H1).
  - exact (proj2 (C8_unsupported_language "uk" sample_world) H2
             "Unsupported language: uk").
Defined.

(** * Further properties of the module *)

(** ** Keys of the Word Table after one call *)

Lemma sorted_keys_inj (ws : list Word) (w1 w2 : Word) :
  StronglySorted word_before ws ->
  w1 ∈ ws -> w2 ∈ ws -> word_key w1 = word_key w2 -> w1 = w2.
Proof.
  intros Hsorted. induction Hsorted as [|w ws Hs IH Hall]; intros H1 H2 Hkey.
  - inversion H1.
  - rewrite Forall_forall in Hall.
    assert (Hirr : forall x y, word_key x = word_key y -> ~ word_before x y).
    { intros x y [= T S N] Hb. unfold word_before in Hb. lia. }
    apply elem_of_cons in H1 as [->|H1]; apply elem_of_cons in H2 as [->|H2].
    + reflexivity.
    + exfalso. now apply (Hirr w w2 Hkey), Hall.
    + exfalso. symmetry in Hkey. now apply (Hirr w w1 Hkey), Hall.
    + now apply IH.
Qed.

Lemma find_word_form_elem ws d s n f :
  find_word_form ws d s n = Some f ->
  exists w, w ∈ ws /\ matches d s n w /\ word_form w = f.
Proof.
  rewrite find_word_form_head.
  destruct (head (filter (matches d s n) ws)) as [w|] eqn:E; [|easy].
  intros [= <-]. exists w.
  apply head_Some_elem_of, list_elem_of_filter in E as [Hm Hin]. easy.
Qed.

Lemma elem_of_corpus_words_token annotate corpus w :
  w ∈ corpus_words annotate corpus <->
  exists (d s n : nat) text sent tok,
    corpus !! d = Some text /\ annotate text !! s = Some sent /\
    sent !! n = Some tok /\
    w = mkWord (Z.of_nat d + 1) (Z.of_nat s + 1) (Z.of_nat n + 1)
               (Token.text tok).
Proof.
  rewrite elem_of_corpus_words. split.
  - intros (d & text & Hd & Hw).
    apply elem_of_doc_words in Hw as (s & sent & Hs & Hw).
    apply elem_of_sentence_words in Hw as (n & tok & Hn & ->).
    exists d, s, n, text, sent, tok. easy.
  - intros (d & s & n & text & sent & tok & Hd & Hs & Hn & ->).
    exists d, text. split; [easy|].
    apply elem_of_doc_words. exists s, sent. split; [easy|].
    apply elem_of_sentence_words. eauto.
Qed.

(** X1 (lookup after one call).  On an instance that was fresh before one
    [process_corpus] call, [get_word_form] returns a form exactly for the
    keys (d, s, n) of tokens of the corpus, counted from 1, and the form it
    returns is the text of that token.  For every other key it returns
    [None]. *)
Theorem X1_lookup_round_trip
    (language0 : string) (annotate : Language) (world0 : World)
    (corpus : list string) (tn sn wn : Z) (form : string) :
  let h := (process_corpus corpus (fresh language0 annotate world0)).2 in
  get_word_form tn sn wn h = (Ok (Some form), h) <->
  exists (d s n : nat) text sent tok,
    corpus !! d = Some text /\ annotate text !! s = Some sent /\
    sent !! n = Some tok /\
    tn = Z.of_nat d + 1 /\ sn = Z.of_nat s + 1 /\ wn = Z.of_nat n + 1 /\
    form = Token.text tok.
Proof.
  intros h. subst h. rewrite process_corpus_run. unfold get_word_form. simpl.
  split.
  - intros [= Hfind]. apply find_word_form_elem in Hfind
      as (w & Hin & (T & S & N) & F).
    apply elem_of_corpus_words_token in Hin
      as (d & s & n & text & sent & tok & Hd & Hs & Hn & ->).
    simpl in *. exists d, s, n, text, sent, tok. easy.
  - intros (d & s & n & text & sent & tok & Hd & Hs & Hn & -> & -> & -> & ->).
    set (w := mkWord (Z.of_nat d + 1) (Z.of_nat s + 1) (Z.of_nat n + 1)
                     (Token.text tok)).
    assert (Hin : w ∈ corpus_words annotate corpus).
    { apply elem_of_corpus_words_token.
      exists d, s, n, text, sent, tok. easy. }
    destruct (find_word_form_Some (corpus_words annotate corpus)
                (Z.of_nat d + 1) (Z.of_nat s + 1) (Z.of_nat n + 1) w Hin)
      as [f Hf]; [easy|].
    rewrite Hf. do 3 f_equal.
    apply find_word_form_elem in Hf as (w' & Hin' & (T & S & N) & <-).
    assert (E : w' = w).
    { apply (sorted_keys_inj (corpus_words annotate corpus));
        [apply corpus_words_sorted|easy|easy|].
      unfold word_key. now rewrite T, S, N. }
    now rewrite E.
Qed.

(** X2 (unique keys).  After one call on a fresh instance no two entries of
    the Word Table share their (document, sentence, word) numbers. *)
Theorem X2_word_keys_unique
    (language0 : string) (annotate : Language) (world0 : World)
    (corpus : list string) :
  let h := (process_corpus corpus (fresh language0 annotate world0)).2 in
  NoDup (word_key <$> word_data (self h)).
Proof.
  intros h. subst h. rewrite process_corpus_run. simpl.
  pose proof (corpus_words_sorted annotate corpus) as Hsorted.
  induction Hsorted as [|w ws Hs IH Hall]; [constructor|].
  rewrite fmap_cons. constructor; [|exact IH].
  intros ([T S N] & Hkey & Hin)%list_elem_of_fmap.
  rewrite Forall_forall in Hall. specialize (Hall _ Hin).
  unfold word_key in Hkey. injection Hkey as E1 E2 E3.
  unfold word_before in Hall. simpl in *. lia.
Qed.

(** ** Lookups and further calls *)

Lemma find_word_form_app ws ws' d s n f :
  find_word_form ws d s n = Some f ->
  find_word_form (ws ++ ws') d s n = Some f.
Proof.
  induction ws as [|w ws IH]; [easy|]. simpl.
  now destruct (bool_decide (text_number w = d)
                && bool_decide (sentence_number w = s)
                && bool_decide (word_number w = n)).
Qed.

(** X3 (earlier records win).  A key that [get_word_form] resolves keeps
    resolving to the same form after any further [process_corpus] call:
    records appended later under the same numbers are never returned. *)
Theorem X3_lookup_stable
    (h : Heap) (corpus : list string) (tn sn wn : Z) (form : string) :
  get_word_form tn sn wn h = (Ok (Some form), h) ->
  let h' := (process_corpus corpus h).2 in
  get_word_form tn sn wn h' = (Ok (Some form), h').
Proof.
  intros Hfind h'. subst h'. unfold get_word_form in *.
  injection Hfind as Hfind.
  rewrite process_corpus_run. simpl.
  now rewrite (find_word_form_app _ _ _ _ _ _ Hfind).
Qed.

Lemma X3_lookup_stable_witness :
  get_word_form 1 1 2 after_first_call
  = (Ok (Some "cat"), after_first_call) /\
  (let h' := (process_corpus ["Rain fell. Birds sang loudly"]
                after_first_call).2 in
   get_word_form 1 1 2 h' = (Ok (Some "cat"), h')).
Proof.
  assert (H : get_word_form 1 1 2 after_first_call
              = (Ok (Some "cat"), after_first_call))
    by (vm_compute; reflexivity).
  split; [exact H|].
  exact (X3_lookup_stable after_first_call ["Rain fell. Birds sang loudly"]
           1 1 2 "cat" H).
Defined.

(** ** Sizes *)

Lemma length_enumerate_from {A : Type} (start : Z) (l : list A) :
  length (enumerate_from start l) = length l.
Proof. revert start. induction l; intros; simpl; auto. Qed.

Lemma length_iterations {A B C : Type} (f : Z * A -> list B)
    (g : A -> list C) (start : Z) (l : list A) :
  (forall e, length (f e) = length (g e.2)) ->
  length (concat (f <$> enumerate_from start l)) = length (concat (g <$> l)).
Proof.
  intros Hfg. revert start. induction l as [|x l IH]; intros start; [easy|].
  simpl. rewrite !length_app, IH. now rewrite (Hfg (start, x)).
Qed.

Lemma le_iterations {A B C : Type} (f : Z * A -> list B)
    (g : A -> list C) (start : Z) (l : list A) :
  (forall e, (length (f e) <= length (g e.2))%nat) ->
  (length (concat (f <$> enumerate_from start l))
   <= length (concat (g <$> l)))%nat.
Proof.
  intros Hfg. revert start. induction l as [|x l IH]; intros start; [easy|].
  specialize (IH (start + 1)). specialize (Hfg (start, x)).
  cbn [enumerate_from]. rewrite !fmap_cons. cbn [concat].
  rewrite !length_app. simpl in Hfg. lia.
Qed.

Lemma filter_concat {A : Type} (P : A -> Prop) `{!forall x, Decision (P x)}
    (ls : list (list A)) :
  filter P (concat ls) = concat (filter P <$> ls).
Proof.
  induction ls as [|l ls IH]; [easy|]. simpl. now rewrite filter_app, IH.
Qed.

Lemma length_omap_le {A B : Type} (f : A -> option B) (P : A -> Prop)
    `{!forall x, Decision (P x)} (l : list A) :
  (forall x y, f x = Some y -> P x) ->
  (length (omap f l) <= length (filter P l))%nat.
Proof.
  intros Hf. induction l as [|x l IH]; [easy|].
  destruct (f x) as [y|] eqn:E.
  - rewrite filter_cons_True by eauto.
    change (omap f (x :: l))
      with (match f x with Some y => y :: omap f l | None => omap f l end).
    rewrite E. simpl length. lia.
  - change (omap f (x :: l))
      with (match f x with Some y => y :: omap f l | None => omap f l end).
    rewrite E. rewrite filter_cons. destruct (decide (P x)); simpl length; lia.
Qed.

Lemma length_sentence_relations text_index sent_index sent :
  (length (sentence_relations text_index sent_index sent)
   <= length (filter (fun token => ~ is_root token) sent))%nat.
Proof.
  unfold sentence_relations. apply length_omap_le.
  intros token r Hr Hroot. now rewrite relation_of_root in Hr.
Qed.

Lemma concat_join {A : Type} (ls : list (list (list A))) :
  concat (concat ls) = concat ((fun l => concat l) <$> ls).
Proof.
  induction ls as [|l ls IH]; [easy|].
  simpl. now rewrite concat_app, IH.
Qed.

(** X4 (sizes).  A [process_corpus] call appends exactly one word record
    per token the annotator produces for the corpus, and at most one
    relation record per token that is not labelled ROOT. *)
Theorem X4_table_sizes (corpus : list string) (h : Heap) :
  let h' := (process_corpus corpus h).2 in
  let tokens := all_tokens (nlp (self h)) corpus in
  length (word_data (self h'))
  = (length (word_data (self h)) + length tokens)%nat /\
  (length (relation_data (self h'))
   <= length (relation_data (self h))
      + length (filter (fun token => ~ is_root token) tokens))%nat.
Proof.
  intros h' tokens. subst h' tokens. rewrite process_corpus_run. simpl.
  rewrite !length_app. unfold all_tokens. rewrite concat_join.
  rewrite <- list_fmap_compose. split.
  - f_equal. unfold corpus_words, enumerate.
    apply (length_iterations _ (fun text => concat (nlp (self h) text))).
    intros [d text]. simpl. unfold doc_words, enumerate.
    rewrite (length_iterations _ (fun sent : Span => sent)).
    + now rewrite list_fmap_id.
    + intros [s sent]. simpl. unfold sentence_words, enumerate.
      now rewrite length_fmap, length_enumerate_from.
  - apply Nat.add_le_mono_l. rewrite filter_concat.
    rewrite <- list_fmap_compose.
    unfold corpus_relations, enumerate.
    apply (le_iterations _
             (fun text => filter (fun token => ~ is_root token)
                            (concat (nlp (self h) text)))).
    intros [d text]. simpl. unfold doc_relations, enumerate.
    rewrite filter_concat.
    apply (le_iterations _
             (fun sent : Span => filter (fun token => ~ is_root token) sent)).
    intros [s sent]. simpl. apply length_sentence_relations.
Qed.

(** ** Labels of the relation records *)

Lemma sentence_relations_label text_index sent_index sent r :
  r ∈ sentence_relations text_index sent_index sent ->
  exists token,
    token ∈ sent /\ ~ is_root token /\
    Rel.relation r = Token.dep_ token /\ Rel.dep_label r = Token.dep_ token.
Proof.
  unfold sentence_relations. intros (token & Hin & Hr)%list_elem_of_omap.
  apply relation_of_Some in Hr
    as (Hroot & n & q & dependent & hd & _ & _ & _ & _ & ->).
  exists token. easy.
Qed.

Lemma elem_of_all_tokens annotate corpus (d s : nat) text (sent : Span) token :
  corpus !! d = Some text -> annotate text !! s = Some sent ->
  token ∈ sent -> token ∈ all_tokens annotate corpus.
Proof.
  intros Hd Hs Hin. unfold all_tokens.
  apply elem_of_concat. exists sent. split; [easy|].
  apply elem_of_concat. exists (annotate text). split.
  - eapply list_elem_of_lookup_2; eauto.
  - apply list_elem_of_fmap_2. eapply list_elem_of_lookup_2; eauto.
Qed.

(** X5 (labels).  On an instance built by [process_corpus] calls, every
    relation record stores the same label under [relation] and [dep_label];
    that label is the relation label of a token of a processed text, and it
    is never ROOT. *)
Theorem X5_relation_labels
    (language0 : string) (annotate : Language) (world0 : World)
    (calls : list (list string)) (r : Rel.t) :
  let h := (for_ calls process_corpus (fresh language0 annotate world0)).2 in
  r ∈ relation_data (self h) ->
  Rel.relation r = Rel.dep_label r /\
  Rel.dep_label r <> "ROOT" /\
  exists corpus token,
    corpus ∈ calls /\ token ∈ all_tokens annotate corpus /\
    Rel.dep_label r = Token.dep_ token.
Proof.
  intros h. subst h. rewrite calls_run. simpl.
  intros (rs & Hr & Hrs)%elem_of_concat.
  apply list_elem_of_fmap in Hrs as (corpus & -> & Hcorpus).
  apply elem_of_corpus_relations in Hr as (d & text & Hd & Hr).
  apply elem_of_doc_relations in Hr as (s & sent & Hs & Hr).
  apply sentence_relations_label in Hr as (token & Hin & Hroot & R & L).
  split; [congruence|]. split; [now rewrite L|].
  exists corpus, token. split; [easy|]. split; [|easy].
  eapply elem_of_all_tokens; eauto.
Qed.

Lemma X5_relation_labels_witness :
  let calls := [["The cat sleeps."]; ["Rain fell. Birds sang loudly"]] in
  let r := Rel.mk 1 2 1 2 "nsubj" "nsubj" in
  let h := (for_ calls process_corpus (fresh "uk" sample_nlp sample_world)).2 in
  r ∈ relation_data (self h) /\
  Rel.relation r = Rel.dep_label r /\
  Rel.dep_label r <> "ROOT" /\
  exists corpus token,
    corpus ∈ calls /\ token ∈ all_tokens sample_nlp corpus /\
    Rel.dep_label r = Token.dep_ token.
Proof.
  intros calls r h.
  assert (Hin : r ∈ relation_data (self h)).
  { apply list_elem_of_lookup. exists 5%nat. vm_compute. reflexivity. }
  split; [exact Hin|].
  exact (X5_relation_labels "uk" sample_nlp sample_world calls r Hin).
Defined.

(** ** One head per word *)

Lemma omap_sorted {A B : Type} (R : B -> B -> Prop) (g : A -> option B)
    (l : list A) :
  (forall (n m : nat) x x' y y',
      l !! n = Some x -> l !! m = Some x' -> (n < m)%nat ->
      g x = Some y -> g x' = Some y' -> R y y') ->
  StronglySorted R (omap g l).
Proof.
  induction l as [|x l IH]; intros Hord; [constructor|].
  assert (Htail : StronglySorted R (omap g l)).
  { apply IH. intros n m a a' y y' Hn Hm Hlt.
    apply (Hord (S n) (S m)); [easy|easy|lia]. }
  change (omap g (x :: l))
    with (match g x with Some y => y :: omap g l | None => omap g l end).
  destruct (g x) as [y|] eqn:E; [|exact Htail].
  constructor; [exact Htail|].
  apply Forall_forall. intros y' (x' & Hin & Hy')%list_elem_of_omap.
  apply list_elem_of_lookup in Hin as [m Hm].
  apply (Hord 0%nat (S m) x x'); [easy|easy|lia|easy|easy].
Qed.

Lemma sorted_iterations_in {A B : Type} (R : B -> B -> Prop)
    (f : Z * A -> list B) (start : Z) (l : list A) :
  (forall k x, x ∈ l -> StronglySorted R (f (k, x))) ->
  (forall e1 e2 y1 y2,
      y1 ∈ f e1 -> y2 ∈ f e2 -> e1.1 < e2.1 -> R y1 y2) ->
  StronglySorted R (concat (f <$> enumerate_from start l)).
Proof.
  intros Hin Hacross. revert start.
  induction l as [|x l IH]; intros start; simpl; [constructor|].
  apply StronglySorted_app_2.
  - intros y1 y2 H1 H2.
    apply elem_of_iterations in H2 as (n & x2 & _ & H2).
    apply (Hacross _ _ _ _ H1 H2). simpl. lia.
  - apply Hin. left.
  - apply IH. intros k x' Hx'. apply Hin. now right.
Qed.

Lemma sorted_NoDup_keys {A K : Type} (R : A -> A -> Prop) (key : A -> K)
    (l : list A) :
  (forall a b, key a = key b -> ~ R a b) ->
  StronglySorted R l -> NoDup (key <$> l).
Proof.
  intros Hirr Hsorted.
  induction Hsorted as [|a l Hs IH Hall]; [constructor|].
  rewrite fmap_cons. constructor; [|exact IH].
  intros (b & Hkey & Hin)%list_elem_of_fmap.
  rewrite Forall_forall in Hall. now apply (Hirr a b Hkey), Hall.
Qed.

Lemma sentence_relations_dependent_sorted text_index sent_index sent :
  NoDup (Token.i <$> sent) ->
  StronglySorted dependent_before
    (sentence_relations text_index sent_index sent).
Proof.
  intros Hnd. unfold sentence_relations. apply omap_sorted.
  intros n m token token' r r' Hn Hm Hlt Hr Hr'.
  destruct (relation_of_Some _ _ _ _ _ Hr)
    as (Hroot & _ & q & _ & hd & _ & _ & Hq & Hh & _).
  destruct (relation_of_Some _ _ _ _ _ Hr')
    as (Hroot' & _ & q' & _ & hd' & _ & _ & Hq' & Hh' & _).
  rewrite (relation_of_nonroot _ _ sent n q token hd) in Hr by easy.
  rewrite (relation_of_nonroot _ _ sent m q' token' hd') in Hr' by easy.
  injection Hr as <-. injection Hr' as <-.
  unfold dependent_before. simpl. right. split; [easy|]. right.
  split; [easy|]. lia.
Qed.

Lemma corpus_relations_dependent_sorted annotate corpus :
  distinct_identifiers annotate corpus ->
  StronglySorted dependent_before (corpus_relations annotate corpus).
Proof.
  intros Hdistinct. apply sorted_iterations_in.
  - intros d text Htext. simpl. apply sorted_iterations_in.
    + intros s sent Hsent. simpl.
      apply sentence_relations_dependent_sorted. now apply (Hdistinct text).
    + intros e1 e2 y1 y2 H1 H2 Hlt.
      apply sentence_relations_address in H1 as (T1 & S1 & _).
      apply sentence_relations_address in H2 as (T2 & S2 & _).
      unfold dependent_before. right. split; [lia|]. left. lia.
  - intros e1 e2 y1 y2 H1 H2 Hlt.
    apply doc_relations_text_number in H1.
    apply doc_relations_text_number in H2.
    unfold dependent_before. left. lia.
Qed.

Lemma distinct_identifiers_Forall annotate corpus :
  Forall (fun text =>
            Forall (fun sent : Span => NoDup (Token.i <$> sent))
                   (annotate text))
         corpus ->
  distinct_identifiers annotate corpus.
Proof.
  intros Hall text sent Htext Hsent.
  rewrite Forall_forall in Hall. specialize (Hall text Htext).
  rewrite Forall_forall in Hall. now apply Hall.
Qed.

(** X6 (one head per word).  When the identifiers of the tokens are
    pairwise distinct within every sentence, one call on a fresh instance
    leaves a Relation Table in which no two records have the same document,
    sentence and dependent word number: every word is the dependent of at
    most one relation. *)
Theorem X6_one_head_per_word
    (language0 : string) (annotate : Language) (world0 : World)
    (corpus : list string) :
  distinct_identifiers annotate corpus ->
  let h := (process_corpus corpus (fresh language0 annotate world0)).2 in
  NoDup (dependent_key <$> relation_data (self h)).
Proof.
  intros Hdistinct h. subst h. rewrite process_corpus_run. simpl.
  apply (sorted_NoDup_keys dependent_before).
  - intros a b [= T S N] Hb. unfold dependent_before in Hb. lia.
  - now apply corpus_relations_dependent_sorted.
Qed.

Lemma X6_one_head_per_word_witness :
  distinct_identifiers sample_nlp
    ["The cat sleeps."; "Rain fell. Birds sang loudly"] /\
  (let h := (process_corpus
               ["The cat sleeps."; "Rain fell. Birds sang loudly"]
               (fresh "uk" sample_nlp sample_world)).2 in
   NoDup (dependent_key <$> relation_data (self h))).
Proof.
  assert (H : distinct_identifiers sample_nlp
                ["The cat sleeps."; "Rain fell. Birds sang loudly"])
    by (apply distinct_identifiers_Forall; compute_done).
  split; [exact H|].
  exact (X6_one_head_per_word "uk" sample_nlp sample_world
           ["The cat sleeps."; "Rain fell. Birds sang loudly"] H).
Defined.

(** ** One call or two *)

Lemma enumerate_from_app {A : Type} (start : Z) (l1 l2 : list A) :
  enumerate_from start (l1 ++ l2)
  = enumerate_from start l1
    ++ enumerate_from (start + Z.of_nat (length l1)) l2.
Proof.
  revert start. induction l1 as [|x l1 IH]; intros start.
  - simpl. now rewrite Z.add_0_r.
  - simpl. rewrite IH. do 3 f_equal. lia.
Qed.











(** ** Loading the pipeline *)

Lemma load_language_model_supported language0 name w :
  model_name_map !! language0 = Some name ->
  load_language_model language0 w
  = try_except_OSError
      (spacy_load name)
      (print (download_notice language0 name) ;;;
       download name ;;;
       spacy_load name) w.
Proof.
  intros Hname. unfold load_language_model.
  rewrite bool_decide_eq_false_2
    by (intros Hout; apply Hout, elem_of_dom; eauto).
  unfold getitem. rewrite Hname.
  now erewrite bind_Ok by reflexivity.
Qed.

Lemma init_installed language0 name pipeline w :
  model_name_map !! language0 = Some name ->
  installed w !! name = Some pipeline ->
  __init__ language0 w
  = (Ok (mkWLZ language0 pipeline [] []), log (spacy_load_called name) w).
Proof.
  intros Hname Hinstalled. unfold __init__.
  erewrite bind_Ok; [reflexivity|].
  rewrite (load_language_model_supported _ _ _ Hname).
  unfold try_except_OSError, spacy_load. now rewrite Hinstalled.
Qed.

(** X8 (construction, pipeline installed).  For a supported language whose
    pipeline is installed, construction returns an instance with that
    language, that pipeline and two empty tables, after a single
    [spacy.load] call: nothing is printed and nothing is downloaded. *)
Theorem X8_init_installed
    (language0 name : string) (pipeline : Language) (w : World) :
  model_name_map !! language0 = Some name ->
  installed w !! name = Some pipeline ->
  __init__ language0 w
  = (Ok (mkWLZ language0 pipeline [] []), log (spacy_load_called name) w).
Proof.
  intros Hname Hinstalled. unfold __init__.
  erewrite bind_Ok; [reflexivity|].
  rewrite (load_language_model_supported _ _ _ Hname).
  unfold try_except_OSError, spacy_load. now rewrite Hinstalled.
Qed.

Lemma X8_init_installed_witness :
  model_name_map !! "uk" = Some "uk_core_news_lg" /\
  installed world_installed !! "uk_core_news_lg" = Some sample_nlp /\
  __init__ "uk" world_installed
  = (Ok (mkWLZ "uk" sample_nlp [] []),
     log (spacy_load_called "uk_core_news_lg") world_installed).
Proof.
  assert (H1 : model_name_map !! "uk" = Some "uk_core_news_lg")
    by (vm_compute; reflexivity).
  assert (H2 : installed world_installed !! "uk_core_news_lg"
               = Some sample_nlp)
    by (vm_compute; reflexivity).
  split; [exact H1|]. split; [exact H2|].
  exact (X8_init_installed "uk" "uk_core_news_lg" sample_nlp
           world_installed H1 H2).
Defined.

(** X9 (construction, pipeline downloaded).  For a supported language
    whose pipeline is missing but can be downloaded, construction prints
    the download notice, downloads the package, loads it and returns the
    instance; exactly two [spacy.load] calls and one download are made.
    The package stays installed, so constructing a second instance in the
    resulting world makes one [spacy.load] call and no download. *)
Theorem X9_init_downloads
    (language0 name : string) (pipeline : Language) (w : World) :
  model_name_map !! language0 = Some name ->
  installed w !! name = None ->
  index w !! name = Some pipeline ->
  let w' := log (spacy_load_called name)
              (install name pipeline
                 (log (download_called name)
                    (log (printed (download_notice language0 name))
                       (log (spacy_load_called name) w)))) in
  __init__ language0 w = (Ok (mkWLZ language0 pipeline [] []), w') /\
  trace w'
  = trace w ++ [ spacy_load_called name;
                 printed (download_notice language0 name);
                 download_called name;
                 spacy_load_called name ] /\
  __init__ language0 w'
  = (Ok (mkWLZ language0 pipeline [] []), log (spacy_load_called name) w').
Proof.
  intros Hname Hmissing Hindex w'. subst w'. split; [|split].
  - unfold __init__. erewrite bind_Ok; [reflexivity|].
    rewrite (load_language_model_supported _ _ _ Hname).
    unfold try_except_OSError. unfold spacy_load at 1. rewrite Hmissing.
    unfold bind, print, modify, download. simpl. rewrite Hindex.
    unfold spacy_load. simpl. now rewrite lookup_insert_eq.
  - simpl. now rewrite <- !app_assoc.
  - apply init_installed; [easy|]. simpl. apply lookup_insert_eq.
Qed.

Lemma X9_init_downloads_witness :
  model_name_map !! "uk" = Some "uk_core_news_lg" /\
  installed world_online !! "uk_core_news_lg" = None /\
  index world_online !! "uk_core_news_lg" = Some sample_nlp /\
  (let w' := log (spacy_load_called "uk_core_news_lg")
               (install "uk_core_news_lg" sample_nlp
                  (log (download_called "uk_core_news_lg")
                     (log (printed (download_notice "uk" "uk_core_news_lg"))
                        (log (spacy_load_called "uk_core_news_lg")
                             world_online)))) in
   __init__ "uk" world_online = (Ok (mkWLZ "uk" sample_nlp [] []), w') /\
   trace w'
   = trace world_online
     ++ [ spacy_load_called "uk_core_news_lg";
          printed (download_notice "uk" "uk_core_news_lg");
          download_called "uk_core_news_lg";
          spacy_load_called "uk_core_news_lg" ] /\
   __init__ "uk" w'
   = (Ok (mkWLZ "uk" sample_nlp [] []),
      log (spacy_load_called "uk_core_news_lg") w')).
Proof.
  assert (H1 : model_name_map !! "uk" = Some "uk_core_news_lg")
    by (vm_compute; reflexivity).
  assert (H2 : installed world_online !! "uk_core_news_lg" = None)
    by (vm_compute; reflexivity).
  assert (H3 : index world_online !! "uk_core_news_lg" = Some sample_nlp)
    by (vm_compute; reflexivity).
  split; [exact H1|]. split; [exact H2|]. split; [exact H3|].
  exact (X9_init_downloads "uk" "uk_core_news_lg" sample_nlp world_online
           H1 H2 H3).
Defined.

(** ** Serialization: failures and repetition *)

Lemma bind_Raise {S A B : Type} (m : M S A) (k : A -> M S B) s e s' :
  m s = (Raise e, s') -> bind m k s = (Raise e, s').
Proof. intros E. unfold bind. now rewrite E. Qed.

Lemma in_world_guarded_refused path effect h :
  path ∈ refused (world h) ->
  in_world (guarded path effect) h
  = (Raise (OSError ("Cannot access " +:+ repr path)),
     mkHeap (self h) (world h)).
Proof.
  intros Hbad. unfold in_world, guarded.
  now rewrite bool_decide_eq_true_2.
Qed.

(** The directory step: either the path exists, or [makedirs] creates it,
    or [makedirs] is refused. *)
Lemma directory_step_refused output_dir h :
  ~ present output_dir (world h) ->
  output_dir ∈ refused (world h) ->
  generate_files output_dir h
  = (Raise (OSError ("Cannot access " +:+ repr output_dir)), h).
Proof.
  destruct h as [o w]. simpl. intros Habsent Hbad.
  unfold generate_files, os_makedirs.
  erewrite bind_Ok by reflexivity. simpl.
  fold (present output_dir w). rewrite bool_decide_eq_false_2 by easy.
  simpl. now erewrite bind_Raise by (now apply in_world_guarded_refused).
Qed.

Lemma words_step_refused output_dir h :
  present output_dir (world h) \/ output_dir ∉ refused (world h) ->
  os_path_join output_dir "words.txt" ∈ refused (world h) ->
  generate_files output_dir h
  = (Raise (OSError ("Cannot access "
                     +:+ repr (os_path_join output_dir "words.txt"))),
     mkHeap (self h) (with_output_dir output_dir (world h))).
Proof.
  destruct h as [o w]. simpl. intros Hdir Hbad.
  unfold generate_files, os_makedirs, open_w, with_output_dir.
  erewrite bind_Ok by reflexivity. simpl.
  fold (present output_dir w).
  destruct (bool_decide (present output_dir w)) eqn:E; simpl.
  - erewrite bind_Ok by reflexivity.
    now erewrite bind_Raise by (now apply in_world_guarded_refused).
  - apply bool_decide_eq_false in E. destruct Hdir as [?|Hfree]; [easy|].
    erewrite bind_Ok by (now apply in_world_guarded).
    now erewrite bind_Raise by (now apply in_world_guarded_refused).
Qed.

Lemma relations_step_refused output_dir h :
  present output_dir (world h) \/ output_dir ∉ refused (world h) ->
  os_path_join output_dir "words.txt" ∉ refused (world h) ->
  os_path_join output_dir "relations.txt" ∈ refused (world h) ->
  generate_files output_dir h
  = (Raise (OSError ("Cannot access "
                     +:+ repr (os_path_join output_dir "relations.txt"))),
     mkHeap (self h)
       (with_files
          (<[os_path_join output_dir "words.txt" :=
               words_header +:+ join_lines (word_line <$> word_data (self h))]>
             (files (world h)))
          (with_output_dir output_dir (world h)))).
Proof.
  destruct h as [o w]. simpl. intros Hdir Hwords Hbad.
  unfold generate_files, os_makedirs, open_w, f_write, with_output_dir.
  erewrite bind_Ok by reflexivity. simpl.
  fold (present output_dir w).
  destruct (bool_decide (present output_dir w)) eqn:E; simpl.
  1: erewrite bind_Ok by reflexivity.
  2: apply bool_decide_eq_false in E; destruct Hdir as [?|Hfree]; [easy|].
  2: erewrite bind_Ok by (now apply in_world_guarded).
  all: erewrite bind_Ok by (now apply in_world_guarded).
  all: erewrite bind_Ok by (now apply in_world_guarded).
  all: erewrite bind_Ok by reflexivity.
  all: erewrite bind_Ok
         by (apply write_words_run with (c := words_header); simpl;
             first [now rewrite lookup_alter_eq, lookup_insert_eq|easy]).
  all: erewrite bind_Raise by (now apply in_world_guarded_refused).
  all: unfold with_heap_files, with_files, with_dirs; simpl.
  all: rewrite !(alter_present _ _ _ "") by apply lookup_insert_eq.
  all: now rewrite !insert_insert_eq.
Qed.

Lemma heap_eta h : mkHeap (self h) (world h) = h.
Proof. now destruct h. Qed.

Lemma with_heap_files_twice f1 f2 h :
  with_heap_files f2 (with_heap_files f1 h) = with_heap_files f2 h.
Proof. reflexivity. Qed.

Lemma open_w_run path h :
  path ∉ refused (world h) ->
  in_world (open_w path) h
  = (Ok tt, with_heap_files (<[path := ""]> (files (world h))) h).
Proof. intros Hfree. unfold open_w. now rewrite in_world_guarded. Qed.

Lemma f_write_run path s c h :
  path ∉ refused (world h) ->
  files (world h) !! path = Some c ->
  in_world (f_write path s) h
  = (Ok tt, with_heap_files (<[path := c +:+ s]> (files (world h))) h).
Proof.
  intros Hfree Hc. unfold f_write. rewrite in_world_guarded by easy.
  now rewrite (alter_present _ _ _ _ Hc).
Qed.

(** The directory step, followed by the rest of the method. *)
Lemma directory_step {A : Type} output_dir h (rest : M Heap A) :
  present output_dir (world h) \/ output_dir ∉ refused (world h) ->
  (found <- in_world (os_path_exists output_dir) ;;
   (if negb found then in_world (os_makedirs output_dir) else ret tt) ;;;
   rest) h
  = rest (mkHeap (self h) (with_output_dir output_dir (world h))).
Proof.
  intros Hdir. destruct h as [o w]. cbn [self world] in *.
  unfold with_output_dir, os_makedirs.
  erewrite bind_Ok by reflexivity. cbn [self world].
  fold (present output_dir w).
  destruct (bool_decide (present output_dir w)) eqn:E; cbn [negb].
  - now erewrite bind_Ok by reflexivity.
  - apply bool_decide_eq_false in E. destruct Hdir as [?|Hfree]; [easy|].
    now erewrite bind_Ok by (now apply in_world_guarded).
Qed.

(** Opening a file, writing its header and its rows. *)
Lemma words_file_step {A : Type} path header h (rest : M Heap A) :
  path ∉ refused (world h) ->
  (in_world (open_w path) ;;;
   in_world (f_write path header) ;;;
   h' <- get ;;
   for_ (word_data (self h')) (write_word path) ;;;
   rest) h
  = rest (with_heap_files
            (<[path := header +:+ join_lines (word_line <$> word_data (self h))]>
               (files (world h))) h).
Proof.
  intros Hfree.
  erewrite bind_Ok by (now apply open_w_run).
  erewrite bind_Ok
    by (apply f_write_run with (c := ""); [easy|apply lookup_insert_eq]).
  erewrite bind_Ok by reflexivity.
  erewrite bind_Ok
    by (apply write_words_run with (c := header);
        [easy|apply lookup_insert_eq]).
  cbn [with_heap_files self world files with_files].
  now rewrite !insert_insert_eq.
Qed.

Lemma relations_file_step path header h :
  path ∉ refused (world h) ->
  (in_world (open_w path) ;;;
   in_world (f_write path header) ;;;
   h' <- get ;;
   for_ (relation_data (self h')) (write_relation path)) h
  = (Ok tt,
     with_heap_files
       (<[path := header
                  +:+ join_lines (relation_line (GLOSSARY (world h))
                                    <$> relation_data (self h))]>
          (files (world h))) h).
Proof.
  intros Hfree.
  erewrite bind_Ok by (now apply open_w_run).
  erewrite bind_Ok
    by (apply f_write_run with (c := ""); [easy|apply lookup_insert_eq]).
  erewrite bind_Ok by reflexivity.
  erewrite write_relations_run with (c := header)
    by first [easy|apply lookup_insert_eq].
  cbn [with_heap_files self world files with_files GLOSSARY].
  now rewrite !insert_insert_eq.
Qed.

Lemma with_output_dir_fields output_dir w :
  files (with_output_dir output_dir w) = files w /\
  refused (with_output_dir output_dir w) = refused w /\
  GLOSSARY (with_output_dir output_dir w) = GLOSSARY w /\
  trace (with_output_dir output_dir w) = trace w.
Proof.
  unfold with_output_dir.
  now destruct (bool_decide (present output_dir w)).
Qed.

Lemma all_steps_accepted output_dir h :
  present output_dir (world h) \/ output_dir ∉ refused (world h) ->
  os_path_join output_dir "words.txt" ∉ refused (world h) ->
  os_path_join output_dir "relations.txt" ∉ refused (world h) ->
  generate_files output_dir h
  = (Ok tt,
     mkHeap (self h)
       (with_files
          (<[os_path_join output_dir "relations.txt" :=
               relations_header
               +:+ join_lines (relation_line (GLOSSARY (world h))
                                 <$> relation_data (self h))]>
             (<[os_path_join output_dir "words.txt" :=
                  words_header
                  +:+ join_lines (word_line <$> word_data (self h))]>
                (files (world h))))
          (with_output_dir output_dir (world h)))).
Proof.
  intros Hdir Hwords Hrels.
  destruct (with_output_dir_fields output_dir (world h))
    as (Hfiles & Hrefused & Hglossary & _).
  unfold generate_files.
  rewrite directory_step by easy.
  rewrite words_file_step by (cbn [world]; now rewrite Hrefused).
  rewrite relations_file_step
    by (unfold with_heap_files, with_files; cbn [world refused];
        now rewrite Hrefused).
  unfold with_heap_files, with_files.
  cbn [self world files GLOSSARY installed index dirs refused trace].
  rewrite Hfiles, Hglossary. reflexivity.
Qed.

Lemma generate_files_Ok_inv output_dir h :
  (generate_files output_dir h).1 = Ok tt ->
  (present output_dir (world h) \/ output_dir ∉ refused (world h)) /\
  (os_path_join output_dir "words.txt" ∉ refused (world h)) /\
  (os_path_join output_dir "relations.txt" ∉ refused (world h)).
Proof.
  intros Hok.
  destruct (decide (present output_dir (world h)
                    \/ output_dir ∉ refused (world h))) as [Hdir|Hdir].
  - destruct (decide (os_path_join output_dir "words.txt"
                      ∈ refused (world h))) as [Hw|Hw].
    { now rewrite words_step_refused in Hok. }
    destruct (decide (os_path_join output_dir "relations.txt"
                      ∈ refused (world h))) as [Hr|Hr].
    { now rewrite relations_step_refused in Hok. }
    easy.
  - rewrite directory_step_refused in Hok; [easy|tauto|].
    destruct (decide (output_dir ∈ refused (world h))); tauto.
Qed.

(** X11 (what serialization leaves alone).  Whether [generate_files]
    returns or raises, and wherever it stops, it leaves the instance as it
    was, prints nothing, calls neither [spacy.load] nor the download, and
    changes no file but [words.txt] and [relations.txt] in the output
    directory. *)
Theorem X11_generate_files_frame (output_dir : string) (h : Heap) :
  let run := generate_files output_dir h in
  let words_txt := os_path_join output_dir "words.txt" in
  let relations_txt := os_path_join output_dir "relations.txt" in
  self run.2 = self h /\
  trace (world run.2) = trace (world h) /\
  installed (world run.2) = installed (world h) /\
  delete words_txt (delete relations_txt (files (world run.2)))
  = delete words_txt (delete relations_txt (files (world h))).
Proof.
  intros run words_txt relations_txt. subst run words_txt relations_txt.
  assert (Hstep : trace (with_output_dir output_dir (world h))
                  = trace (world h) /\
                  installed (with_output_dir output_dir (world h))
                  = installed (world h) /\
                  files (with_output_dir output_dir (world h))
                  = files (world h)).
  { unfold with_output_dir.
    now destruct (bool_decide (present output_dir (world h))). }
  destruct Hstep as (Htrace & Hinstalled & Hfiles).
  destruct (decide (present output_dir (world h)
                    \/ output_dir ∉ refused (world h))) as [Hdir|Hdir].
  - destruct (decide (os_path_join output_dir "words.txt"
                      ∈ refused (world h))) as [Hw|Hw].
    { rewrite words_step_refused by easy. cbn [snd self world].
      split; [easy|]. split; [exact Htrace|]. split; [exact Hinstalled|].
      now rewrite Hfiles. }
    destruct (decide (os_path_join output_dir "relations.txt"
                      ∈ refused (world h))) as [Hr|Hr].
    { rewrite relations_step_refused by easy.
      cbn [snd self world with_files trace installed files].
      split; [easy|]. split; [exact Htrace|]. split; [exact Hinstalled|].
      rewrite (delete_delete _ (os_path_join output_dir "words.txt")).
      rewrite delete_insert_eq.
      now rewrite (delete_delete _ (os_path_join output_dir "relations.txt")). }
    rewrite all_steps_accepted by easy.
    cbn [snd self world with_files trace installed files].
    split; [easy|]. split; [exact Htrace|]. split; [exact Hinstalled|].
    rewrite delete_insert_eq.
    rewrite (delete_delete _ (os_path_join output_dir "words.txt")).
    rewrite delete_insert_eq.
    now rewrite (delete_delete _ (os_path_join output_dir "relations.txt")).
  - rewrite directory_step_refused; [easy|tauto|].
    destruct (decide (output_dir ∈ refused (world h))); tauto.
Qed.

(** X12 (no clean-up).  When [relations.txt] cannot be opened for writing
    but the directory step and [words.txt] go through, [generate_files]
    raises the [OSError] of that [open] after [words.txt] has been written
    in full: the file stays, the output directory exists, and
    [relations.txt], never opened, is as it was. *)
Theorem X12_partial_output (output_dir : string) (h : Heap) :
  present output_dir (world h) \/ output_dir ∉ refused (world h) ->
  os_path_join output_dir "words.txt" ∉ refused (world h) ->
  os_path_join output_dir "relations.txt" ∈ refused (world h) ->
  let run := generate_files output_dir h in
  (exists msg, run.1 = Raise (OSError msg)) /\
  files (world run.2) !! os_path_join output_dir "words.txt"
  = Some (words_header +:+ join_lines (word_line <$> word_data (self h))) /\
  files (world run.2) !! os_path_join output_dir "relations.txt"
  = files (world h) !! os_path_join output_dir "relations.txt" /\
  present output_dir (world run.2).
Proof.
  intros Hdir Hw Hr run. subst run.
  rewrite relations_step_refused by easy. simpl.
  split; [eauto|]. split; [apply lookup_insert_eq|]. split.
  - rewrite lookup_insert_ne by apply output_paths_differ.
    unfold with_output_dir.
    now destruct (bool_decide (present output_dir (world h))).
  - unfold with_output_dir, present in *.
    destruct (bool_decide (output_dir ∈ dirs (world h)
                           \/ output_dir ∈ dom (files (world h)))) eqn:E;
      simpl.
    + apply bool_decide_eq_true in E. destruct E as [Hd|Hf]; [now left|].
      right. rewrite dom_insert. apply elem_of_union. now right.
    + left. apply elem_of_union. left. now apply elem_of_singleton.
Qed.

Lemma X12_partial_output_witness :
  let h := heap_refusing_relations in
  (present "out" (world h) \/ "out" ∉ refused (world h)) /\
  (os_path_join "out" "words.txt" ∉ refused (world h)) /\
  os_path_join "out" "relations.txt" ∈ refused (world h) /\
  (let run := generate_files "out" h in
   (exists msg, run.1 = Raise (OSError msg)) /\
   files (world run.2) !! os_path_join "out" "words.txt"
   = Some (words_header +:+ join_lines (word_line <$> word_data (self h))) /\
   files (world run.2) !! os_path_join "out" "relations.txt"
   = files (world h) !! os_path_join "out" "relations.txt" /\
   present "out" (world run.2)).
Proof.
  intros h.
  assert (H1 : present "out" (world h) \/ "out" ∉ refused (world h))
    by (right; compute_done).
  assert (H2 : os_path_join "out" "words.txt" ∉ refused (world h))
    by compute_done.
  assert (H3 : os_path_join "out" "relations.txt" ∈ refused (world h))
    by compute_done.
  split; [exact H1|]. split; [exact H2|]. split; [exact H3|].
  exact (X12_partial_output "out" h H1 H2 H3).
Defined.

(** X13 (repetition).  A [generate_files] call that returned normally can
    be repeated: the second call returns normally too and changes nothing,
    since both files are truncated and rewritten from the same tables. *)
Theorem X13_generate_files_idempotent (output_dir : string) (h : Heap) :
  (generate_files output_dir h).1 = Ok tt ->
  generate_files output_dir (generate_files output_dir h).2
  = (Ok tt, (generate_files output_dir h).2).
Proof.
  intros (Hdir & Hw & Hr)%generate_files_Ok_inv.
  rewrite (all_steps_accepted output_dir h) by easy. simpl.
  set (F := <[os_path_join output_dir "relations.txt" :=
                relations_header
                +:+ join_lines (relation_line (GLOSSARY (world h))
                                  <$> relation_data (self h))]>
              (<[os_path_join output_dir "words.txt" :=
                   words_header
                   +:+ join_lines (word_line <$> word_data (self h))]>
                 (files (world h)))).
  set (w1 := with_files F (with_output_dir output_dir (world h))).
  assert (Hrefused : refused w1 = refused (world h)).
  { unfold w1, with_output_dir.
    now destruct (bool_decide (present output_dir (world h))). }
  assert (Hglossary : GLOSSARY w1 = GLOSSARY (world h)).
  { unfold w1, with_output_dir.
    now destruct (bool_decide (present output_dir (world h))). }
  assert (Hpresent : present output_dir w1).
  { unfold w1, with_output_dir.
    destruct (bool_decide (present output_dir (world h))) eqn:E;
      unfold present; simpl.
    - apply bool_decide_eq_true in E. destruct E as [Hd|Hf]; [now left|].
      right. unfold F. rewrite !dom_insert.
      apply elem_of_union. right. apply elem_of_union. now right.
    - left. apply elem_of_union. left. now apply elem_of_singleton. }
  rewrite (all_steps_accepted output_dir (mkHeap (self h) w1));
    [|now left|cbn [world]; now rewrite Hrefused..].
  cbn [world self]. rewrite Hglossary. unfold with_output_dir at 1.
  rewrite bool_decide_eq_true_2 by easy.
  do 2 f_equal. unfold w1, with_files. simpl. f_equal.
  unfold F. apply map_eq. intros path.
  destruct (decide (path = os_path_join output_dir "relations.txt")) as [->|N1].
  { now rewrite !lookup_insert_eq. }
  rewrite !(lookup_insert_ne _ (os_path_join output_dir "relations.txt"))
    by easy.
  destruct (decide (path = os_path_join output_dir "words.txt")) as [->|N2].
  { now rewrite !lookup_insert_eq. }
  now rewrite !lookup_insert_ne by easy.
Qed.

Lemma X13_generate_files_idempotent_witness :
  (generate_files "out" after_first_call).1 = Ok tt /\
  generate_files "out" (generate_files "out" after_first_call).2
  = (Ok tt, (generate_files "out" after_first_call).2).
Proof.
  assert (H : (generate_files "out" after_first_call).1 = Ok tt)
    by (vm_compute; reflexivity).
  split; [exact H|].
  exact (X13_generate_files_idempotent "out" after_first_call H).
Defined.

(** ** The presentation layer *)

Lemma bindX_Returns {S A B : Type} (m : MX S A) (k : A -> MX S B) s a s' :
  m s = (Returns a, s') -> bindX m k s = k a s'.
Proof. intros E. unfold bindX. now rewrite E. Qed.

Lemma bindX_Raises {S A B : Type} (m : MX S A) (k : A -> MX S B) s e s' :
  m s = (Raises e, s') -> bindX m k s = (Raises e, s').
Proof. intros E. unfold bindX. now rewrite E. Qed.

Lemma liftX_Ok {S A : Type} (m : M S A) s a s' :
  m s = (Ok a, s') -> liftX m s = (Returns a, s').
Proof. intros E. unfold liftX. now rewrite E. Qed.

(** With every relation resolvable, the loop appends one row per record. *)
Lemma pretty_rows_run (rels : list Rel.t) (table : list (list string))
    (o : WordLinkageZone) (w : World) :
  Forall (resolvable (word_data o)) rels ->
  pretty_rows rels table (mkHeap o w)
  = (Returns (table ++ (table_row (word_data o) (GLOSSARY w) <$> rels)),
     mkHeap o w).
Proof.
  revert table. induction rels as [|r rels IH]; intros table Hall.
  - simpl. now rewrite app_nil_r.
  - apply Forall_cons in Hall as [[[f1 E1] [f2 E2]] Hall].
    simpl pretty_rows.
    erewrite bindX_Returns by (apply liftX_Ok; reflexivity).
    erewrite bindX_Returns by (apply liftX_Ok; reflexivity).
    erewrite bindX_Returns by (apply liftX_Ok; reflexivity).
    simpl. rewrite E1, E2.
    erewrite bindX_Returns by reflexivity.
    erewrite bindX_Returns by reflexivity.
    rewrite IH by easy. rewrite <- app_assoc. simpl.
    unfold table_row at 2. simpl. now rewrite E1, E2.
Qed.

(** With an unresolvable relation, the loop raises [TypeError] and the
    state is as before. *)
Lemma pretty_rows_fail (rels : list Rel.t) (table : list (list string))
    (o : WordLinkageZone) (w : World) :
  ~ Forall (resolvable (word_data o)) rels ->
  exists msg,
    pretty_rows rels table (mkHeap o w) = (Raises (TypeError msg), mkHeap o w).
Proof.
  revert table. induction rels as [|r rels IH]; intros table Hnot.
  - exfalso. apply Hnot. constructor.
  - simpl pretty_rows.
    erewrite bindX_Returns by (apply liftX_Ok; reflexivity).
    erewrite bindX_Returns by (apply liftX_Ok; reflexivity).
    erewrite bindX_Returns by (apply liftX_Ok; reflexivity).
    simpl.
    destruct (find_word_form (word_data o) (Rel.text_number r)
                (Rel.sentence_number r) (Rel.word_number2 r))
      as [f1|] eqn:E1.
    + erewrite bindX_Returns by reflexivity.
      destruct (find_word_form (word_data o) (Rel.text_number r)
                  (Rel.sentence_number r) (Rel.word_number1 r))
        as [f2|] eqn:E2.
      * erewrite bindX_Returns by reflexivity.
        apply IH. intros Hall. apply Hnot. constructor; [|easy].
        unfold resolvable. rewrite E1, E2. eauto.
      * eexists. reflexivity.
    + eexists. reflexivity.
Qed.

Lemma pretty_print_run tabulate (o : WordLinkageZone) (w : World) :
  Forall (resolvable (word_data o)) (relation_data o) ->
  pretty_print tabulate (mkHeap o w)
  = (Returns tt,
     mkHeap o
       (log (printed
               (tabulate (table_row (word_data o) (GLOSSARY w)
                            <$> relation_data o) headers)) w)).
Proof.
  intros Hall. unfold pretty_print.
  erewrite bindX_Returns by (apply liftX_Ok; reflexivity). simpl.
  erewrite bindX_Returns by (now apply pretty_rows_run).
  reflexivity.
Qed.

(** X14 (all or nothing).  [pretty_print] either prints one table with one
    row per relation record and returns, or raises [TypeError] without
    having printed anything; it raises exactly when [get_word_form] finds
    no word for the head or for the dependent of some relation record.  In
    both cases the instance and the file system are as before. *)
Theorem X14_pretty_print_all_or_nothing
    (tabulate : list (list string) -> list string -> string) (h : Heap) :
  let run := pretty_print tabulate h in
  (Forall (resolvable (word_data (self h))) (relation_data (self h)) ->
   exists table,
     length table = length (relation_data (self h)) /\
     run = (Returns tt,
            mkHeap (self h)
                   (log (printed (tabulate table headers)) (world h)))) /\
  (~ Forall (resolvable (word_data (self h))) (relation_data (self h)) ->
   exists msg, run = (Raises (TypeError msg), h)).
Proof.
  intros run. subst run. destruct h as [o w]. simpl. split.
  - intros Hall. eexists. split; [|now apply pretty_print_run].
    now rewrite length_fmap.
  - intros Hnot. unfold pretty_print.
    erewrite bindX_Returns by (apply liftX_Ok; reflexivity). simpl.
    destruct (pretty_rows_fail (relation_data o) [] o w Hnot) as [msg E].
    exists msg. now erewrite bindX_Raises by exact E.
Qed.

Lemma X14_pretty_print_all_or_nothing_witness :
  Forall (resolvable (word_data (self after_first_call)))
         (relation_data (self after_first_call)) /\
  (~ Forall (resolvable (word_data (self dangling_heap)))
            (relation_data (self dangling_heap))) /\
  (exists table,
     length table = length (relation_data (self after_first_call)) /\
     pretty_print sample_tabulate after_first_call
     = (Returns tt,
        mkHeap (self after_first_call)
               (log (printed (sample_tabulate table headers))
                    (world after_first_call)))) /\
  (exists msg,
     pretty_print sample_tabulate dangling_heap
     = (Raises (TypeError msg), dangling_heap)).
Proof.
  assert (H1 : Forall (resolvable (word_data (self after_first_call)))
                      (relation_data (self after_first_call)))
    by compute_done.
  assert (H2 : ~ Forall (resolvable (word_data (self dangling_heap)))
                        (relation_data (self dangling_heap)))
    by compute_done.
  split; [exact H1|]. split; [exact H2|]. split.
  - exact (proj1 (X14_pretty_print_all_or_nothing sample_tabulate
                    after_first_call) H1).
  - exact (proj2 (X14_pretty_print_all_or_nothing sample_tabulate
                    dangling_heap) H2).
Defined.

Lemma find_word_form_token annotate corpus (d s n : nat) text
    (sent : Span) tok :
  corpus !! d = Some text -> annotate text !! s = Some sent ->
  sent !! n = Some tok ->
  find_word_form (corpus_words annotate corpus)
    (Z.of_nat d + 1) (Z.of_nat s + 1) (Z.of_nat n + 1)
  = Some (Token.text tok).
Proof.
  intros Hd Hs Hn.
  set (w := mkWord (Z.of_nat d + 1) (Z.of_nat s + 1) (Z.of_nat n + 1)
                   (Token.text tok)).
  assert (Hin : w ∈ corpus_words annotate corpus).
  { apply elem_of_corpus_words_token. exists d, s, n, text, sent, tok. easy. }
  destruct (find_word_form_Some (corpus_words annotate corpus)
              (Z.of_nat d + 1) (Z.of_nat s + 1) (Z.of_nat n + 1) w Hin)
    as [f Hf]; [easy|].
  rewrite Hf. f_equal.
  apply find_word_form_elem in Hf as (w' & Hin' & (T & S & N) & <-).
  assert (E : w' = w).
  { apply (sorted_keys_inj (corpus_words annotate corpus));
      [apply corpus_words_sorted|easy|easy|].
    unfold word_key. now rewrite T, S, N. }
  now rewrite E.
Qed.

(** X15 (what the table shows).  After one [process_corpus] call on a
    fresh instance, [pretty_print] returns normally and prints one table
    with one row per relation record, in table order.  The row of a record
    shows, in cyan, the text of the head token in the first column and the
    text of the dependent token in the third, and between them, in magenta,
    the string form of the gloss of the record's label. *)
Theorem X15_pretty_print_rows
    (language0 : string) (annotate : Language) (world0 : World)
    (corpus : list string)
    (tabulate : list (list string) -> list string -> string) :
  let h := (process_corpus corpus (fresh language0 annotate world0)).2 in
  exists table : list (list string),
    pretty_print tabulate h
    = (Returns tt,
       mkHeap (self h) (log (printed (tabulate table headers)) (world h))) /\
    Forall2
      (fun r row =>
         exists (d s n q : nat) text (sent : Span) tok hd,
           corpus !! d = Some text /\ annotate text !! s = Some sent /\
           sent !! n = Some tok /\ sent !! q = Some hd /\
           Rel.text_number r = Z.of_nat d + 1 /\
           Rel.sentence_number r = Z.of_nat s + 1 /\
           Rel.word_number1 r = Z.of_nat n + 1 /\
           Rel.word_number2 r = Z.of_nat q + 1 /\
           row = [ Fore_CYAN +:+ Token.text hd;
                   "- " +:+ Fore_MAGENTA
                        +:+ str_optional (GLOSSARY world0 !! Rel.dep_label r)
                        +:+ " ->";
                   Fore_CYAN +:+ Token.text tok ])
      (relation_data (self h)) table.
Proof.
  intros h. subst h. rewrite process_corpus_run. unfold appended, fresh.
  simpl.
  assert (Hrows : Forall
            (fun r =>
               exists (d s n q : nat) text (sent : Span) tok hd,
                 corpus !! d = Some text /\ annotate text !! s = Some sent /\
                 sent !! n = Some tok /\ sent !! q = Some hd /\
                 Rel.text_number r = Z.of_nat d + 1 /\
                 Rel.sentence_number r = Z.of_nat s + 1 /\
                 Rel.word_number1 r = Z.of_nat n + 1 /\
                 Rel.word_number2 r = Z.of_nat q + 1 /\
                 find_word_form (corpus_words annotate corpus)
                   (Rel.text_number r) (Rel.sentence_number r)
                   (Rel.word_number2 r) = Some (Token.text hd) /\
                 find_word_form (corpus_words annotate corpus)
                   (Rel.text_number r) (Rel.sentence_number r)
                   (Rel.word_number1 r) = Some (Token.text tok))
            (corpus_relations annotate corpus)).
  { apply Forall_forall. intros r Hr.
    apply corpus_relations_address in Hr
      as (d & s & n & q & text & sent & dependent & hd
          & Hd & Hs & Hn & Hq & T & S & W1 & W2 & _).
    exists d, s, n, q, text, sent, dependent, hd.
    rewrite T, S, W1, W2.
    repeat (split; [easy|]).
    split; eapply find_word_form_token; eauto. }
  exists (table_row (corpus_words annotate corpus) (GLOSSARY world0)
            <$> corpus_relations annotate corpus).
  split.
  - apply pretty_print_run. simpl.
    eapply Forall_impl; [exact Hrows|].
    intros r (d & s & n & q & text & sent & tok & hd & Hr). simpl in Hr.
    destruct Hr as (_ & _ & _ & _ & _ & _ & _ & _ & E2 & E1).
    unfold resolvable. rewrite E1, E2. eauto.
  - apply Forall2_fmap_r, Forall_Forall2_diag.
    eapply Forall_impl; [exact Hrows|].
    intros r (d & s & n & q & text & sent & tok & hd & Hr). simpl in Hr.
    destruct Hr as (Hd & Hs & Hn & Hq & T & S & W1 & W2 & E2 & E1).
    exists d, s, n, q, text, sent, tok, hd.
    repeat (split; [easy|]).
    unfold table_row, pretty_row. now rewrite E1, E2.
Qed.

Lemma relation_table_resolvable language0 annotate world0
    (calls : list (list string)) :
  let h := (for_ calls process_corpus (fresh language0 annotate world0)).2 in
  Forall (resolvable (word_data (self h))) (relation_data (self h)).
Proof.
  intros h. apply Forall_forall. intros r Hr.
  destruct (relation_ends_in_word_data language0 annotate world0 calls r Hr)
    as [(w1 & In1 & T1 & S1 & N1) (w2 & In2 & T2 & S2 & N2)].
  split.
  - apply (find_word_form_Some _ _ _ _ w2 In2). easy.
  - apply (find_word_form_Some _ _ _ _ w1 In1). easy.
Qed.

(** X16 (printing a built instance).  On an instance built by any number
    of [process_corpus] calls, [pretty_print] never raises: it prints one
    table with one row per relation record and changes neither the
    instance nor the file system. *)
Theorem X16_pretty_print_returns
    (language0 : string) (annotate : Language) (world0 : World)
    (calls : list (list string))
    (tabulate : list (list string) -> list string -> string) :
  let h := (for_ calls process_corpus (fresh language0 annotate world0)).2 in
  exists table : list (list string),
    length table = length (relation_data (self h)) /\
    pretty_print tabulate h
    = (Returns tt,
       mkHeap (self h) (log (printed (tabulate table headers)) (world h))).
Proof.
  intros h.
  pose proof (relation_table_resolvable language0 annotate world0 calls)
    as Hall.
  fold h in Hall. destruct h as [o w]. simpl in *.
  eexists. split; [|now apply pretty_print_run].
  now rewrite length_fmap.
Qed.

(** ** The tests *)

Lemma generate_files_refused output_dir0 h :
  ~ ((present output_dir0 (world h) \/ output_dir0 ∉ refused (world h)) /\
     (os_path_join output_dir0 "words.txt" ∉ refused (world h)) /\
     (os_path_join output_dir0 "relations.txt" ∉ refused (world h))) ->
  exists msg h',
    generate_files output_dir0 h = (Raise (OSError msg), h').
Proof.
  intros Hnot.
  destruct (decide (present output_dir0 (world h)
                    \/ output_dir0 ∉ refused (world h))) as [Hdir|Hdir].
  - destruct (decide (os_path_join output_dir0 "words.txt"
                      ∈ refused (world h))) as [Hw|Hw].
    { rewrite words_step_refused by easy. eauto. }
    destruct (decide (os_path_join output_dir0 "relations.txt"
                      ∈ refused (world h))) as [Hr|Hr].
    { rewrite relations_step_refused by easy. eauto. }
    tauto.
  - rewrite directory_step_refused; [eauto|tauto|].
    destruct (decide (output_dir0 ∈ refused (world h))); tauto.
Qed.

Lemma liftX_Raise {S A : Type} (m : M S A) s e s' :
  m s = (Raise e, s') -> liftX m s = (Raises (Builtin e), s').
Proof. intros E. unfold liftX. now rewrite E. Qed.

Lemma in_world_exists path h :
  in_world (os_path_exists path) h
  = (Ok (bool_decide (present path (world h))), h).
Proof. now destruct h. Qed.

(** X17 ([test_ukrainian_processing]).  Whatever the annotator returns and
    whatever the instance already holds, the two assertions of the test
    never fail: the test passes exactly when [generate_files] is not
    refused by the system, and otherwise ends in the [OSError] of
    [generate_files]. *)
Theorem X17_test_ukrainian_processing (h : Heap) :
  let run := test_ukrainian_processing h in
  let accepted :=
    (present output_dir (world h) \/ output_dir ∉ refused (world h)) /\
    (os_path_join output_dir "words.txt" ∉ refused (world h)) /\
    (os_path_join output_dir "relations.txt" ∉ refused (world h)) in
  (forall msg, run.1 <> Raises (AssertionError msg)) /\
  (run.1 = Returns tt <-> accepted) /\
  (~ accepted -> exists msg, run.1 = Raises (Builtin (OSError msg))).
Proof.
  intros run accepted. subst run. unfold test_ukrainian_processing.
  erewrite bindX_Returns by (apply liftX_Ok, process_corpus_run).
  set (h1 := appended _ _ h).
  assert (Hworld : world h1 = world h) by reflexivity.
  destruct (decide accepted) as [Hacc|Hacc].
  - pose proof Hacc as (Hdir & Hw & Hr).
    erewrite bindX_Returns
      by (apply liftX_Ok, all_steps_accepted; now rewrite Hworld).
    set (F := <[os_path_join output_dir "relations.txt" := _]> _).
    set (h2 := mkHeap _ _).
    assert (Hwords : present (os_path_join output_dir "words.txt") (world h2)).
    { right. unfold h2, F, with_files. cbn [world files].
      rewrite !dom_insert. apply elem_of_union. right.
      apply elem_of_union. left. now apply elem_of_singleton. }
    assert (Hrelations :
              present (os_path_join output_dir "relations.txt") (world h2)).
    { right. unfold h2, F, with_files. cbn [world files].
      rewrite !dom_insert. apply elem_of_union. left.
      now apply elem_of_singleton. }
    erewrite bindX_Returns by (apply liftX_Ok, in_world_exists).
    rewrite bool_decide_eq_true_2 by exact Hwords.
    erewrite bindX_Returns by reflexivity.
    erewrite bindX_Returns by (apply liftX_Ok, in_world_exists).
    rewrite bool_decide_eq_true_2 by exact Hrelations.
    cbn [assertTrue retX fst].
    split; [easy|]. split; [easy|]. intros Hn. now exfalso.
  - destruct (generate_files_refused output_dir h1) as (msg & h' & E).
    { now rewrite Hworld. }
    erewrite bindX_Raises by (apply liftX_Raise; exact E).
    cbn [fst]. split; [easy|]. split; [|eauto]. split; [easy|tauto].
Qed.

Lemma single_call language0 annotate world0 corpus :
  (for_ [corpus] process_corpus (fresh language0 annotate world0)).2
  = (process_corpus corpus (fresh language0 annotate world0)).2.
Proof.
  simpl. unfold bind. now rewrite process_corpus_run.
Qed.

(** X18 ([test_specific_ukrainian_sentence]).  On a freshly constructed
    instance the test passes for every annotator: it raises nothing,
    prints exactly one table, and writes no file. *)
Theorem X18_test_specific_ukrainian_sentence
    (language0 : string) (annotate : Language) (world0 : World)
    (tabulate : list (list string) -> list string -> string) :
  let run := test_specific_ukrainian_sentence tabulate
               (fresh language0 annotate world0) in
  run.1 = Returns tt /\
  (exists table,
      trace (world run.2)
      = trace world0 ++ [printed (tabulate table headers)]) /\
  files (world run.2) = files world0 /\
  dirs (world run.2) = dirs world0.
Proof.
  intros run. subst run. unfold test_specific_ukrainian_sentence.
  set (corpus := [_]).
  erewrite bindX_Returns by (apply liftX_Ok, process_corpus_run).
  set (h := appended _ _ _).
  assert (Hh : (for_ [corpus] process_corpus
                  (fresh language0 annotate world0)).2 = h)
    by (rewrite single_call, process_corpus_run; reflexivity).
  pose proof (relation_table_resolvable language0 annotate world0 [corpus])
    as Hall.
  cbv zeta in Hall. rewrite Hh in Hall.
  assert (Hworld : world h = world0) by reflexivity.
  clearbody h. clear Hh. destruct h as [o w]. cbn [self world] in *. subst w.
  rewrite pretty_print_run by easy. cbn [fst snd world self log files dirs trace].
  eauto.
Qed.

Lemma X17_test_ukrainian_processing_witness :
  (~ ((present output_dir (world heap_refusing_test_output)
       \/ output_dir ∉ refused (world heap_refusing_test_output)) /\
      (os_path_join output_dir "words.txt"
       ∉ refused (world heap_refusing_test_output)) /\
      (os_path_join output_dir "relations.txt"
       ∉ refused (world heap_refusing_test_output)))) /\
  exists msg,
    (test_ukrainian_processing heap_refusing_test_output).1
    = Raises (Builtin (OSError msg)).
Proof.
  assert (H : ~ ((present output_dir (world heap_refusing_test_output)
                  \/ output_dir ∉ refused (world heap_refusing_test_output)) /\
                 (os_path_join output_dir "words.txt"
                  ∉ refused (world heap_refusing_test_output)) /\
                 (os_path_join output_dir "relations.txt"
                  ∉ refused (world heap_refusing_test_output))))
    by compute_done.
  split; [exact H|].
  exact (proj2 (proj2 (X17_test_ukrainian_processing
                         heap_refusing_test_output)) H).
Defined.

(** ** Shared identifiers *)

Lemma index_map_from_snoc m entries entry :
  index_map_from m (entries ++ [entry])
  = <[Token.i entry.2 := entry.1 + 1]> (index_map_from m entries).
Proof. unfold index_map_from. now rewrite foldl_app. Qed.

Lemma index_map_snoc (sent : Span) token :
  index_map (sent ++ [token])
  = <[Token.i token := Z.of_nat (length sent) + 1]> (index_map sent).
Proof.
  unfold index_map, enumerate. rewrite enumerate_from_app. simpl.
  now rewrite index_map_from_snoc.
Qed.

Lemma index_map_last (sent : Span) (n : nat) token :
  sent !! n = Some token ->
  (forall (m : nat) token',
      sent !! m = Some token' -> Token.i token' = Token.i token ->
      (m <= n)%nat) ->
  index_map sent !! Token.i token = Some (Z.of_nat n + 1).
Proof.
  revert n token. induction sent as [|x sent IH] using rev_ind;
    intros n token Hn Hlast; [easy|].
  rewrite index_map_snoc.
  destruct (decide (n = length sent)) as [->|Hne].
  - rewrite list_lookup_middle in Hn by easy. injection Hn as ->.
    apply lookup_insert_eq.
  - assert (Hlt : (n < length sent)%nat).
    { apply lookup_lt_Some in Hn. rewrite length_app in Hn. simpl in Hn. lia. }
    rewrite lookup_app_l in Hn by easy.
    rewrite lookup_insert_ne.
    + apply IH; [easy|]. intros m token' Hm Hi.
      apply (Hlast m token'); [|easy].
      rewrite lookup_app_l; [easy|]. now apply lookup_lt_Some in Hm.
    + intros Hi.
      assert (length sent <= n)%nat; [|lia].
      apply (Hlast (length sent) x); [|easy].
      now rewrite list_lookup_middle.
Qed.

(** X19 (shared identifiers).  When several tokens of a sentence carry the
    same identifier, the addressing map built by the first inner loop of
    [process_corpus] sends that identifier to the word number of the last
    of them: every identifier resolves to the position of the last token
    that carries it. *)
Theorem X19_last_identifier_wins
    (text_index sent_index : Z) (sent : Span) (n : nat) (token : Token.t) :
  sent !! n = Some token ->
  (forall (m : nat) token',
      sent !! m = Some token' -> Token.i token' = Token.i token ->
      (m <= n)%nat) ->
  (number_words text_index sent_index sent).2 !! Token.i token
  = Some (Z.of_nat n + 1).
Proof.
  intros Hn Hlast. rewrite number_words_eq. simpl.
  now apply index_map_last.
Qed.

Lemma X19_last_identifier_wins_witness :
  twins !! 2%nat = Some (Token.mk "c" 7 "obj" 8) /\
  (forall (m : nat) token',
      twins !! m = Some token' ->
      Token.i token' = Token.i (Token.mk "c" 7 "obj" 8) -> (m <= 2)%nat) /\
  (number_words 0 0 twins).2 !! Token.i (Token.mk "c" 7 "obj" 8)
  = Some (Z.of_nat 2 + 1).
Proof.
  assert (H1 : twins !! 2%nat = Some (Token.mk "c" 7 "obj" 8)) by reflexivity.
  assert (H2 : forall (m : nat) token',
             twins !! m = Some token' ->
             Token.i token' = Token.i (Token.mk "c" 7 "obj" 8) ->
             (m <= 2)%nat).
  { intros m token' Hm _. apply lookup_lt_Some in Hm. simpl in Hm. lia. }
  split; [exact H1|]. split; [exact H2|].
  exact (X19_last_identifier_wins 0 0 twins 2 (Token.mk "c" 7 "obj" 8) H1 H2).
Defined.
